(** * Verification of the plan validator, the lifecycle handlers and the
      engine error taxonomy of the workflow kit.

    The development is a shallow embedding of
    - [packages/runtime/src/util/validate-plan.ts] (module [ValidatePlan]),
      together with the part of the zod schema library it calls (module [Zod]);
    - the engine error classes (module [EngineErrors]);
    - the lifecycle handlers of the multi-process engine (module [Lifecycle]);
    - [stripVersionSpecifier] of [packages/engine-multi/src/api/compile.ts]
      (module [EngineCompile]);
    - [packages/rtm-server/src/util/convert-attempt.ts] (module
      [ConvertAttempt]).

    JavaScript values are untyped, objects enumerate their keys in the
    order the language fixes, and property reads on objects created with
    [{}] see the members of [Object.prototype]; module [JS] models the three. *)

From Stdlib Require Import List String Ascii Bool Arith NArith ZArith Lia.
From Stdlib Require Import Floats DecimalString Permutation Relations.
Import ListNotations.

Set Warnings "-register-all".
Local Open Scope string_scope.
Local Open Scope list_scope.

(* ================================================================== *)
(** ** JavaScript values and objects *)
(* ================================================================== *)

Module JS.

(** A plain object is the list of its own enumerable properties in creation
    order; keys are pairwise distinct and the first binding of a key is the
    one every operation sees. *)
Definition jsobj (V : Type) : Type := list (string * V).

Inductive jsval : Type :=
| JUndefined
| JNull
| JBool (b : bool)
| JNum (f : float)
| JStr (s : string)
| JArr (items : list jsval)
| JObj (props : jsobj jsval).

Section Objects.
Context {V : Type}.

Fixpoint obj_get (o : jsobj V) (k : string) : option V :=
  match o with
  | [] => None
  | (k', v) :: r => if k' =? k then Some v else obj_get r k
  end.

Definition obj_has (o : jsobj V) (k : string) : bool :=
  match obj_get o k with Some _ => true | None => false end.

(** [o[k] = v] on an own data property: an existing key keeps its place,
    a new key goes last. *)
Fixpoint obj_set (k : string) (v : V) (o : jsobj V) : jsobj V :=
  match o with
  | [] => [(k, v)]
  | (k', v') :: r => if k' =? k then (k', v) :: r else (k', v') :: obj_set k v r
  end.
End Objects.

(** *** Own-key enumeration order

    [for (k in o)] and [Object.keys(o)] visit array-index keys first, in
    ascending numeric order, then the other string keys in creation order. *)

Definition digit_of (c : ascii) : option N :=
  let n := N_of_ascii c in
  if ((48 <=? n) && (n <=? 57))%N then Some (n - 48)%N else None.

Fixpoint digits_value (s : string) (acc : N) : option N :=
  match s with
  | EmptyString => Some acc
  | String c r =>
      match digit_of c with
      | Some d => digits_value r (10 * acc + d)%N
      | None => None
      end
  end.

(** An array index is the canonical decimal spelling of an integer in
    [0, 2^32 - 2]. *)
Definition array_index (s : string) : option N :=
  match s with
  | EmptyString => None
  | String c r =>
      if (Ascii.eqb c "0" && negb (r =? "")) || Nat.ltb 10 (String.length s) then None
      else match digits_value s 0 with
           | Some n => if (n <=? 4294967294)%N then Some n else None
           | None => None
           end
  end.

Fixpoint insert_index (p : N * string) (l : list (N * string)) : list (N * string) :=
  match l with
  | [] => [p]
  | q :: r => if (fst p <=? fst q)%N then p :: l else q :: insert_index p r
  end.

Definition index_keys (ks : list string) : list (N * string) :=
  flat_map (fun k => match array_index k with Some n => [(n, k)] | None => [] end) ks.

Definition named_keys (ks : list string) : list string :=
  filter (fun k => match array_index k with Some _ => false | None => true end) ks.

Definition key_order (ks : list string) : list string :=
  map snd (fold_right insert_index [] (index_keys ks)) ++ named_keys ks.

Definition obj_keys {V : Type} (o : jsobj V) : list string :=
  key_order (map fst o).

(** *** Object.prototype

    The property names every object created with [{}] inherits. A read
    [o[k]] of such a name on an object without an own [k] yields the
    inherited member, which is truthy. *)
Definition object_prototype_keys : list string :=
  [ "constructor"; "__defineGetter__"; "__defineSetter__"; "hasOwnProperty";
    "__lookupGetter__"; "__lookupSetter__"; "isPrototypeOf";
    "propertyIsEnumerable"; "toString"; "valueOf"; "__proto__";
    "toLocaleString" ].

Definition is_object_prototype_key (k : string) : bool :=
  existsb (String.eqb k) object_prototype_keys.

(** [o[k] = true] on a [Record<string, true>]: the inherited [__proto__]
    setter ignores a primitive, every other name becomes an own property. *)
Definition obj_assign_true (k : string) (o : jsobj bool) : jsobj bool :=
  if k =? "__proto__" then o else obj_set k true o.

(** *** Coercions *)

Definition truthy (v : jsval) : bool :=
  match v with
  | JUndefined | JNull => false
  | JBool b => b
  | JNum f => negb (PrimFloat.eqb f 0%float) && PrimFloat.eqb f f
  | JStr s => negb (s =? "")
  | JArr _ | JObj _ => true
  end.

(** Own-property read of a name that [Object.prototype] does not define
    (every literal name the validator reads: [id], [next], [options], ...). *)
Definition get (o : jsval) (k : string) : jsval :=
  match o with
  | JObj props => match obj_get props k with Some v => v | None => JUndefined end
  | _ => JUndefined
  end.

(** [o[k]] for an arbitrary name on a plain object, as a condition. *)
Definition read_truthy (o : jsval) (k : string) : bool :=
  match o with
  | JObj props =>
      match obj_get props k with
      | Some v => truthy v
      | None => is_object_prototype_key k
      end
  | _ => false
  end.

(** A property the schema constrains to [string | undefined]. *)
Definition str_prop (o : jsval) (k : string) : option string :=
  match get o k with JStr s => Some s | _ => None end.

Definition truthy_str (x : option string) : bool :=
  match x with Some s => negb (s =? "") | None => false end.

(** Template-literal conversion of a [string | undefined]. *)
Definition display (x : option string) : string :=
  match x with Some s => s | None => "undefined" end.

Definition nat_to_string (n : nat) : string :=
  NilZero.string_of_uint (Nat.to_uint n).

Definition Z_to_string (z : Z) : string :=
  NilZero.string_of_int (Z.to_int z).

(** The keys [for (k in v)] visits. *)
Definition for_in_keys (v : jsval) : list string :=
  match v with
  | JObj props => obj_keys props
  | JArr items => map nat_to_string (seq 0 (List.length items))
  | JStr s => map nat_to_string (seq 0 (String.length s))
  | _ => []
  end.

Definition join (sep : string) (l : list string) : string :=
  String.concat sep l.

End JS.


(* ================================================================== *)
(** ** The zod combinators the validator uses *)
(* ================================================================== *)

(** [executionPlanSchema.parse] is the synchronous parser of zod, a library
    the repository depends on. The module gives the combinators that occur
    in the two schemas and the parse rules of the library: every field of an
    object and every item of an array is parsed and its issues are kept, a
    union succeeds when one option does, and the default error map words
    type errors. *)
Module Zod.
Import JS.

Inductive path_elem : Type :=
| PKey (k : string)
| PIndex (i : nat).

Inductive issue_code : Type :=
| invalid_type
| too_small
| invalid_union.

Record issue : Type := mkIssue {
  code : issue_code;
  path : list path_elem;
  message : string
}.

Inductive status : Type := Valid | Dirty | Aborted.

Inductive schema : Type :=
| ZString (min : option (nat * string))
| ZNumber (min : option (float * string))
| ZBoolean
| ZAny
| ZOptional (inner : schema)
| ZArray (item : schema)
| ZObject (shape : list (string * schema))
| ZRecord (key value : schema)
| ZUnion (options : list schema).

(** zod's [getParsedType]. *)
Definition parsed_type (v : jsval) : string :=
  match v with
  | JUndefined => "undefined"
  | JNull => "null"
  | JBool _ => "boolean"
  | JNum f => if PrimFloat.eqb f f then "number" else "nan"
  | JStr _ => "string"
  | JArr _ => "array"
  | JObj _ => "object"
  end.

(** The default error map for [invalid_type]. *)
Definition type_error (expected : string) (v : jsval) (p : list path_elem)
  : status * list issue :=
  let msg := match v with
             | JUndefined => "Required"
             | _ => ("Expected " ++ expected ++ ", received " ++ parsed_type v)%string
             end in
  (Aborted, [mkIssue invalid_type p msg]).

Definition merge_status (a b : status) : status :=
  match a, b with
  | Aborted, _ | _, Aborted => Aborted
  | Dirty, _ | _, Dirty => Dirty
  | Valid, Valid => Valid
  end.

Definition merge (a b : status * list issue) : status * list issue :=
  (merge_status (fst a) (fst b), snd a ++ snd b).

(** The outcome of a union from the outcomes of its options, in order. *)
Definition union_result (p : list path_elem) (rs : list (status * list issue))
  : status * list issue :=
  match find (fun r => match fst r with Valid => true | _ => false end) rs with
  | Some r => r
  | None =>
      match find (fun r => match fst r with Dirty => true | _ => false end) rs with
      | Some r => r
      | None => (Aborted, [mkIssue invalid_union p "Invalid input"])
      end
  end.

Fixpoint parse (s : schema) (p : list path_elem) (v : jsval) {struct s}
  : status * list issue :=
  match s with
  | ZString min =>
      match v with
      | JStr x =>
          match min with
          | Some (n, msg) =>
              if Nat.ltb (String.length x) n then (Dirty, [mkIssue too_small p msg])
              else (Valid, [])
          | None => (Valid, [])
          end
      | _ => type_error "string" v p
      end
  | ZNumber min =>
      match v with
      | JNum f =>
          if PrimFloat.eqb f f then
            match min with
            | Some (bound, msg) =>
                if PrimFloat.ltb f bound then (Dirty, [mkIssue too_small p msg])
                else (Valid, [])
            | None => (Valid, [])
            end
          else type_error "number" v p
      | _ => type_error "number" v p
      end
  | ZBoolean =>
      match v with
      | JBool _ => (Valid, [])
      | _ => type_error "boolean" v p
      end
  | ZAny => (Valid, [])
  | ZOptional inner =>
      match v with
      | JUndefined => (Valid, [])
      | _ => parse inner p v
      end
  | ZArray item =>
      match v with
      | JArr items =>
          (fix each (l : list jsval) (i : nat) : status * list issue :=
             match l with
             | [] => (Valid, [])
             | x :: r => merge (parse item (p ++ [PIndex i]) x) (each r (S i))
             end) items 0
      | _ => type_error "array" v p
      end
  | ZObject shape =>
      match v with
      | JObj _ =>
          (fix fields (sh : list (string * schema)) : status * list issue :=
             match sh with
             | [] => (Valid, [])
             | (k, sk) :: r => merge (parse sk (p ++ [PKey k]) (get v k)) (fields r)
             end) shape
      | _ => type_error "object" v p
      end
  | ZRecord key value =>
      match v with
      | JObj props =>
          (fix each (ks : list string) : status * list issue :=
             match ks with
             | [] => (Valid, [])
             | k :: r =>
                 merge (merge (parse key (p ++ [PKey k]) (JStr k))
                              (parse value (p ++ [PKey k]) (get v k)))
                       (each r)
             end) (obj_keys props)
      | _ => type_error "object" v p
      end
  | ZUnion options =>
      union_result p
        ((fix each (os : list schema) : list (status * list issue) :=
            match os with
            | [] => []
            | o :: r => parse o p v :: each r
            end) options)
  end.

(** [path.join('.')] *)
Definition path_elem_to_string (e : path_elem) : string :=
  match e with
  | PKey k => k
  | PIndex i => nat_to_string i
  end.

Definition path_join (p : list path_elem) : string :=
  join "." (map path_elem_to_string p).

End Zod.

(* ================================================================== *)
(** ** Outcomes: warnings on the console, then a value or an exception *)
(* ================================================================== *)

Module Outcome.

Inductive exn : Type :=
| ValidationError (message : string)
| TypeError
| RangeError.

Inductive completion (A : Type) : Type :=
| Normal (a : A)
| Throw (e : exn).
Arguments Normal {A} a.
Arguments Throw {A} e.

(** A run: the lines handed to [console.warn], in order, and how it ended. *)
Definition M (A : Type) : Type := list string * completion A.

Definition ret {A} (a : A) : M A := ([], Normal a).
Definition throw {A} (e : exn) : M A := ([], Throw e).
Definition warn (line : string) : M unit := ([line], Normal tt).
Definition lift {A} (c : completion A) : M A := ([], c).

Definition bind {A B} (m : M A) (k : A -> M B) : M B :=
  match m with
  | (w, Normal a) => let (w', r) := k a in (w ++ w', r)
  | (w, Throw e) => (w, Throw e)
  end.

Fixpoint foldM {S A} (f : S -> A -> M S) (l : list A) (s : S) : M S :=
  match l with
  | [] => ret s
  | x :: r => bind (f s x) (foldM f r)
  end.

Definition forEach {A} (f : A -> M unit) (l : list A) : M unit :=
  foldM (fun _ x => f x) l tt.

End Outcome.

Declare Scope outcome_scope.
Delimit Scope outcome_scope with outcome.
Notation "x <- c ;; k" := (Outcome.bind c (fun x => k))
  (at level 61, c at next level, right associativity) : outcome_scope.
Notation "' p <- c ;; k" := (Outcome.bind c (fun x => let p := x in k))
  (at level 61, p pattern, c at next level, right associativity) : outcome_scope.
Notation "c ;; k" := (Outcome.bind c (fun _ => k))
  (at level 61, right associativity) : outcome_scope.

(* ================================================================== *)
(** ** packages/runtime/src/util/validate-plan.ts *)
(* ================================================================== *)

Module ValidatePlan.
Import JS Zod Outcome.
Local Open Scope outcome_scope.

(** The schema of the [next] field of a step. *)
Definition nextSchema : schema :=
  ZOptional (ZUnion [ZString None; ZRecord (ZString None) ZAny]).

Definition stepSchema : schema :=
  ZObject
    [ ("id", ZOptional (ZString None));
      ("name", ZOptional (ZString (Some (3, "Name must be at least 3 characters long"))));
      ("next", nextSchema);
      ("previous", ZOptional ZAny);
      ("adaptor", ZOptional (ZString (Some (3, "Adaptor must be at least 3 characters long"))));
      ("expression", ZOptional (ZString None));
      ("state", ZOptional ZAny);
      ("configuration", ZOptional ZAny);
      ("linker", ZOptional ZAny) ].

(** The schema of the [options] field of a plan. *)
Definition optionsSchema : schema :=
  ZObject
    [ ("timeout", ZOptional (ZNumber (Some (0%float, "Timeout must be a non-negative number"))));
      ("stepTimeout", ZOptional (ZNumber (Some (0%float, "Step timeout must be a non-negative number"))));
      ("start", ZOptional (ZString None));
      ("end", ZOptional (ZString None));
      ("sanitize", ZOptional ZBoolean) ].

Definition executionPlanSchema : schema :=
  ZObject
    [ ("options", optionsSchema);
      ("workflow", ZObject [ ("steps", ZArray stepSchema) ]) ].

Record ModelNode : Type := mkNode {
  up : jsobj bool;
  down : jsobj bool
}.

Definition Model : Type := jsobj ModelNode.

Record FormattedError : Type := mkFormatted {
  f_code : issue_code;
  f_message : string;
  f_path : string
}.

Definition formatZodErrors (errors : list issue) : list FormattedError :=
  map (fun error => mkFormatted (code error) (message error) (path_join (path error)))
      errors.

Definition formattedErrorsToString (formattedErrors : list FormattedError) : string :=
  join "
" (map (fun error => (f_path error ++ ": " ++ f_message error)%string) formattedErrors).

(** [plan.workflow.steps] and [plan.options] *)
Definition steps_of (plan : jsval) : list jsval :=
  match get (get plan "workflow") "steps" with
  | JArr items => items
  | _ => []
  end.

Definition options_of (plan : jsval) : jsval := get plan "options".

(** *** buildModel *)

(** [jobIdx]: the reduce starts from [{}]. Assigning the key [__proto__]
    runs the inherited setter, which makes the step the prototype of the
    index instead of adding a property. *)
Record JobIdx : Type := mkIdx {
  idx_own : jsobj jsval;
  idx_proto : option jsval
}.

Definition jobIdx_add (obj : JobIdx) (item : jsval) : JobIdx :=
  match str_prop item "id" with
  | Some id =>
      if negb (id =? "") then
        if id =? "__proto__" then
          match item with
          | JObj _ => mkIdx (idx_own obj) (Some item)
          | _ => obj
          end
        else mkIdx (obj_set id item (idx_own obj)) (idx_proto obj)
      else obj
  | None => obj
  end.

Definition jobIdx_of (steps : list jsval) : JobIdx :=
  fold_left jobIdx_add steps (mkIdx [] None).

(** The condition [jobIdx[jobId]] of [validateJob]. *)
Definition jobIdx_has (jobIdx : JobIdx) (jobId : string) : bool :=
  match obj_get (idx_own jobIdx) jobId with
  | Some item => truthy item
  | None =>
      match idx_proto jobIdx with
      | Some step => read_truthy step jobId
      | None => is_object_prototype_key jobId
      end
  end.

Definition validateJob (jobIdx : JobIdx) (jobId : string) : M unit :=
  if jobIdx_has jobIdx jobId then ret tt
  else throw (ValidationError ("Cannot find job: " ++ jobId)).

(** What a [node] variable of the loop refers to: the node of the model
    stored under an id, the throw-away object of a step without id, or an
    inherited member of [Object.prototype] that [model[jobId]] returned. *)
Inductive node_ref : Type :=
| Ref (id : string)
| Local (node : ModelNode)
| Foreign.

Definition ensureModel (model : Model) (jobId : string) : Model * node_ref :=
  match obj_get model jobId with
  | Some _ => (model, Ref jobId)
  | None =>
      if is_object_prototype_key jobId then (model, Foreign)
      else (obj_set jobId (mkNode [] []) model, Ref jobId)
  end.

Definition add_down (k : string) (n : ModelNode) : ModelNode :=
  mkNode (up n) (obj_assign_true k (down n)).

Definition add_up (k : string) (n : ModelNode) : ModelNode :=
  mkNode (obj_assign_true k (up n)) (down n).

(** A write through a node variable. A foreign value has neither [up] nor
    [down], so the property write on [undefined] raises a TypeError. *)
Definition write (f : ModelNode -> ModelNode) (model : Model) (r : node_ref)
  : M (Model * node_ref) :=
  match r with
  | Ref id =>
      match obj_get model id with
      | Some n => ret (obj_set id (f n) model, r)
      | None => ret (model, r)
      end
  | Local n => ret (model, Local (f n))
  | Foreign => throw TypeError
  end.

(** One round of [for (const nextId in job.next)]. *)
Definition link (jobIdx : JobIdx) (job_id : option string)
           (st : Model * node_ref) (nextId : string) : M (Model * node_ref) :=
  validateJob jobIdx nextId ;;
  st1 <- write (add_down nextId) (fst st) (snd st) ;;
  let (model2, nextNode) := ensureModel (fst st1) nextId in
  if truthy_str job_id then
    st3 <- write (add_up (display job_id)) model2 nextNode ;;
    ret (fst st3, snd st1)
  else ret (model2, snd st1).

(** One round of [for (const job of workflow.steps)]. *)
Definition visit (jobIdx : JobIdx) (model : Model) (job : jsval) : M Model :=
  let job_id := str_prop job "id" in
  let st := if truthy_str job_id then ensureModel model (display job_id)
            else (model, Local (mkNode [] [])) in
  match get job "next" with
  | JStr next => validateJob jobIdx next ;; ret (fst st)
  | next => st' <- foldM (link jobIdx job_id) (for_in_keys next) st ;; ret (fst st')
  end.

Definition requiredKeys : list string := ["name"; "id"; "adaptor"; "configuration"].

Definition warn_if_empty_step (index : nat) (step : jsval) : M unit :=
  let stepKeys := for_in_keys step in
  if existsb (fun key => existsb (String.eqb key) stepKeys) requiredKeys then ret tt
  else warn ("[Validation Warning]: The step at index " ++ nat_to_string index
             ++ " is considered empty or invalid as it lacks required properties.").

Fixpoint forEach_indexed {A} (f : nat -> A -> M unit) (i : nat) (l : list A) : M unit :=
  match l with
  | [] => ret tt
  | x :: r => f i x ;; forEach_indexed f (S i) r
  end.

Definition buildModel (plan : jsval) : M Model :=
  let steps := steps_of plan in
  (if Nat.eqb (List.length steps) 0
   then warn "[Validation Warning]: The steps array is empty. There are no jobs to execute."
   else ret tt) ;;
  forEach_indexed warn_if_empty_step 0 steps ;;
  foldM (visit (jobIdx_of steps)) steps [].

(** *** The assertions *)

Definition assertStart (plan : jsval) : M unit :=
  match str_prop (options_of plan) "start" with
  | Some start =>
      if existsb (fun step => match str_prop step "id" with
                              | Some id => id =? start
                              | None => false
                              end) (steps_of plan)
      then ret tt
      else throw (ValidationError ("Could not find start job: " ++ start))
  | None => ret tt
  end.

Inductive direction : Type := Up | Down.

Definition stream (node : ModelNode) (key : direction) : jsobj bool :=
  match key with Up => up node | Down => down node end.

(** [search] recurses once per edge it follows and keeps no record of the
    nodes it has seen. [stack] is the number of nested calls the engine's
    call stack still holds; a call with none left raises the RangeError
    "Maximum call stack size exceeded". *)
Fixpoint search (stack : nat) (model : Model) (from targetId : string)
         (key : direction) {struct stack} : completion unit :=
  match stack with
  | O => Throw RangeError
  | S stack' =>
      match obj_get model from with
      | Some node =>
          (fix each (ks : list string) : completion unit :=
             match ks with
             | [] => Normal tt
             | nextId :: r =>
                 if nextId =? targetId then
                   Throw (ValidationError
                            ("Circular dependency: " ++ from ++ " <-> " ++ targetId))
                 else
                   match search stack' model nextId targetId key with
                   | Normal _ => each r
                   | Throw e => Throw e
                   end
             end) (obj_keys (stream node key))
      | None =>
          if is_object_prototype_key from then Normal tt else Throw TypeError
      end
  end.

Definition assertNoCircularReferences (stack : nat) (model : Model) : M unit :=
  forEach (fun id => lift (search stack model id id Down)) (obj_keys model).

Definition node_of (model : Model) (id : string) : ModelNode :=
  match obj_get model id with Some n => n | None => mkNode [] [] end.

Definition assertSingletonDependencies (model : Model) : M unit :=
  forEach (fun id =>
             if Nat.ltb 1 (List.length (obj_keys (up (node_of model id)))) then
               throw (ValidationError ("Multiple dependencies detected for: " ++ id))
             else ret tt)
          (obj_keys model).

Definition validKeys : list string :=
  ["id"; "name"; "next"; "previous"; "adaptor"; "expression"; "state";
   "configuration"; "linker"].

Definition has_key (v : jsval) (k : string) : bool :=
  match v with JObj props => obj_has props k | _ => false end.

Definition assertStepKeys (plan : jsval) : M unit :=
  forEach (fun step =>
             (if has_key step "adaptor" && truthy_str (str_prop step "adaptor")
                 && negb (truthy_str (str_prop step "expression"))
              then throw (ValidationError
                            ("Step with adaptor '" ++ display (str_prop step "adaptor")
                             ++ "' must have an expression. Step id: '"
                             ++ display (str_prop step "id") ++ "'."))
              else ret tt) ;;
             forEach (fun key =>
                        if existsb (String.eqb key) validKeys then ret tt
                        else throw (ValidationError
                                      ("Invalid key '" ++ key ++ "' found in step with id '"
                                       ++ display (str_prop step "id") ++ "'.")))
                     (for_in_keys step))
          (steps_of plan).

Definition validOptionsKeys : list string :=
  ["timeout"; "stepTimeout"; "start"; "end"; "sanitize"].

Definition assertValidOptions (options : jsval) : M unit :=
  forEach (fun key =>
             if existsb (String.eqb key) validOptionsKeys then ret tt
             else warn ("Warning: Unrecognized option '" ++ key ++ "'"))
          (for_in_keys options).

Definition same_id (a b : option string) : bool :=
  match a, b with
  | Some x, Some y => x =? y
  | None, None => true
  | _, _ => false
  end.

(** [ids] is a [Set] of the values of [step.id], [undefined] included. *)
Definition assertValidStepIds (steps : list jsval) : M unit :=
  ids <- foldM (fun (ids : list (option string)) step =>
                  let id := str_prop step "id" in
                  if existsb (same_id id) ids then
                    throw (ValidationError ("Duplicate step ID detected: " ++ display id))
                  else ret (ids ++ [id]))
               steps [] ;;
  ret tt.

Definition referencedSteps (model : Model) : list string :=
  flat_map (fun id => obj_keys (up (node_of model id)) ++ obj_keys (down (node_of model id)))
           (obj_keys model).

Definition assertUnreferencedSteps (model : Model) : M unit :=
  let referenced := referencedSteps model in
  forEach (fun id =>
             if negb (existsb (String.eqb id) referenced)
                && Nat.eqb (List.length (obj_keys (down (node_of model id)))) 0
             then warn ("[Validation Warning]: Unreferenced step detected: " ++ id)
             else ret tt)
          (obj_keys model).

(** *** validate (the default export)

    [stack] is the depth of call stack left to [search]; the outcome is the
    list of warnings and either [true] or the exception raised. *)

Definition validate (stack : nat) (plan : jsval) : M bool :=
  match parse executionPlanSchema [] plan with
  | (Valid, _) =>
      assertStart plan ;;
      model <- buildModel plan ;;
      assertNoCircularReferences stack model ;;
      assertSingletonDependencies model ;;
      assertStepKeys plan ;;
      assertValidOptions (options_of plan) ;;
      assertValidStepIds (steps_of plan) ;;
      assertUnreferencedSteps model ;;
      ret true
  | (_, issues) =>
      throw (ValidationError (formattedErrorsToString (formatZodErrors issues)))
  end.

End ValidatePlan.

(* ================================================================== *)
(** ** The engine's error classes *)
(* ================================================================== *)

Module EngineErrors.
Import JS.

(** What a caught value exposes to the constructors below: [error.message],
    [error.type] and [error.constructor.name]. *)
Record thrown : Type := mkThrown {
  t_message : option string;
  t_type : option string;
  t_constructor_name : string
}.

(** The fields a subclass adds to [EngineError]. *)
Inductive details : Type :=
| TimeoutDetails (duration : Z)
| ExecutionDetails (original : thrown)
| CompileDetails (subtype : string) (jobId : string)
| AutoinstallDetails
| OOMDetails
| ExitDetails (code : Z) (stack : string).

Record EngineError : Type := mkEngineError {
  source : string;
  severity : string;
  type : string;
  name : string;
  message : option string;
  extra : details
}.

(** [class EngineError extends Error]: the field initialisers. *)
Definition base_source : string := "engine".
Definition base_severity : string := "-".
Definition Error_prototype_name : string := "Error".

(** [new TimeoutError(durationInMs)], for a whole number of milliseconds *)
Definition TimeoutError (durationInMs : Z) : EngineError :=
  mkEngineError base_source "kill" "TimeoutError" Error_prototype_name
    (Some (if Z.eqb durationInMs 0
           then "Workflow failed to return within the specified time limit"
           else "Workflow failed to return within " ++ Z_to_string durationInMs ++ "ms")%string)
    (TimeoutDetails durationInMs).

(** [new ExecutionError(original)] *)
Definition ExecutionError (original : thrown) : EngineError :=
  mkEngineError base_source "exception" "ExecutionError" "ExecutionError"
    (t_message original)
    (ExecutionDetails original).

(** [new CompileError(error, jobId)] *)
Definition CompileError (error : thrown) (jobId : string) : EngineError :=
  mkEngineError base_source "crash" "CompileError" Error_prototype_name
    (Some (jobId ++ ": " ++ display (t_message error))%string)
    (CompileDetails (if truthy_str (t_type error)
                     then display (t_type error)
                     else t_constructor_name error)
                    jobId).

(** [new AutoinstallError(specifier, error)] *)
Definition AutoinstallError (specifier : string) (error : thrown) : EngineError :=
  mkEngineError base_source "exception" "AutoinstallError" "AutoinstallError"
    (Some ("Error installing " ++ specifier ++ ": " ++ display (t_message error))%string)
    AutoinstallDetails.

(** [new OOMError()] *)
Definition OOMError : EngineError :=
  mkEngineError base_source "kill" "OOMError" "OOMError"
    (Some "Run exceeded maximum memory usage")
    OOMDetails.

(** [new ExitError(code)], for an integral exit code *)
Definition ExitError (code : Z) : EngineError :=
  mkEngineError base_source "crash" "ExitError" "ExitError"
    (Some ("Process exited with code: " ++ Z_to_string code)%string)
    (ExitDetails code "").

End EngineErrors.

(* ================================================================== *)
(** ** The lifecycle handlers of the multi-process engine *)
(* ================================================================== *)

Module Lifecycle.
Import JS.

(** Modelled from the spec: the status of a workflow run (section 3);
    [types.ts] is not among the sources. *)
Inductive Status : Type := pending | running | done | error.

(** Modelled from the spec: the workflow runtime state of section 3, with
    the fields the handlers and their tests read. A field that has not been
    set is [None]. *)
Record WorkflowState : Type := mkState {
  id : string;
  status : Status;
  startTime : option Z;
  duration : option Z;
  threadId : option string;
  result : option jsval
}.

Record LogMessage : Type := mkLog {
  level : string;
  log_name : string;
  log_message : list string;
  time : Z
}.

(** The events a worker sends, as the tests of the handlers build them. *)
Record WorkflowStartEvent : Type := mkStartEvent {
  start_workflowId : string;
  start_threadId : string
}.

Record WorkflowCompleteEvent : Type := mkCompleteEvent {
  complete_workflowId : string;
  complete_threadId : string;
  complete_state : jsval
}.

Record LogEvent : Type := mkLogEvent {
  log_workflowId : string;
  log_threadId : string;
  message : LogMessage
}.

(** The events the context emits to its listeners. *)
Inductive emitted : Type :=
| workflow_start (workflowId threadId : string)
| workflow_log (workflowId threadId : string) (level name : string)
               (message : list string) (time : Z)
| workflow_complete (workflowId : string) (state : jsval) (duration : option Z)
                    (threadId : string).

(** Modelled from the spec: the execution context of section 4.3
    ([engine.ts] is not among the sources), reduced to the state it owns and
    the events it has emitted so far. *)
Record ExecutionContext : Type := mkContext {
  state : WorkflowState;
  events : list emitted
}.

(** Modelled from the spec: [workflowStart] of [src/api/lifecycle.ts], which
    is not among the sources. On start the handler sets [status = running],
    [startTime = now], [duration = -1] and the event's [threadId], and emits
    "workflow started" with [{workflowId, threadId}]. [now] is the clock
    reading in milliseconds. *)
Definition workflowStart (now : Z) (context : ExecutionContext)
           (event : WorkflowStartEvent) : ExecutionContext :=
  let s := state context in
  mkContext
    (mkState (id s) running (Some now) (Some (-1)%Z)
             (Some (start_threadId event)) (result s))
    (events context ++ [workflow_start (start_workflowId event) (start_threadId event)]).

(** Modelled from the spec: [log] of [src/api/lifecycle.ts]. No state
    mutation; emits the message fields flattened beside
    [{workflowId, threadId}]. *)
Definition log (context : ExecutionContext) (event : LogEvent) : ExecutionContext :=
  let m := message event in
  mkContext (state context)
    (events context ++ [workflow_log (log_workflowId event) (log_threadId event)
                                     (level m) (log_name m) (log_message m) (time m)]).

(** Modelled from the spec: [workflowComplete] of [src/api/lifecycle.ts].
    Computes [duration = now - startTime], sets [status = done] and
    [result] to the incoming state, and emits "workflow completed" with
    [{workflowId, state, duration, threadId}]. Without a start time the
    difference has no value. *)
Definition workflowComplete (now : Z) (context : ExecutionContext)
           (event : WorkflowCompleteEvent) : ExecutionContext :=
  let s := state context in
  let d := option_map (fun t0 => (now - t0)%Z) (startTime s) in
  mkContext
    (mkState (id s) done (startTime s) d (threadId s) (Some (complete_state event)))
    (events context ++ [workflow_complete (complete_workflowId event)
                                          (complete_state event) d
                                          (complete_threadId event)]).

End Lifecycle.

(* ================================================================== *)
(** ** Vocabulary of the statements *)
(* ================================================================== *)

Module Graph.
Import JS ValidatePlan.

(** The ids one [down] edge away from [a]. *)
Definition children (model : Model) (a : string) : list string :=
  match obj_get model a with
  | Some node => obj_keys (down node)
  | None => []
  end.

Definition edge (model : Model) (a b : string) : Prop := In b (children model a).

(** [b] is reachable from [a] along [down] edges, in zero or more steps. *)
Definition reach (model : Model) : string -> string -> Prop :=
  clos_refl_trans string (edge model).

(** [x] is reachable from itself in one or more steps. *)
Definition cyclic (model : Model) (x : string) : Prop :=
  clos_trans string (edge model) x x.

(** An edge whose head is not [t]. *)
Definition edge_avoiding (model : Model) (t a b : string) : Prop :=
  edge model a b /\ b <> t.

(** No id reaches a cycle that does not pass through it. *)
Definition cycles_through_origin (model : Model) : Prop :=
  forall t v, reach model t v -> clos_trans string (edge_avoiding model t) v v -> False.

(** [t] is the non-empty id of a step of the plan. *)
Definition declared (steps : list jsval) (t : string) : Prop :=
  t <> "" /\ exists step, In step steps /\ str_prop step "id" = Some t.

(** No id of the plan and not [t] itself is a name that objects inherit
    from [Object.prototype]. *)
Definition plain_names (steps : list jsval) (t : string) : Prop :=
  is_object_prototype_key t = false /\
  forall step, In step steps -> str_prop step "id" <> Some "__proto__".

Definition cannot_find_message (t : string) : string :=
  ("Cannot find job: " ++ t)%string.

(** The message of the cycle check for the edge [a -> b]. *)
Definition circular_message (a b : string) : string :=
  ("Circular dependency: " ++ a ++ " <-> " ++ b)%string.

(** A walk from [x] along [down] edges that never enters [t]: the ids it
    visits after [x], in order. *)
Fixpoint walk (model : Model) (t x : string) (l : list string) : Prop :=
  match l with
  | [] => True
  | y :: r => edge model x y /\ y <> t /\ walk model t y r
  end.

(** The search ended the way the validator expects: it returned, or it
    raised a ValidationError. *)
Definition settled (c : Outcome.completion unit) : Prop :=
  match c with
  | Outcome.Normal _ => True
  | Outcome.Throw (Outcome.ValidationError _) => True
  | Outcome.Throw _ => False
  end.

(** Every [down] key names a node of the model, or a member of
    [Object.prototype]. *)
Definition closed (model : Model) : Prop :=
  forall a b, edge model a b -> obj_get model b = None ->
              is_object_prototype_key b = true.

(** No node is stored under the name of a member of [Object.prototype]. *)
Definition proper (model : Model) : Prop :=
  forall k, In k (map fst model) -> is_object_prototype_key k = false.

(** [model'] has every id and every edge of [model]. *)
Definition extends (model model' : Model) : Prop :=
  forall x,
    (In x (map fst model) -> In x (map fst model')) /\
    incl (map fst (up (node_of model x))) (map fst (up (node_of model' x))) /\
    incl (map fst (down (node_of model x))) (map fst (down (node_of model' x))).

(** [model[a] = f(model[a])] for a node that exists. *)
Definition update (a : string) (f : ModelNode -> ModelNode) (model : Model) : Model :=
  match obj_get model a with
  | Some n => obj_set a (f n) model
  | None => model
  end.

(** The upstream neighbours the model records for [x]. *)
Definition parents (model : Model) (x : string) : list string :=
  obj_keys (up (node_of model x)).

(** Every [down] edge has its [up] twin. *)
Definition mirrored (model : Model) : Prop :=
  forall a b, edge model a b -> In a (parents model b).

(** [x] breaks the single-input rule. *)
Definition fan_in (model : Model) (x : string) : bool :=
  Nat.ltb 1 (List.length (parents model x)).

(** The single-input rule holds throughout the model. *)
Definition single_input (model : Model) : Prop :=
  forall x, fan_in model x = false.

Definition multiple_message (x : string) : string :=
  ("Multiple dependencies detected for: " ++ x)%string.

End Graph.

(** The loops of the parser, named, and the vocabulary of the statements
    about the schema. *)
Module Schema.
Import JS Zod ValidatePlan.

Fixpoint parse_fields (shape : list (string * schema)) (p : list path_elem) (v : jsval)
  : status * list issue :=
  match shape with
  | [] => (Valid, [])
  | (k, sk) :: r => merge (parse sk (p ++ [PKey k]) (get v k)) (parse_fields r p v)
  end.

Fixpoint parse_items (item : schema) (p : list path_elem) (l : list jsval) (i : nat)
  : status * list issue :=
  match l with
  | [] => (Valid, [])
  | x :: r => merge (parse item (p ++ [PIndex i]) x) (parse_items item p r (S i))
  end.

Fixpoint parse_entries (key value : schema) (p : list path_elem) (v : jsval)
         (ks : list string) : status * list issue :=
  match ks with
  | [] => (Valid, [])
  | k :: r =>
      merge (merge (parse key (p ++ [PKey k]) (JStr k))
                   (parse value (p ++ [PKey k]) (get v k)))
            (parse_entries key value p v r)
  end.

(** Induction on schemas, through the lists of fields and of options. *)
Fixpoint schema_induction (P : schema -> Prop)
         (HString : forall min, P (ZString min))
         (HNumber : forall min, P (ZNumber min))
         (HBoolean : P ZBoolean)
         (HAny : P ZAny)
         (HOptional : forall s, P s -> P (ZOptional s))
         (HArray : forall s, P s -> P (ZArray s))
         (HObject : forall shape, Forall (fun kv => P (snd kv)) shape -> P (ZObject shape))
         (HRecord : forall k v, P k -> P v -> P (ZRecord k v))
         (HUnion : forall options, Forall P options -> P (ZUnion options))
         (s : schema) {struct s} : P s :=
  let rec := schema_induction P HString HNumber HBoolean HAny HOptional HArray
                              HObject HRecord HUnion in
  match s with
  | ZString min => HString min
  | ZNumber min => HNumber min
  | ZBoolean => HBoolean
  | ZAny => HAny
  | ZOptional inner => HOptional inner (rec inner)
  | ZArray item => HArray item (rec item)
  | ZObject shape =>
      HObject shape
        ((fix all (l : list (string * schema)) : Forall (fun kv => P (snd kv)) l :=
            match l with
            | [] => Forall_nil _
            | kv :: r => Forall_cons kv (rec (snd kv)) (all r)
            end) shape)
  | ZRecord key value => HRecord key value (rec key) (rec value)
  | ZUnion options =>
      HUnion options
        ((fix all (l : list schema) : Forall P l :=
            match l with
            | [] => Forall_nil _
            | o :: r => Forall_cons o (rec o) (all r)
            end) options)
  end.

(** A parse result is valid exactly when it carries no issue. *)
Definition coherent (r : status * list issue) : Prop :=
  fst r = Valid <-> snd r = [].

(** The violations the schema finds in a plan, in the order zod reports them. *)
Definition schema_issues (plan : jsval) : list issue :=
  snd (parse executionPlanSchema [] plan).

(** One line of the message of a schema error. *)
Definition issue_line (i : issue) : string :=
  (path_join (path i) ++ ": " ++ message i)%string.

(** The violations of the steps, each step with its index. *)
Definition step_issues (items : list jsval) : list issue :=
  flat_map (fun ix => snd (parse stepSchema
                             [PKey "workflow"; PKey "steps"; PIndex (fst ix)] (snd ix)))
           (combine (seq 0 (List.length items)) items).

(** The same object with other values on the edges of a mapping. *)
Definition relabel (f : string -> jsval -> jsval) (edges : jsobj jsval) : jsobj jsval :=
  map (fun kv => (fst kv, f (fst kv) (snd kv))) edges.

Definition step_with_edge_values (f : string -> jsval -> jsval) (step : jsval) : jsval :=
  match step with
  | JObj props =>
      match obj_get props "next" with
      | Some (JObj edges) => JObj (obj_set "next" (JObj (relabel f edges)) props)
      | _ => step
      end
  | _ => step
  end.

Definition plan_with_edge_values (f : string -> jsval -> jsval) (plan : jsval) : jsval :=
  match plan with
  | JObj pp =>
      match obj_get pp "workflow" with
      | Some (JObj wp) =>
          match obj_get wp "steps" with
          | Some (JArr items) =>
              JObj (obj_set "workflow"
                      (JObj (obj_set "steps"
                               (JArr (map (step_with_edge_values f) items)) wp)) pp)
          | _ => plan
          end
      | _ => plan
      end
  | _ => plan
  end.

End Schema.

(** The parts of the validator the statements name. *)
Module Stages.
Import JS Zod Outcome ValidatePlan.
Local Open Scope outcome_scope.

(** The [for (const nextId in stream)] loop of [search], from the keys that
    are left. *)
Fixpoint search_from (stack' : nat) (model : Model) (from targetId : string)
         (key : direction) (ks : list string) : completion unit :=
  match ks with
  | [] => Normal tt
  | nextId :: r =>
      if nextId =? targetId then
        Throw (ValidationError ("Circular dependency: " ++ from ++ " <-> " ++ targetId))
      else
        match search stack' model nextId targetId key with
        | Normal _ => search_from stack' model from targetId key r
        | Throw e => Throw e
        end
  end.

(** The node variable of a step, before its [next] is looked at. *)
Definition entry (model : Model) (job : jsval) : Model * node_ref :=
  if truthy_str (str_prop job "id")
  then ensureModel model (display (str_prop job "id"))
  else (model, Local (mkNode [] [])).

(** What [buildModel] does before its main loop: the warnings about an
    empty steps array and about steps without any of the required keys. *)
Definition build_prelude (plan : jsval) : M unit :=
  (if Nat.eqb (List.length (steps_of plan)) 0
   then warn "[Validation Warning]: The steps array is empty. There are no jobs to execute."
   else ret tt) ;;
  forEach_indexed warn_if_empty_step 0 (steps_of plan).

(** The main loop of [buildModel]. *)
Definition build_loop (plan : jsval) (steps : list jsval) (model : Model) : M Model :=
  foldM (visit (jobIdx_of (steps_of plan))) steps model.

(** What [validate] runs once the model is built. *)
Definition after_model (stack : nat) (plan : jsval) (model : Model) : M bool :=
  assertNoCircularReferences stack model ;;
  assertSingletonDependencies model ;;
  assertStepKeys plan ;;
  assertValidOptions (options_of plan) ;;
  assertValidStepIds (steps_of plan) ;;
  assertUnreferencedSteps model ;;
  ret true.

(** The checks that follow schema conformance, in the order in which
    [validate] runs them. The checks on the model exist once it is built. *)
Definition stages (stack : nat) (plan : jsval) : list (M unit) :=
  [ assertStart plan;
    (_ <- buildModel plan ;; ret tt) ] ++
  match snd (buildModel plan) with
  | Normal model =>
      [ assertNoCircularReferences stack model;
        assertSingletonDependencies model;
        assertStepKeys plan;
        assertValidOptions (options_of plan);
        assertValidStepIds (steps_of plan);
        assertUnreferencedSteps model ]
  | Throw _ => []
  end.

(** The exception of the first stage that raises one. *)
Fixpoint first_failure (l : list (M unit)) : option exn :=
  match l with
  | [] => None
  | s :: r =>
      match snd s with
      | Throw e => Some e
      | Normal _ => first_failure r
      end
  end.

(** The warnings of the stages up to and including the first that raises. *)
Fixpoint warnings_until_failure (l : list (M unit)) : list string :=
  match l with
  | [] => []
  | s :: r =>
      fst s ++ match snd s with
               | Throw _ => []
               | Normal _ => warnings_until_failure r
               end
  end.

(** What a run of the stages amounts to. *)
Definition outcome_of (l : list (M unit)) : M bool :=
  (warnings_until_failure l,
   match first_failure l with
   | Some e => Throw e
   | None => Normal true
   end).

(** Check 6 on one step: an adaptor and no expression. *)
Definition adaptor_without_expression (step : jsval) : bool :=
  has_key step "adaptor" && truthy_str (str_prop step "adaptor")
  && negb (truthy_str (str_prop step "expression")).

(** Check 5 on one key. *)
Definition invalid_key (key : string) : bool :=
  negb (existsb (String.eqb key) validKeys).

(** The error of [assertStepKeys] for one step, if it has one. *)
Definition step_error (step : jsval) : option exn :=
  if adaptor_without_expression step then
    Some (ValidationError
            ("Step with adaptor '" ++ display (str_prop step "adaptor")
             ++ "' must have an expression. Step id: '"
             ++ display (str_prop step "id") ++ "'."))
  else
    match find invalid_key (for_in_keys step) with
    | Some key =>
        Some (ValidationError
                ("Invalid key '" ++ key ++ "' found in step with id '"
                 ++ display (str_prop step "id") ++ "'."))
    | None => None
    end.

Fixpoint first_step_error (steps : list jsval) : option exn :=
  match steps with
  | [] => None
  | step :: r =>
      match step_error step with
      | Some e => Some e
      | None => first_step_error r
      end
  end.

End Stages.

(** Plans used as concrete inputs. *)
Module Examples.
Import JS.

(** The [job(id, next)] helper of the validator's tests. *)
Definition job (id : string) (next : jsval) : jsval :=
  JObj [("id", JStr id); ("next", next); ("expression", JStr ".")].

Definition to (targets : list string) : jsval :=
  JObj (map (fun k => (k, JBool true)) targets).

Definition plan (options : jsobj jsval) (steps : list jsval) : jsval :=
  JObj [("options", JObj options); ("workflow", JObj [("steps", JArr steps)])].

(** a -> b -> c -> b: the cycle does not pass through [a]. *)
Definition plan_cycle_off_origin : jsval :=
  plan [] [job "a" (to ["b"]); job "b" (to ["c"]); job "c" (to ["b"])].

(** The model [buildModel] returns for it. *)
Definition model_cycle_off_origin : ValidatePlan.Model :=
  [ ("a", ValidatePlan.mkNode [] [("b", true)]);
    ("b", ValidatePlan.mkNode [("a", true); ("c", true)] [("c", true)]);
    ("c", ValidatePlan.mkNode [("b", true)] [("b", true)]) ].

(** a <-> b, and a start id that no step declares. *)
Definition plan_cycle_bad_start : jsval :=
  plan [("start", JStr "z")] [job "a" (to ["b"]); job "b" (to ["a"])].

(** a <-> b, the plan of the test "throws for a circular dependency". *)
Definition plan_two_cycle : jsval :=
  plan [] [job "a" (to ["b"]); job "b" (to ["a"])].

Definition model_two_cycle : ValidatePlan.Model :=
  [ ("a", ValidatePlan.mkNode [("b", true)] [("b", true)]);
    ("b", ValidatePlan.mkNode [("a", true)] [("a", true)]) ].

(** a <-> b, with c -> a: [a] has the two upstream neighbours b and c. *)
Definition plan_fan_in_on_cycle : jsval :=
  plan [] [job "a" (to ["b"]); job "b" (to ["a"]); job "c" (to ["a"])].

Definition model_fan_in_on_cycle : ValidatePlan.Model :=
  [ ("a", ValidatePlan.mkNode [("b", true); ("c", true)] [("b", true)]);
    ("b", ValidatePlan.mkNode [("a", true)] [("a", true)]);
    ("c", ValidatePlan.mkNode [] [("a", true)]) ].

(** a -> {b, c}, b -> z, c -> z: the plan of the test "throws for a multiple
    inputs". *)
Definition plan_fan_in : jsval :=
  plan [] [job "a" (to ["b"; "c"]); job "b" (to ["z"]); job "c" (to ["z"]);
           job "z" JUndefined].

Definition model_fan_in : ValidatePlan.Model :=
  [ ("a", ValidatePlan.mkNode [] [("b", true); ("c", true)]);
    ("b", ValidatePlan.mkNode [("a", true)] [("z", true)]);
    ("c", ValidatePlan.mkNode [("a", true)] [("z", true)]);
    ("z", ValidatePlan.mkNode [("b", true); ("c", true)] []) ].

(** A string-form [next] to an id that no step declares, and a start id
    that no step declares either. *)
Definition plan_unknown_next_bad_start : jsval :=
  plan [("start", JStr "z")]
       [JObj [("id", JStr "a"); ("next", JStr "q"); ("expression", JStr ".")]].

(** The plan of the test "throws for a an unknown job with shorthand syntax". *)
Definition plan_unknown_next : jsval :=
  plan [] [JObj [("next", JStr "z"); ("expression", JStr ".")]].

(** A string-form [next] that names a method every object inherits. *)
Definition plan_next_toString : jsval :=
  plan [] [JObj [("next", JStr "toString"); ("expression", JStr ".")]].

(** One step that has an adaptor, no expression, and a key outside the
    recognised set. *)
Definition plan_adaptor_and_bad_key : jsval :=
  plan [] [JObj [("id", JStr "b"); ("foo", JStr "x"); ("adaptor", JStr "abc")]].

(** The plan of the test "throws error for step schema with invalid data":
    a name and an adaptor of two characters, an expression that is a number,
    and an edge value that is neither [true] nor a condition. *)
Definition plan_invalid_step : jsval :=
  plan [] [JObj [("id", JStr "step1"); ("name", JStr "St");
                 ("next", JObj [("step2", JStr "invalid")]);
                 ("adaptor", JStr "Ad"); ("expression", JNum 123%float)]].

(** Two steps that declare no id. *)
Definition plan_two_anonymous : jsval :=
  plan [] [JObj [("expression", JStr ".")]; JObj [("expression", JStr ".")]].

End Examples.

(** The vocabulary of the statements about what [validate] accepts. *)
Module Acceptance.
Import JS Zod Outcome ValidatePlan Graph Stages.

(** The value of [step.id] of every step, in plan order; [None] is
    [undefined]. *)
Definition ids_of (steps : list jsval) : list (option string) :=
  map (fun step => str_prop step "id") steps.

Definition duplicate_message (id : option string) : string :=
  ("Duplicate step ID detected: " ++ display id)%string.

(** [options.start], when it is a string, is the id of a step. *)
Definition start_found (plan : jsval) : Prop :=
  forall start, str_prop (options_of plan) "start" = Some start ->
                exists step, In step (steps_of plan) /\ str_prop step "id" = Some start.

Definition start_message (start : string) : string :=
  ("Could not find start job: " ++ start)%string.

(** No id of the model is on a cycle of [down] edges. *)
Definition acyclic (model : Model) : Prop :=
  forall x, ~ cyclic model x.

Definition empty_steps_warning : string :=
  "[Validation Warning]: The steps array is empty. There are no jobs to execute.".

End Acceptance.

(** The vocabulary of the statements about what [buildModel] returns. *)
Module ModelShape.
Import JS Zod Outcome ValidatePlan Graph Stages.

(** The keys of a mapping-form [next]; a string-form [next] has none. *)
Definition mapping_targets (job : jsval) : list string :=
  match get job "next" with
  | JStr _ => []
  | next => for_in_keys next
  end.

(** Some step with the non-empty id [a] names [b] in a mapping-form [next]. *)
Definition declares_edge (steps : list jsval) (a b : string) : Prop :=
  exists job, In job steps /\ str_prop job "id" = Some a /\ a <> "" /\
              In b (mapping_targets job).

(** No step is named [__proto__]. *)
Definition no_proto_id (steps : list jsval) : Prop :=
  forall step, In step steps -> str_prop step "id" <> Some "__proto__".

End ModelShape.

(** More concrete inputs. *)
Module Inputs.
Import JS Examples.

(** a -> b -> c and the lone step d: the plan of the test "warns for
    unreferenced steps". *)
Definition plan_chain : jsval :=
  plan [] [job "a" (to ["b"]); job "b" (to ["c"]); job "c" JUndefined;
           job "d" JUndefined].

Definition model_chain : ValidatePlan.Model :=
  [ ("a", ValidatePlan.mkNode [] [("b", true)]);
    ("b", ValidatePlan.mkNode [("a", true)] [("c", true)]);
    ("c", ValidatePlan.mkNode [("b", true)] []);
    ("d", ValidatePlan.mkNode [] []) ].

(** No steps, and an option that is not recognised: the plan of the test
    "warns for unrecognized options". *)
Definition plan_empty : jsval :=
  plan [("unrecognizedOption", JStr "value")] [].

(** A plan object without [options]. *)
Definition plan_without_options : jsval :=
  JObj [("workflow", JObj [("steps", JArr [job "a" JUndefined])])].

End Inputs.

(** The vocabulary of the statements about the closing warnings. *)

Module Warnings.
Import JS Outcome ValidatePlan Graph.

(** [id] has no edge in and no edge out. *)
Definition isolated (model : Model) (id : string) : bool :=
  match children model id, parents model id with
  | [], [] => true
  | _, _ => false
  end.

Definition unreferenced_message (id : string) : string :=
  ("[Validation Warning]: Unreferenced step detected: " ++ id)%string.

End Warnings.

(* ================================================================== *)
(** ** Adaptor specifiers (packages/engine-multi/src/api/compile.ts) *)
(* ================================================================== *)

Module EngineCompile.

(** [s.lastIndexOf(c)] for the part [s] of a string that starts at index
    [i]: the index of the last [c], or [-1]. *)
Fixpoint lastIndexOf_from (i : Z) (s : string) (c : ascii) : Z :=
  match s with
  | EmptyString => (-1)%Z
  | String a r =>
      let later := lastIndexOf_from (i + 1) r c in
      if (0 <=? later)%Z then later
      else if Ascii.eqb a c then i else (-1)%Z
  end.

Definition lastIndexOf (s : string) (c : ascii) : Z := lastIndexOf_from 0 s c.

Definition stripVersionSpecifier (specifier : string) : string :=
  let idx := lastIndexOf specifier "@" in
  if (0 <? idx)%Z then String.substring 0 (Z.to_nat idx) specifier
  else specifier.

(** [c] occurs in [s]. *)
Fixpoint occurs (c : ascii) (s : string) : bool :=
  match s with
  | EmptyString => false
  | String a r => Ascii.eqb a c || occurs c r
  end.

(** [s] without its first character. *)
Definition rest (s : string) : string :=
  match s with
  | EmptyString => EmptyString
  | String _ r => r
  end.

End EngineCompile.

(* ================================================================== *)
(** ** Attempts to plans (packages/rtm-server/src/util/convert-attempt.ts) *)
(* ================================================================== *)

Module ConvertAttempt.
Import JS.

(** The fields of an attempt that the conversion reads, with the types its
    uses of them fix: an id, a body, an adaptor and a condition are strings
    or undefined, a credential is passed on as it is. *)
Record Trigger : Type := mkTrigger {
  trigger_id : option string
}.

Record Job : Type := mkJob {
  job_id : option string;
  credential : jsval;
  body : option string;
  adaptor : option string
}.

Record Edge : Type := mkEdge {
  source_trigger_id : option string;
  source_job_id : option string;
  target_job_id : string;
  condition : option string
}.

Record Attempt : Type := mkAttempt {
  attempt_id : string;
  triggers : option (list Trigger);
  jobs : option (list Job);
  edges : option (list Edge)
}.

Record ExecutionPlan : Type := mkPlan {
  plan_id : string;
  plan : list jsval
}.

Definition of_string (x : option string) : jsval :=
  match x with Some s => JStr s | None => JUndefined end.

(** [x || 'trigger'] *)
Definition or_trigger (x : option string) : string :=
  match x with
  | Some s => if s =? "" then "trigger" else s
  | None => "trigger"
  end.

(** [x === id] for a string [id] *)
Definition is_id (x : option string) (id : string) : bool :=
  match x with Some s => s =? id | None => false end.

(** [o[k] = v] on an object created with [{}]: [__proto__] is the inherited
    setter, which adds no own property; every other name becomes, or
    stays, an own property. *)
Definition assign {V : Type} (k : string) (v : V) (o : jsobj V) : jsobj V :=
  if k =? "__proto__" then o else obj_set k v o.

(** [nodes[id].next = next], after [nodes[id] = {...}]: the node under an
    own key is updated in place; under [__proto__] the node is the
    prototype, and no own property changes. *)
Definition set_next (id : string) (next : jsval) (nodes : jsobj jsval) : jsobj jsval :=
  match obj_get nodes id with
  | Some (JObj node) => obj_set id (JObj (obj_set "next" next node)) nodes
  | _ => nodes
  end.

(** [Object.values(o)] *)
Definition obj_values {V : Type} (o : jsobj V) : list V :=
  flat_map (fun k => match obj_get o k with Some v => [v] | None => [] end)
           (obj_keys o).

Definition trigger_next (obj : jsobj jsval) (edge : Edge) : jsobj jsval :=
  assign (target_job_id edge) (JBool true) obj.

Definition convert_trigger (edges : list Edge) (nodes : jsobj jsval)
           (trigger : Trigger) : jsobj jsval :=
  let id := or_trigger (trigger_id trigger) in
  let nodes := assign id (JObj [("id", JStr id)]) nodes in
  let connectedEdges := filter (fun e => is_id (source_trigger_id e) id) edges in
  match connectedEdges with
  | [] => nodes
  | _ :: _ => set_next id (JObj (fold_left trigger_next connectedEdges [])) nodes
  end.

Definition edge_value (edge : Edge) : jsval :=
  if truthy_str (condition edge)
  then JObj [("expression", of_string (condition edge))]
  else JBool true.

Definition job_next (obj : jsobj jsval) (edge : Edge) : jsobj jsval :=
  assign (target_job_id edge) (edge_value edge) obj.

Definition convert_job (edges : list Edge) (nodes : jsobj jsval)
           (job : Job) : jsobj jsval :=
  let id := or_trigger (job_id job) in
  let nodes := assign id (JObj [("id", JStr id);
                                ("configuration", credential job);
                                ("expression", of_string (body job));
                                ("adaptor", of_string (adaptor job))]) nodes in
  let next := fold_left job_next
                        (filter (fun e => is_id (source_job_id e) id) edges) [] in
  match obj_keys next with
  | [] => nodes
  | _ :: _ => set_next id (JObj next) nodes
  end.

(** The [nodes] object when the two loops are done. *)
Definition convert_nodes (attempt : Attempt) : jsobj jsval :=
  let edges := match edges attempt with Some e => e | None => [] end in
  let nodes := [] in
  let nodes := match triggers attempt with
               | Some (t :: ts) => fold_left (convert_trigger edges) (t :: ts) nodes
               | _ => nodes
               end in
  match jobs attempt with
  | Some (j :: js) => fold_left (convert_job edges) (j :: js) nodes
  | _ => nodes
  end.

(** The default export. *)
Definition convert_attempt (attempt : Attempt) : ExecutionPlan :=
  mkPlan (attempt_id attempt) (obj_values (convert_nodes attempt)).

End ConvertAttempt.

(** The vocabulary of the statements about the conversion. *)

Module Conversion.
Import JS ConvertAttempt.

Definition list_of {A : Type} (l : option (list A)) : list A :=
  match l with Some l => l | None => [] end.

(** The ids under which the triggers and the jobs are filed. *)
Definition trigger_ids (attempt : Attempt) : list string :=
  map (fun t => or_trigger (trigger_id t)) (list_of (triggers attempt)).

Definition job_ids (attempt : Attempt) : list string :=
  map (fun j => or_trigger (job_id j)) (list_of (jobs attempt)).

Definition node_ids (p : ExecutionPlan) : list (option string) :=
  map (fun n => str_prop n "id") (plan p).

(** [edge] leaves the job filed under [x] for a target that can be a key. *)
Definition leaves_job (x : string) (edge : Edge) : Prop :=
  source_job_id edge = Some x /\ target_job_id edge <> "__proto__".

Definition leaves_trigger (x : string) (edge : Edge) : Prop :=
  source_trigger_id edge = Some x /\ target_job_id edge <> "__proto__".

(** Storing each item of [l] under its key, in order. *)
Definition assign_all {A V : Type} (key : A -> string) (val : A -> V)
           (l : list A) (o : jsobj V) : jsobj V :=
  fold_left (fun o i => assign (key i) (val i) o) l o.

(** The node a trigger, or a job, leaves in [nodes]. *)
Definition trigger_node (edges : list Edge) (trigger : Trigger) : jsval :=
  let id := or_trigger (trigger_id trigger) in
  match filter (fun e => is_id (source_trigger_id e) id) edges with
  | [] => JObj [("id", JStr id)]
  | ces => JObj [("id", JStr id); ("next", JObj (fold_left trigger_next ces []))]
  end.

Definition job_node (edges : list Edge) (job : Job) : jsval :=
  let id := or_trigger (job_id job) in
  let fields := [("id", JStr id);
                 ("configuration", credential job);
                 ("expression", of_string (body job));
                 ("adaptor", of_string (adaptor job))] in
  let next := fold_left job_next
                        (filter (fun e => is_id (source_job_id e) id) edges) [] in
  match obj_keys next with
  | [] => JObj fields
  | _ :: _ => JObj (fields ++ [("next", JObj next)])
  end.

End Conversion.

Module Attempts.
Import JS ConvertAttempt.

(** A trigger without an id, two jobs, a conditional edge from the trigger
    and two edges between the jobs, the later one unconditional. *)
Definition attempt_two_jobs : Attempt :=
  mkAttempt "attempt-1"
            (Some [mkTrigger None])
            (Some [mkJob (Some "a") (JStr "secret") (Some "fn(a)") (Some "common@1.0.0");
                   mkJob (Some "b") JUndefined (Some "fn(b)") None])
            (Some [mkEdge (Some "trigger") None "a" (Some "state.ok");
                   mkEdge None (Some "a") "b" (Some "!state.error");
                   mkEdge None (Some "a") "c" (Some "state.c")]).

(** A job without an id is filed under the id of the trigger. *)
Definition attempt_anonymous_job : Attempt :=
  mkAttempt "attempt-2"
            (Some [mkTrigger None])
            (Some [mkJob None JUndefined (Some "fn()") None])
            (Some [mkEdge (Some "trigger") None "a" None]).

End Attempts.

(* ================================================================== *)
(** ** The error taxonomy *)
(* ================================================================== *)

Section Taxonomy.
Import EngineErrors.

(** C9. Every failure kind carries its severity as a field of the error
    value, whatever the arguments the error is built from (messages,
    durations, exit codes, job ids): TimeoutError and OOMError are 'kill',
    ExitError and CompileError are 'crash', AutoinstallError and
    ExecutionError are 'exception'. *)
Theorem severity_is_fixed_per_kind :
  (forall durationInMs, severity (TimeoutError durationInMs) = "kill") /\
  severity OOMError = "kill" /\
  (forall code, severity (ExitError code) = "crash") /\
  (forall err jobId, severity (CompileError err jobId) = "crash") /\
  (forall specifier err, severity (AutoinstallError specifier err) = "exception") /\
  (forall original, severity (ExecutionError original) = "exception").
Proof.
  repeat split; intros; reflexivity.
Qed.

End Taxonomy.

(* ================================================================== *)
(** ** The lifecycle *)
(* ================================================================== *)

Section LifecycleProperties.
Import JS Lifecycle.

(** C8. Starting a context that has not been started sets status 'running',
    duration -1, the thread id of the start event and a start time; a
    complete event that arrives later, carrying a final state (for instance
    [{a: 777}]), sets status 'done', the result, a duration above zero, and
    emits workflow-complete with the workflow id, the state, the duration and
    the thread id of the complete event. *)
Theorem start_then_complete :
  forall (context : ExecutionContext) (t0 t1 : Z)
         (workflowId tid tid' : string) (final : jsval),
    status (state context) = pending ->
    startTime (state context) = None ->
    (t0 < t1)%Z ->
    let started := workflowStart t0 context (mkStartEvent workflowId tid) in
    let completed := workflowComplete t1 started (mkCompleteEvent workflowId tid' final) in
    status (state started) = running /\
    duration (state started) = Some (-1)%Z /\
    threadId (state started) = Some tid /\
    startTime (state started) = Some t0 /\
    status (state completed) = done /\
    result (state completed) = Some final /\
    (exists d, duration (state completed) = Some d /\ (0 < d)%Z /\
               events completed =
                 events started ++ [workflow_complete workflowId final (Some d) tid']).
Proof.
  intros context t0 t1 workflowId tid tid' final Hpending Hfresh Hlater started completed.
  subst started completed; cbn.
  do 6 (split; [reflexivity|]).
  exists (t1 - t0)%Z. split; [reflexivity|]. split; [lia | reflexivity].
Qed.

Lemma start_then_complete_witness :
  let context := mkContext (mkState "a" pending None None None None) [] in
  let final := JObj [("a", JNum 777%float)] in
  let completed :=
    workflowComplete 2000 (workflowStart 1000 context (mkStartEvent "a" "123"))
                     (mkCompleteEvent "a" "1" final) in
  status (state completed) = done /\ result (state completed) = Some final /\
  duration (state completed) = Some 1000%Z.
Proof.
  intros context final completed.
  destruct (start_then_complete context 1000 2000 "a" "123" "1" final
              eq_refl eq_refl eq_refl)
    as (_ & _ & _ & _ & Hdone & Hresult & _).
  split; [exact Hdone | split; [exact Hresult | reflexivity]].
Defined.

End LifecycleProperties.

(* ================================================================== *)
(** ** Facts about objects and key order *)
(* ================================================================== *)

Section ObjectFacts.
Import JS.
Context {V : Type}.
Implicit Types (o : jsobj V) (k : string) (v : V).

Lemma obj_get_set_same o k v : obj_get (obj_set k v o) k = Some v.
Proof.
  induction o as [|[k' v'] r IH]; cbn.
  - now rewrite String.eqb_refl.
  - destruct (k' =? k)%string eqn:E; cbn; rewrite E; auto.
Qed.

Lemma obj_get_set_other o k k' v :
  k <> k' -> obj_get (obj_set k v o) k' = obj_get o k'.
Proof.
  intros Hne. induction o as [|[k0 v0] r IH]; cbn.
  - destruct (k =? k')%string eqn:E; [apply String.eqb_eq in E; contradiction | reflexivity].
  - destruct (k0 =? k)%string eqn:E; cbn.
    + apply String.eqb_eq in E; subst k0.
      destruct (k =? k')%string eqn:E'; [apply String.eqb_eq in E'; contradiction | reflexivity].
    + now rewrite IH.
Qed.

Lemma obj_get_In o k v : obj_get o k = Some v -> In k (map fst o).
Proof.
  induction o as [|[k' v'] r IH]; cbn; [discriminate|].
  destruct (k' =? k)%string eqn:E.
  - apply String.eqb_eq in E; auto.
  - intros H; right; auto.
Qed.

Lemma obj_get_None o k : obj_get o k = None <-> ~ In k (map fst o).
Proof.
  induction o as [|[k' v'] r IH]; cbn; [tauto|].
  destruct (k' =? k)%string eqn:E.
  - apply String.eqb_eq in E; subst. split; [discriminate | tauto].
  - apply String.eqb_neq in E. rewrite IH. tauto.
Qed.

Lemma In_obj_get o k : In k (map fst o) -> exists v, obj_get o k = Some v.
Proof.
  intros Hin. destruct (obj_get o k) eqn:E; [eauto|].
  apply obj_get_None in E; contradiction.
Qed.

Lemma keys_obj_set o k v :
  map fst (obj_set k v o) =
  if obj_has o k then map fst o else map fst o ++ [k].
Proof.
  unfold obj_has. induction o as [|[k' v'] r IH]; cbn; [reflexivity|].
  destruct (k' =? k)%string eqn:E; cbn; [reflexivity|].
  rewrite IH. now destruct (obj_get r k).
Qed.

Lemma In_keys_obj_set o k v x :
  In x (map fst (obj_set k v o)) <-> x = k \/ In x (map fst o).
Proof.
  rewrite keys_obj_set. unfold obj_has.
  destruct (obj_get o k) eqn:E.
  - apply obj_get_In in E. split; [tauto | intros [->|]; auto].
  - rewrite in_app_iff; cbn. intuition auto.
Qed.


End ObjectFacts.

Section KeyOrderFacts.
Import JS.

Lemma insert_index_perm p l : Permutation (insert_index p l) (p :: l).
Proof.
  induction l as [|q r IH]; cbn; [reflexivity|].
  destruct (fst p <=? fst q)%N; [reflexivity|].
  rewrite IH. apply perm_swap.
Qed.

Lemma sort_index_perm l : Permutation (fold_right insert_index [] l) l.
Proof.
  induction l as [|p r IH]; cbn; [reflexivity|].
  rewrite insert_index_perm. now constructor.
Qed.

Lemma index_keys_filter ks :
  map snd (index_keys ks) =
  filter (fun k => match array_index k with Some _ => true | None => false end) ks.
Proof.
  unfold index_keys. induction ks as [|k r IH]; cbn; [reflexivity|].
  destruct (array_index k); cbn; now rewrite IH.
Qed.

Lemma filter_split_perm {A} (f g : A -> bool) (l : list A) :
  (forall x, g x = negb (f x)) ->
  Permutation (filter f l ++ filter g l) l.
Proof.
  intros Hfg. induction l as [|x r IH]; cbn; [reflexivity|].
  rewrite Hfg. destruct (f x); cbn.
  - now constructor.
  - rewrite <- Permutation_middle. now constructor.
Qed.

Lemma key_order_perm ks : Permutation (key_order ks) ks.
Proof.
  unfold key_order, named_keys.
  rewrite (Permutation_map snd (sort_index_perm (index_keys ks))).
  rewrite index_keys_filter.
  apply filter_split_perm. intros x. now destruct (array_index x).
Qed.

Lemma In_key_order ks k : In k (key_order ks) <-> In k ks.
Proof.
  split; apply Permutation_in; [|symmetry]; apply key_order_perm.
Qed.


Lemma In_obj_keys {V} (o : jsobj V) k : In k (obj_keys o) <-> In k (map fst o).
Proof. apply In_key_order. Qed.


End KeyOrderFacts.

(* ================================================================== *)
(** ** Facts about outcomes *)
(* ================================================================== *)

Section OutcomeFacts.
Import Outcome.

Lemma bind_normal {A B} w (a : A) (k : A -> M B) :
  bind (w, Normal a) k = (w ++ fst (k a), snd (k a)).
Proof. cbn. now destruct (k a). Qed.

Lemma bind_ret {A B} (a : A) (k : A -> M B) : bind (ret a) k = k a.
Proof. unfold ret; rewrite bind_normal; cbn. now destruct (k a). Qed.



Lemma forEach_cons {A} (f : A -> M unit) x r :
  forEach f (x :: r) = bind (f x) (fun _ => forEach f r).
Proof.
  unfold forEach; cbn [foldM].
  destruct (f x) as [w [[]|e]]; reflexivity.
Qed.



End OutcomeFacts.

(* ================================================================== *)
(** ** Unfolding the validator *)
(* ================================================================== *)

Section ValidateFacts.
Import JS Zod Outcome ValidatePlan Stages.

Lemma search_S stack model from targetId key :
  search (S stack) model from targetId key =
  match obj_get model from with
  | Some node => search_from stack model from targetId key (obj_keys (stream node key))
  | None => if is_object_prototype_key from then Normal tt else Throw TypeError
  end.
Proof.
  cbn [search]. destruct (obj_get model from) as [node|]; [|reflexivity].
  induction (obj_keys (stream node key)) as [|k r IH]; cbn [search_from]; [reflexivity|].
  destruct (k =? targetId)%string; [reflexivity|].
  destruct (search stack model k targetId key); [exact IH | reflexivity].
Qed.

Lemma validate_schema_ok stack plan :
  fst (parse executionPlanSchema [] plan) = Valid ->
  validate stack plan =
  bind (assertStart plan) (fun _ =>
  bind (buildModel plan) (fun model => after_model stack plan model)).
Proof.
  unfold validate, after_model.
  destruct (parse executionPlanSchema [] plan) as [st issues]; cbn [fst].
  now intros ->.
Qed.

Lemma validate_after_build stack plan w model :
  fst (parse executionPlanSchema [] plan) = Valid ->
  assertStart plan = ret tt ->
  buildModel plan = (w, Normal model) ->
  validate stack plan =
  (w ++ fst (after_model stack plan model), snd (after_model stack plan model)).
Proof.
  intros Hs Hstart Hbuild.
  rewrite (validate_schema_ok _ _ Hs), Hstart, bind_ret, Hbuild.
  apply bind_normal.
Qed.

End ValidateFacts.

(* ================================================================== *)
(** ** Termination of the cycle search *)
(* ================================================================== *)

Section Divergence.
Import JS Zod Outcome ValidatePlan Stages Examples.

Lemma build_cycle_off_origin :
  buildModel plan_cycle_off_origin = ([], Normal model_cycle_off_origin).
Proof. vm_compute. reflexivity. Qed.

Lemma search_off_origin_overflows stack :
  search stack model_cycle_off_origin "b" "a" Down = Throw RangeError /\
  search stack model_cycle_off_origin "c" "a" Down = Throw RangeError.
Proof.
  induction stack as [|n [IHb IHc]]; [split; reflexivity|].
  split; rewrite search_S; cbn [obj_get model_cycle_off_origin String.eqb Ascii.eqb Bool.eqb];
    cbn [stream down]; change (obj_keys [("c", true)]) with ["c"];
    change (obj_keys [("b", true)]) with ["b"]; cbn [search_from].
  - change ("c" =? "a")%string with false; cbv iota. now rewrite IHc.
  - change ("b" =? "a")%string with false; cbv iota. now rewrite IHb.
Qed.

(** C2. On the plan a -> b, b -> c, c -> b the search that starts at [a]
    never meets [a] again and follows b -> c -> b without end: whatever the
    size of the call stack, [validate] ends with the engine's RangeError,
    neither [true] nor a ValidationError. *)
Theorem validate_overflows_on_cycle_off_origin :
  forall stack, validate stack plan_cycle_off_origin = ([], Throw RangeError).
Proof.
  intros stack.
  rewrite (validate_after_build stack _ [] model_cycle_off_origin);
    [| vm_compute; reflexivity | vm_compute; reflexivity | exact build_cycle_off_origin].
  unfold after_model, assertNoCircularReferences.
  change (obj_keys model_cycle_off_origin) with ["a"; "b"; "c"].
  rewrite forEach_cons.
  assert (Ha : search stack model_cycle_off_origin "a" "a" Down = Throw RangeError).
  { destruct stack as [|n]; [reflexivity|].
    rewrite search_S. change (obj_get model_cycle_off_origin "a")
      with (Some (mkNode [] [("b", true)])).
    cbn [stream down]. change (obj_keys [("b", true)]) with ["b"].
    cbn [search_from]. change ("b" =? "a")%string with false. cbv iota.
    now rewrite (proj1 (search_off_origin_overflows n)). }
  rewrite Ha. reflexivity.
Qed.

(** C3. Two steps that omit [id] are rejected as duplicates of each other:
    the set of seen ids holds [undefined] after the first. *)
Theorem anonymous_steps_reported_as_duplicates :
  forall stack,
    snd (validate stack plan_two_anonymous) =
    Throw (ValidationError "Duplicate step ID detected: undefined").
Proof. intros stack. reflexivity. Qed.

End Divergence.

(* ================================================================== *)
(** ** The cycle search on an arbitrary model *)
(* ================================================================== *)

Section SearchFacts.
Import JS Zod Outcome ValidatePlan Stages Graph.

Variable model : Model.
Variable t : string.

Lemma search_S_children stack x :
  search (S stack) model x t Down =
  match obj_get model x with
  | Some _ => search_from stack model x t Down (children model x)
  | None => if is_object_prototype_key x then Normal tt else Throw TypeError
  end.
Proof.
  rewrite search_S. unfold children. now destruct (obj_get model x).
Qed.


(** A reported pair is an edge into the origin from an id the search reached. *)
Lemma search_sound stack :
  forall x msg,
    search stack model x t Down = Throw (ValidationError msg) ->
    exists a, msg = circular_message a t /\ reach model x a /\ edge model a t.
Proof.
  induction stack as [|n IH]; intros x msg; [discriminate|].
  rewrite search_S_children.
  destruct (obj_get model x) as [node|] eqn:Hx;
    [| destruct (is_object_prototype_key x); discriminate].
  assert (Hloop : forall ks, incl ks (children model x) ->
            search_from n model x t Down ks = Throw (ValidationError msg) ->
            exists a, msg = circular_message a t /\ reach model x a /\ edge model a t).
  { induction ks as [|k r IHr]; intros Hincl; cbn [search_from]; [discriminate|].
    assert (Hk : edge model x k) by (apply Hincl; now left).
    destruct (k =? t)%string eqn:Ekt.
    - apply String.eqb_eq in Ekt; subst k. intros [= <-].
      exists x. split; [reflexivity|]. split; [apply rt_refl | exact Hk].
    - destruct (search n model k t Down) as [[]|e] eqn:Es.
      + apply IHr. intros y Hy; apply Hincl; now right.
      + intros [= ->]. destruct (IH _ _ Es) as (a & -> & Hreach & Hedge).
        exists a. split; [reflexivity|]. split; [|exact Hedge].
        eapply rt_trans; [apply rt_step; exact Hk | exact Hreach]. }
  apply Hloop, incl_refl.
Qed.

(** A search that returns has seen every id reachable from [x], and none
    of them is the origin. *)
Lemma search_complete stack :
  forall x, search stack model x t Down = Normal tt ->
            forall y, clos_trans string (edge model) x y -> y <> t.
Proof.
  induction stack as [|n IH]; intros x; [discriminate|].
  rewrite search_S_children. intros Hs y Hxy.
  apply clos_trans_t1n in Hxy.
  assert (Hfirst : forall k, edge model x k ->
            k <> t /\ search n model k t Down = Normal tt).
  { unfold edge. destruct (obj_get model x) as [node|] eqn:Hx.
    - revert Hs. generalize (children model x) as ks.
      induction ks as [|k r IHr]; cbn [search_from]; intros Hs k' Hin; [destruct Hin|].
      destruct (k =? t)%string eqn:Ekt; [discriminate|].
      destruct (search n model k t Down) as [[]|e] eqn:Es; [|discriminate].
      destruct Hin as [<-|Hin]; [|now apply IHr].
      split; [now apply String.eqb_neq | exact Es].
    - intros k Hin. unfold children in Hin. rewrite Hx in Hin. destruct Hin. }
  destruct Hxy as [y Hedge | k y Hedge Hrest].
  - apply Hfirst, Hedge.
  - destruct (Hfirst _ Hedge) as [_ Hk].
    apply (IH _ Hk). now apply clos_t1n_trans.
Qed.

(** A search that ended within the stack ends the same way on a deeper one. *)
Lemma search_deeper stack :
  forall x c,
    search stack model x t Down = c -> c <> Throw RangeError ->
    search (S stack) model x t Down = c.
Proof.
  induction stack as [|n IH]; intros x c; [intros <- H; now contradiction H|].
  rewrite (search_S_children (S n)), search_S_children.
  destruct (obj_get model x) as [node|]; [|auto].
  generalize (children model x) as ks.
  induction ks as [|k r IHr]; cbn [search_from]; [auto|].
  destruct (k =? t)%string; [auto|].
  destruct (search n model k t Down) as [[]|e] eqn:Es.
  - rewrite (IH k _ Es); [exact IHr | discriminate].
  - intros <- Hne. rewrite (IH k _ Es); [reflexivity | exact Hne].
Qed.

End SearchFacts.

Section SearchTermination.
Import JS Zod Outcome ValidatePlan Stages Graph.

Variable model : Model.
Variable t : string.
Hypothesis Hclosed : closed model.

Lemma search_settles stack :
  forall x,
    (obj_get model x = None -> is_object_prototype_key x = true) ->
    (forall l, walk model t x l -> List.length l < stack) ->
    settled (search stack model x t Down).
Proof.
  induction stack as [|n IH]; intros x Hx Hwalks.
  - exfalso. specialize (Hwalks [] I). cbn in Hwalks. lia.
  - rewrite search_S_children.
    destruct (obj_get model x) as [node|] eqn:Ex.
    2:{ rewrite (Hx eq_refl). exact I. }
    assert (Hloop : forall ks, incl ks (children model x) ->
              settled (search_from n model x t Down ks)).
    { induction ks as [|k r IHr]; intros Hincl; cbn [search_from]; [exact I|].
      assert (Hk : edge model x k) by (apply Hincl; now left).
      destruct (k =? t)%string eqn:Ekt; [exact I|].
      apply String.eqb_neq in Ekt.
      assert (Hsk : settled (search n model k t Down)).
      { apply IH.
        - apply Hclosed with (a := x); exact Hk.
        - intros l Hl. specialize (Hwalks (k :: l)). cbn in Hwalks.
          assert (S (List.length l) < S n) by (apply Hwalks; auto). lia. }
      destruct (search n model k t Down) as [[]|e].
      - apply IHr. intros y Hy; apply Hincl; now right.
      - exact Hsk. }
    apply Hloop, incl_refl.
Qed.

Lemma walk_tail x l1 a rest :
  walk model t x (l1 ++ a :: rest) -> walk model t a rest.
Proof.
  revert x. induction l1 as [|y r IH]; intros x; cbn.
  - tauto.
  - intros (_ & _ & H). eapply IH, H.
Qed.

Lemma walk_reaches x l :
  walk model t x l ->
  forall y, In y l -> clos_trans string (edge_avoiding model t) x y.
Proof.
  revert x. induction l as [|y0 r IH]; intros x; cbn; [tauto|].
  intros (Hedge & Hne & Hrest) y [<-|Hin].
  - apply t_step. now split.
  - apply t_trans with y0; [apply t_step; now split | now apply IH].
Qed.

Lemma avoiding_reach x y :
  clos_trans string (edge_avoiding model t) x y -> reach model x y.
Proof.
  induction 1 as [x y [H _] | x y z _ IH1 _ IH2].
  - now apply rt_step.
  - eapply rt_trans; eauto.
Qed.

Lemma walk_inner_nodes x l :
  walk model t x l ->
  forall y, In y (removelast l) -> In y (map fst model).
Proof.
  revert x. induction l as [|y0 r IH]; intros x; [cbn; tauto|].
  intros (Hedge & Hne & Hrest) y Hin.
  destruct r as [|y1 r']; [destruct Hin|].
  change (removelast (y0 :: y1 :: r')) with (y0 :: removelast (y1 :: r')) in Hin.
  destruct Hin as [<-|Hin]; [|eapply IH; eauto].
  destruct Hrest as (Hedge1 & _). unfold edge, children in Hedge1.
  destruct (obj_get model y0) eqn:E; [|destruct Hedge1].
  eapply obj_get_In; eauto.
Qed.

Lemma walk_from_origin_short l :
  (forall v, reach model t v -> clos_trans string (edge_avoiding model t) v v -> False) ->
  walk model t t l -> List.length l <= S (List.length model).
Proof.
  intros Hthrough Hwalk.
  assert (Hnd : NoDup l).
  { assert (Hdec : ListDec.decidable_eq string).
    { intros a b. destruct (string_dec a b); [now left | now right]. }
    destruct (ListDec.NoDup_decidable Hdec l) as [H|H]; [exact H|].
    apply (ListDec.not_NoDup Hdec) in H.
    destruct H as (a & l1 & l2 & l3 & ->).
    exfalso. apply (Hthrough a).
    - apply avoiding_reach. eapply walk_reaches; [exact Hwalk|].
      rewrite in_app_iff; right; now left.
    - apply walk_tail in Hwalk.
      eapply walk_reaches; [exact Hwalk|].
      rewrite in_app_iff; right; now left. }
  destruct l as [|y0 r]; [cbn; lia|].
  assert (Hne : y0 :: r <> []) by discriminate.
  rewrite (app_removelast_last y0 Hne) in Hnd |- *.
  apply NoDup_app_remove_r in Hnd.
  rewrite length_app; cbn [List.length].
  assert (List.length (removelast (y0 :: r)) <= List.length (map fst model)).
  { apply NoDup_incl_length; [exact Hnd|].
    intros y Hy. eapply walk_inner_nodes; eauto. }
  rewrite length_map in H. lia.
Qed.

End SearchTermination.

(* ================================================================== *)
(** ** What buildModel records *)
(* ================================================================== *)

Section ModelFacts.
Import JS Zod Outcome ValidatePlan Stages Graph.

Lemma children_node_of model a :
  children model a = obj_keys (down (node_of model a)).
Proof. unfold children, node_of. now destruct (obj_get model a). Qed.

Lemma edge_iff model a b :
  edge model a b <-> In b (map fst (down (node_of model a))).
Proof. unfold edge. rewrite children_node_of. apply In_obj_keys. Qed.

Lemma parents_iff model x a :
  In a (parents model x) <-> In a (map fst (up (node_of model x))).
Proof. apply In_obj_keys. Qed.

Lemma obj_get_update a f model x :
  obj_get (update a f model) x =
  if (a =? x)%string then option_map f (obj_get model x) else obj_get model x.
Proof.
  unfold update. destruct (a =? x)%string eqn:E.
  - apply String.eqb_eq in E; subst x.
    destruct (obj_get model a) eqn:Ea; cbn; [apply obj_get_set_same | exact Ea].
  - apply String.eqb_neq in E.
    destruct (obj_get model a); [now apply obj_get_set_other | reflexivity].
Qed.

Lemma keys_update a f model : map fst (update a f model) = map fst model.
Proof.
  unfold update. destruct (obj_get model a) eqn:E; [|reflexivity].
  rewrite keys_obj_set. unfold obj_has. now rewrite E.
Qed.

Lemma node_of_update a f model x :
  node_of (update a f model) x =
  match obj_get model x with
  | Some n => if (a =? x)%string then f n else n
  | None => mkNode [] []
  end.
Proof.
  unfold node_of. rewrite obj_get_update.
  destruct (a =? x)%string, (obj_get model x); reflexivity.
Qed.

Lemma node_of_ensure model k x :
  node_of (fst (ensureModel model k)) x = node_of model x.
Proof.
  unfold ensureModel. destruct (obj_get model k) eqn:Ek; [reflexivity|].
  destruct (is_object_prototype_key k); [reflexivity|]. cbn [fst].
  unfold node_of. destruct (String.eqb_spec k x) as [->|Hne].
  - now rewrite obj_get_set_same, Ek.
  - now rewrite obj_get_set_other.
Qed.

Lemma keys_ensure model k x :
  In x (map fst (fst (ensureModel model k))) <->
  In x (map fst model) \/ (x = k /\ is_object_prototype_key k = false).
Proof.
  unfold ensureModel. destruct (obj_get model k) eqn:Ek; cbn [fst].
  - split; [tauto|]. intros [H|[-> _]]; [exact H | eapply obj_get_In; eauto].
  - destruct (is_object_prototype_key k); cbn [fst].
    + split; [tauto | intros [H|[_ H]]; [exact H | discriminate]].
    + rewrite In_keys_obj_set. intuition auto.
Qed.

Lemma ensure_ref model k model' r :
  ensureModel model k = (model', r) ->
  (r = Ref k /\ In k (map fst model')) \/
  (r = Foreign /\ model' = model /\ is_object_prototype_key k = true).
Proof.
  unfold ensureModel. destruct (obj_get model k) eqn:Ek.
  - intros [= <- <-]. left. split; [reflexivity | eapply obj_get_In; eauto].
  - destruct (is_object_prototype_key k); intros [= <- <-].
    + right; auto.
    + left. split; [reflexivity|]. apply In_keys_obj_set; now left.
Qed.

Lemma write_inv f model r w model' r' :
  write f model r = (w, Normal (model', r')) ->
  w = [] /\
  ((exists a, r = Ref a /\ r' = Ref a /\ model' = update a f model) \/
   (exists n, r = Local n /\ r' = Local (f n) /\ model' = model)).
Proof.
  unfold write, update. destruct r as [a|n|].
  - destruct (obj_get model a) eqn:Ea; intros [= <- <- <-]; (split; [reflexivity|]);
      left; exists a; rewrite ?Ea; auto.
  - intros [= <- <- <-]. split; [reflexivity|]. right; exists n; auto.
  - discriminate.
Qed.

Lemma In_assign_true_mono k (o : jsobj bool) x :
  In x (map fst o) -> In x (map fst (obj_assign_true k o)).
Proof.
  unfold obj_assign_true. destruct (k =? "__proto__")%string; [auto|].
  intros H. apply In_keys_obj_set; now right.
Qed.

Lemma In_assign_true_new k (o : jsobj bool) :
  is_object_prototype_key k = false -> In k (map fst (obj_assign_true k o)).
Proof.
  unfold obj_assign_true. destruct (String.eqb_spec k "__proto__") as [->|_].
  - discriminate.
  - intros _. apply In_keys_obj_set; now left.
Qed.

Lemma In_assign_true_inv k (o : jsobj bool) x :
  In x (map fst (obj_assign_true k o)) -> x = k \/ In x (map fst o).
Proof.
  unfold obj_assign_true. destruct (k =? "__proto__")%string; [auto|].
  apply In_keys_obj_set.
Qed.

End ModelFacts.

Section LinkFacts.
Import JS Zod Outcome ValidatePlan Stages Graph.

Lemma extends_refl model : extends model model.
Proof. intros x. repeat split; auto using incl_refl. Qed.

Lemma extends_trans m1 m2 m3 : extends m1 m2 -> extends m2 m3 -> extends m1 m3.
Proof.
  intros H12 H23 x. destruct (H12 x) as (K1 & U1 & D1), (H23 x) as (K2 & U2 & D2).
  repeat split; [auto | eapply incl_tran; eauto | eapply incl_tran; eauto].
Qed.

Lemma extends_ensure model k : extends model (fst (ensureModel model k)).
Proof.
  intros x. rewrite node_of_ensure. repeat split; auto using incl_refl.
  intros H. apply keys_ensure. now left.
Qed.

Lemma extends_update_down model a k : extends model (update a (add_down k) model).
Proof.
  intros x. rewrite keys_update, node_of_update. unfold node_of.
  destruct (obj_get model x) as [n|]; [|repeat split; auto using incl_refl].
  destruct (a =? x)%string; repeat split; auto using incl_refl.
  cbn. intros y. apply In_assign_true_mono.
Qed.

Lemma extends_update_up model a k : extends model (update a (add_up k) model).
Proof.
  intros x. rewrite keys_update, node_of_update. unfold node_of.
  destruct (obj_get model x) as [n|]; [|repeat split; auto using incl_refl].
  destruct (a =? x)%string; repeat split; auto using incl_refl.
  cbn. intros y. apply In_assign_true_mono.
Qed.

Lemma proper_ensure model k : proper model -> proper (fst (ensureModel model k)).
Proof.
  intros Hp x Hx. apply keys_ensure in Hx. destruct Hx as [Hx|[-> Hk]]; auto.
Qed.

Lemma proper_update model a f : proper model -> proper (update a f model).
Proof. intros Hp x. rewrite keys_update. apply Hp. Qed.

Lemma get_none_mono (model model' : Model) b :
  (In b (map fst model) -> In b (map fst model')) ->
  obj_get model' b = None -> obj_get model b = None.
Proof. rewrite !obj_get_None. tauto. Qed.

(** The model after [node.down[k] = true; ensureModel(k)]. *)
Lemma closed_down_then_ensure model m1 k :
  closed model ->
  (m1 = model \/ exists a, m1 = update a (add_down k) model) ->
  closed (fst (ensureModel m1 k)).
Proof.
  intros Hc Hm1 x b Hedge Hnone.
  apply edge_iff in Hedge. rewrite node_of_ensure in Hedge.
  assert (Hk : b = k -> is_object_prototype_key b = true).
  { intros ->. destruct (is_object_prototype_key k) eqn:E; [reflexivity|].
    exfalso. apply obj_get_None in Hnone. apply Hnone, keys_ensure. now right. }
  assert (Hnone1 : obj_get m1 b = None).
  { eapply get_none_mono; [|exact Hnone]. intros H. apply keys_ensure. now left. }
  destruct Hm1 as [->|[a ->]].
  - apply (Hc x b); [now apply edge_iff | exact Hnone1].
  - rewrite node_of_update in Hedge.
    assert (Hnone0 : obj_get model b = None).
    { eapply get_none_mono; [|exact Hnone1]. now rewrite keys_update. }
    destruct (obj_get model x) as [n|] eqn:Ex; [|destruct Hedge].
    assert (Hold : In b (map fst (down n)) -> is_object_prototype_key b = true).
    { intros H. apply (Hc x b); [|exact Hnone0].
      apply edge_iff. unfold node_of. now rewrite Ex. }
    destruct (a =? x)%string; [|auto].
    cbn in Hedge. apply In_assign_true_inv in Hedge. destruct Hedge; auto.
Qed.

Lemma closed_update_up model a k : closed model -> closed (update a (add_up k) model).
Proof.
  intros Hc x b Hedge Hnone.
  apply edge_iff in Hedge. rewrite node_of_update in Hedge.
  apply (Hc x b).
  - apply edge_iff. unfold node_of.
    destruct (obj_get model x) as [n|]; [|destruct Hedge].
    now destruct (a =? x)%string.
  - eapply get_none_mono; [|exact Hnone]. now rewrite keys_update.
Qed.

Lemma link_inv jobIdx job_id st k w st' :
  link jobIdx job_id st k = (w, Normal st') ->
  w = [] /\ jobIdx_has jobIdx k = true /\
  exists m1 r1 m2 nn,
    write (add_down k) (fst st) (snd st) = ([], Normal (m1, r1)) /\
    ensureModel m1 k = (m2, nn) /\
    ((truthy_str job_id = true /\
      exists m3 r3, write (add_up (display job_id)) m2 nn = ([], Normal (m3, r3)) /\
                    st' = (m3, r1)) \/
     (truthy_str job_id = false /\ st' = (m2, r1))).
Proof.
  unfold link, validateJob.
  destruct (jobIdx_has jobIdx k); [|discriminate].
  rewrite bind_ret.
  destruct (write (add_down k) (fst st) (snd st)) as [w1 [[m1 r1]|e]] eqn:Ew1;
    [|discriminate].
  destruct (write_inv _ _ _ _ _ _ Ew1) as [-> _].
  rewrite bind_normal. cbn [fst snd app].
  destruct (ensureModel m1 k) as [m2 nn] eqn:Ee.
  destruct (truthy_str job_id) eqn:Et.
  - destruct (write (add_up (display job_id)) m2 nn) as [w3 [[m3 r3]|e]] eqn:Ew3;
      [|discriminate].
    destruct (write_inv _ _ _ _ _ _ Ew3) as [-> _].
    rewrite bind_normal. cbn. intros [= <- <-].
    split; [reflexivity|]. split; [reflexivity|].
    exists m1, r1, m2, nn. repeat split; auto. left. split; [reflexivity|].
    exists m3, r3. auto.
  - cbn. intros [= <- <-].
    split; [reflexivity|]. split; [reflexivity|].
    exists m1, r1, m2, nn. repeat split; auto.
Qed.

End LinkFacts.

Section LinkInvariants.
Import JS Zod Outcome ValidatePlan Stages Graph.

Variable jobIdx : JobIdx.
Variable job_id : option string.

Lemma link_preserves st k w st' :
  link jobIdx job_id st k = (w, Normal st') ->
  (closed (fst st) -> closed (fst st')) /\
  (proper (fst st) -> proper (fst st')) /\
  extends (fst st) (fst st') /\
  (forall a, snd st = Ref a -> snd st' = Ref a) /\
  (forall n, snd st = Local n -> exists n', snd st' = Local n').
Proof.
  intros H. destruct (link_inv _ _ _ _ _ _ H)
    as (_ & _ & m1 & r1 & m2 & nn & Hw1 & He & Hrest).
  destruct st as [m r]; cbn [fst snd] in *.
  apply write_inv in Hw1. destruct Hw1 as [_ Hw1].
  assert (Hm2 : m2 = fst (ensureModel m1 k)) by now rewrite He.
  assert (Hm1 : m1 = m \/ exists a, m1 = update a (add_down k) m).
  { destruct Hw1 as [(a & _ & _ & ->)|(n & _ & _ & ->)]; eauto. }
  assert (Hr : (forall a, r = Ref a -> r1 = Ref a) /\
               (forall n, r = Local n -> exists n', r1 = Local n')).
  { destruct Hw1 as [(a & -> & -> & _)|(n & -> & -> & _)]; split; intros ? [=]; subst; eauto. }
  assert (C2 : closed m -> closed m2).
  { intros Hc. subst m2. now apply (closed_down_then_ensure m). }
  assert (P2 : proper m -> proper m2).
  { intros Hp. subst m2. apply proper_ensure.
    destruct Hm1 as [->|[a ->]]; [exact Hp | now apply proper_update]. }
  assert (E2 : extends m m2).
  { subst m2. eapply extends_trans; [|apply extends_ensure].
    destruct Hm1 as [->|[a ->]]; [apply extends_refl | apply extends_update_down]. }
  destruct Hr as [Hr1 Hr2].
  destruct Hrest as [(_ & m3 & r3 & Hw3 & ->)|(_ & ->)]; cbn [fst snd].
  - apply write_inv in Hw3. destruct Hw3 as [_ [(a & _ & _ & ->)|(n & _ & _ & ->)]].
    + split; [|split; [|split; [|split; assumption]]].
      * intros Hc. now apply closed_update_up, C2.
      * intros Hp. now apply proper_update, P2.
      * eapply extends_trans; [exact E2 | apply extends_update_up].
    + split; [|split; [|split; [|split]]]; assumption.
  - split; [|split; [|split; [|split]]]; assumption.
Qed.

(** With an id of its own, the step's edge is stored on both ends. *)
Lemma link_records a st k w st' :
  link jobIdx job_id st k = (w, Normal st') ->
  job_id = Some a -> truthy_str job_id = true ->
  snd st = Ref a -> In a (map fst (fst st)) -> proper (fst st) ->
  In a (parents (fst st') k) /\ edge (fst st') a k.
Proof.
  intros H -> Ht Hr Ha Hp. destruct (link_inv _ _ _ _ _ _ H)
    as (_ & _ & m1 & r1 & m2 & nn & Hw1 & He & Hrest).
  destruct st as [m r]; cbn [fst snd] in *. subst r.
  destruct Hrest as [(_ & m3 & r3 & Hw3 & ->)|(Hf & _)]; [|congruence].
  cbn [fst display] in *.
  apply write_inv in Hw1.
  destruct Hw1 as [_ [(a' & [= <-] & -> & ->)|(n & [=] & _)]].
  apply write_inv in Hw3.
  destruct Hw3 as [_ [(k' & -> & _ & ->)|(n & -> & _)]].
  2:{ destruct (ensure_ref _ _ _ _ He) as [[[=] _]|[[=] _]]. }
  destruct (ensure_ref _ _ _ _ He) as [[[= ->] Hk]|[[=] _]].
  assert (Hm2 : m2 = fst (ensureModel (update a (add_down k) m) k)) by now rewrite He.
  assert (Pa : is_object_prototype_key a = false) by now apply Hp.
  assert (Pk : is_object_prototype_key k = false).
  { assert (proper m2) by (subst m2; now apply proper_ensure, proper_update). auto. }
  destruct (In_obj_get _ _ Ha) as [na Hna].
  destruct (In_obj_get _ _ Hk) as [nk Hnk].
  assert (Hdown : In k (map fst (down (node_of m2 a)))).
  { subst m2. rewrite node_of_ensure, node_of_update, Hna, String.eqb_refl.
    cbn. now apply In_assign_true_new. }
  split.
  - apply parents_iff. rewrite node_of_update, Hnk, String.eqb_refl.
    cbn. now apply In_assign_true_new.
  - apply edge_iff. rewrite node_of_update.
    unfold node_of in Hdown. destruct (obj_get m2 a) as [n2|]; [|destruct Hdown].
    now destruct (k =? a)%string.
Qed.

(** Without an id, what the step writes lands on its own throw-away node. *)
Lemma link_local n st k w st' :
  link jobIdx job_id st k = (w, Normal st') ->
  truthy_str job_id = false -> snd st = Local n ->
  forall x, node_of (fst st') x = node_of (fst st) x.
Proof.
  intros H Hf Hr x. destruct (link_inv _ _ _ _ _ _ H)
    as (_ & _ & m1 & r1 & m2 & nn & Hw1 & He & Hrest).
  destruct st as [m r]; cbn [fst snd] in *. subst r.
  destruct Hrest as [(Ht & _)|(_ & ->)]; [congruence|]. cbn [fst].
  apply write_inv in Hw1.
  destruct Hw1 as [_ [(a' & [=] & _)|(n' & _ & _ & ->)]].
  replace m2 with (fst (ensureModel m k)) by now rewrite He.
  apply node_of_ensure.
Qed.

End LinkInvariants.

Section FoldFacts.
Import Outcome.

Lemma bind_normal_inv {A B} (m : M A) (k : A -> M B) w b :
  bind m k = (w, Normal b) ->
  exists w1 a w2, m = (w1, Normal a) /\ k a = (w2, Normal b) /\ w = w1 ++ w2.
Proof.
  destruct m as [w1 [a|e]]; cbn; [|discriminate].
  destruct (k a) as [w2 c] eqn:E. intros [= <- ->].
  exists w1, a, w2. auto.
Qed.

Lemma foldM_cons {S A} (f : S -> A -> M S) x r s :
  foldM f (x :: r) s = bind (f s x) (foldM f r).
Proof. reflexivity. Qed.

(** An invariant of the rounds of a loop holds when the loop is left. *)
Lemma foldM_invariant {S A} (f : S -> A -> M S) (P : S -> Prop) :
  (forall s x w s', f s x = (w, Normal s') -> P s -> P s') ->
  forall l s w s', foldM f l s = (w, Normal s') -> P s -> P s'.
Proof.
  intros Hstep. induction l as [|x r IH]; intros s w s'.
  - intros [= <- <-]. auto.
  - rewrite foldM_cons. intros H Hs.
    apply bind_normal_inv in H. destruct H as (w1 & s1 & w2 & H1 & H2 & _).
    eapply IH; eauto.
Qed.

(** What a round establishes for its element, and later rounds keep,
    holds for every element when the loop is left. *)
Lemma foldM_each {S A} (f : S -> A -> M S) (I : S -> Prop) (Q : A -> S -> Prop) :
  (forall s x w s', f s x = (w, Normal s') -> I s -> I s' /\ Q x s') ->
  (forall s x w s' y, f s x = (w, Normal s') -> I s -> Q y s -> Q y s') ->
  forall l s w s', foldM f l s = (w, Normal s') -> I s ->
                   forall x, In x l -> Q x s'.
Proof.
  intros Hstep Hkeep. induction l as [|x r IH]; intros s w s' H Hs y Hy; [destruct Hy|].
  rewrite foldM_cons in H.
  apply bind_normal_inv in H. destruct H as (w1 & s1 & w2 & H1 & H2 & _).
  destruct (Hstep _ _ _ _ H1 Hs) as [Hs1 Hq].
  destruct Hy as [<-|Hy].
  - clear IH. revert H2 Hs1 Hq. generalize s1 as u, w2 as v.
    induction r as [|z r' IHr]; intros u v H2 Hu Hq.
    + injection H2 as _ <-. exact Hq.
    + rewrite foldM_cons in H2.
      apply bind_normal_inv in H2. destruct H2 as (w3 & s3 & w4 & H3 & H4 & _).
      eapply IHr; [exact H4 | eapply Hstep; eauto | eapply Hkeep; eauto].
  - eapply IH; eauto.
Qed.

End FoldFacts.

Section VisitFacts.
Import JS Zod Outcome ValidatePlan Stages Graph.

Variable jobIdx : JobIdx.

Lemma extends_edge m m' a b : extends m m' -> edge m a b -> edge m' a b.
Proof. intros H. rewrite !edge_iff. apply (H a). Qed.

Lemma extends_parents m m' x a :
  extends m m' -> In a (parents m x) -> In a (parents m' x).
Proof. intros H. rewrite !parents_iff. apply (H x). Qed.

Lemma visit_inv model job w model' :
  visit jobIdx model job = (w, Normal model') ->
  (exists t, get job "next" = JStr t /\ jobIdx_has jobIdx t = true /\
             model' = fst (entry model job) /\ w = []) \/
  ((forall t, get job "next" <> JStr t) /\
   exists st', foldM (link jobIdx (str_prop job "id"))
                     (for_in_keys (get job "next")) (entry model job) = (w, Normal st') /\
               model' = fst st').
Proof.
  unfold visit. fold (entry model job).
  destruct (get job "next") eqn:En;
    try (intros H; right; split; [discriminate|];
         apply bind_normal_inv in H; destruct H as (w1 & st' & w2 & H1 & [= <- <-] & ->);
         exists st'; rewrite app_nil_r; auto).
  unfold validateJob. destruct (jobIdx_has jobIdx s) eqn:Eh; [|discriminate].
  rewrite bind_ret. intros [= <- <-]. left. exists s. auto.
Qed.

Lemma entry_facts model job :
  extends model (fst (entry model job)) /\
  (proper model -> proper (fst (entry model job))) /\
  (closed model -> closed (fst (entry model job))) /\
  (forall x, node_of (fst (entry model job)) x = node_of model x) /\
  ((truthy_str (str_prop job "id") = false /\ exists n, snd (entry model job) = Local n) \/
   (exists a, str_prop job "id" = Some a /\ truthy_str (str_prop job "id") = true /\
      (snd (entry model job) = Foreign \/
       (snd (entry model job) = Ref a /\ In a (map fst (fst (entry model job))))))).
Proof.
  unfold entry. destruct (truthy_str (str_prop job "id")) eqn:Et.
  - split; [apply extends_ensure|]. split; [apply proper_ensure|].
    split; [intros Hc; apply (closed_down_then_ensure model); auto|].
    split; [apply node_of_ensure|].
    right. destruct (str_prop job "id") as [a|]; [|discriminate].
    exists a. split; [reflexivity|]. split; [reflexivity|]. cbn [display].
    destruct (ensureModel model a) as [m r] eqn:Ee.
    destruct (ensure_ref _ _ _ _ Ee) as [[-> H]|[-> _]]; auto.
  - cbn [fst snd]. split; [apply extends_refl|].
    split; [auto | split; [auto | split; [reflexivity|]]].
    left. split; [reflexivity|]. eauto.
Qed.

Lemma links_preserve job_id ks st w st' :
  foldM (link jobIdx job_id) ks st = (w, Normal st') ->
  (closed (fst st) -> closed (fst st')) /\
  (proper (fst st) -> proper (fst st')) /\
  extends (fst st) (fst st').
Proof.
  revert st w. induction ks as [|k r IH]; intros st w.
  - intros [= <- <-]. auto using extends_refl.
  - rewrite foldM_cons. intros H.
    apply bind_normal_inv in H. destruct H as (w1 & s1 & w2 & H1 & H2 & _).
    destruct (link_preserves _ _ _ _ _ _ H1) as (C1 & P1 & E1 & _).
    destruct (IH _ _ H2) as (C2 & P2 & E2).
    split; [auto | split; [auto | eapply extends_trans; eauto]].
Qed.

Lemma visit_preserves model job w model' :
  visit jobIdx model job = (w, Normal model') ->
  (closed model -> closed model') /\
  (proper model -> proper model') /\
  extends model model'.
Proof.
  intros H. destruct (entry_facts model job) as (E0 & P0 & C0 & _ & _).
  destruct (visit_inv _ _ _ _ H) as [(t & _ & _ & -> & _)|(_ & st' & Hf & ->)].
  - auto.
  - destruct (links_preserve _ _ _ _ _ Hf) as (C1 & P1 & E1).
    split; [auto | split; [auto | eapply extends_trans; eauto]].
Qed.

(** A string-form [next] leaves every node as it was. *)
Lemma visit_string_next model job t :
  get job "next" = JStr t ->
  visit jobIdx model job =
    (if jobIdx_has jobIdx t then ret (fst (entry model job))
     else throw (ValidationError ("Cannot find job: " ++ t))) /\
  forall x, node_of (fst (entry model job)) x = node_of model x.
Proof.
  intros Hn. split; [|apply entry_facts].
  unfold visit. fold (entry model job). rewrite Hn. unfold validateJob.
  destruct (jobIdx_has jobIdx t); [now rewrite bind_ret | reflexivity].
Qed.

(** A mapping-form [next] of a step with an id stores each edge on both ends. *)
Lemma visit_records model job w model' a :
  visit jobIdx model job = (w, Normal model') ->
  proper model ->
  str_prop job "id" = Some a -> a <> "" ->
  (forall t, get job "next" <> JStr t) ->
  forall k, In k (for_in_keys (get job "next")) ->
            In a (parents model' k) /\ edge model' a k.
Proof.
  intros H Hp Hid Hne Hmap.
  destruct (entry_facts model job) as (_ & P0 & _ & _ & Hentry).
  destruct (visit_inv _ _ _ _ H) as [(t & Ht & _)|(_ & st' & Hf & ->)];
    [now apply Hmap in Ht|].
  destruct Hentry as [(Hfalse & _)|(a' & Ha' & Ht & Hsnd)].
  { rewrite Hid in Hfalse. cbn in Hfalse.
    apply String.eqb_neq in Hne. rewrite Hne in Hfalse. discriminate. }
  rewrite Hid in Ha'. injection Ha' as <-.
  intros k Hk.
  destruct Hsnd as [Hforeign|[Href Hin]].
  { exfalso. destruct (for_in_keys (get job "next")) as [|k0 r]; [destruct Hk|].
    rewrite foldM_cons in Hf. apply bind_normal_inv in Hf.
    destruct Hf as (w1 & s1 & w2 & H1 & _).
    destruct (link_inv _ _ _ _ _ _ H1) as (_ & _ & m1 & r1 & _ & _ & Hw & _).
    rewrite Hforeign in Hw. discriminate. }
  revert k Hk.
  apply (foldM_each (link jobIdx (str_prop job "id"))
           (fun st => proper (fst st) /\ snd st = Ref a /\ In a (map fst (fst st)))
           (fun k st => In a (parents (fst st) k) /\ edge (fst st) a k))
    with (s := entry model job) (w := w); auto.
  - intros s x w0 s' Hl (Ps & Rs & Is).
    destruct (link_preserves _ _ _ _ _ _ Hl) as (_ & P1 & E1 & R1 & _).
    split; [split; [auto | split; [auto | now apply (E1 a)]]|].
    eapply link_records; eauto.
  - intros s x w0 s' y Hl _ (Hq1 & Hq2).
    destruct (link_preserves _ _ _ _ _ _ Hl) as (_ & _ & E1 & _).
    split; [eapply extends_parents | eapply extends_edge]; eauto.
Qed.

(** A step without id leaves every node as it was. *)
Lemma visit_anonymous model job w model' :
  visit jobIdx model job = (w, Normal model') ->
  truthy_str (str_prop job "id") = false ->
  forall x, node_of model' x = node_of model x.
Proof.
  intros H Hf.
  destruct (entry_facts model job) as (_ & _ & _ & N0 & Hentry).
  destruct (visit_inv _ _ _ _ H) as [(t & _ & _ & -> & _)|(_ & st' & Hfold & ->)];
    [exact N0|].
  destruct Hentry as [(_ & n & Hn)|(a & _ & Ht & _)]; [|congruence].
  intros x. rewrite <- N0.
  revert Hfold Hn. generalize (entry model job) as st, w as v, n as n0.
  induction (for_in_keys (get job "next")) as [|k r IH]; intros st v n0.
  - intros [= <- <-]. reflexivity.
  - rewrite foldM_cons. intros Hb Hn.
    apply bind_normal_inv in Hb. destruct Hb as (w1 & s1 & w2 & H1 & H2 & _).
    destruct (link_preserves _ _ _ _ _ _ H1) as (_ & _ & _ & _ & L1).
    destruct (L1 _ Hn) as [n1 Hn1].
    rewrite (IH _ _ _ H2 Hn1). eapply link_local; eauto.
Qed.

End VisitFacts.

Section BuildFacts.
Import JS Zod Outcome ValidatePlan Stages Graph.

Lemma bind_assoc {A B C} (m : M A) (f : A -> M B) (g : B -> M C) :
  bind (bind m f) g = bind m (fun a => bind (f a) g).
Proof.
  destruct m as [w [a|e]]; cbn; [|reflexivity].
  destruct (f a) as [w1 [b|e1]]; cbn; [|reflexivity].
  destruct (g b) as [w2 c]. now rewrite app_assoc.
Qed.

Lemma foldM_app {S A} (f : S -> A -> M S) l1 l2 s :
  foldM f (l1 ++ l2) s = bind (foldM f l1 s) (foldM f l2).
Proof.
  revert s. induction l1 as [|x r IH]; intros s; cbn [app].
  - cbn [foldM]. now rewrite bind_ret.
  - rewrite !foldM_cons, bind_assoc.
    destruct (f s x) as [w [a|e]]; cbn [bind]; [|reflexivity].
    now rewrite IH.
Qed.

Lemma forEach_indexed_warns i l :
  snd (forEach_indexed warn_if_empty_step i l) = Normal tt.
Proof.
  revert i. induction l as [|x r IH]; intros i; [reflexivity|].
  cbn [forEach_indexed]. unfold warn_if_empty_step at 1.
  destruct (existsb _ requiredKeys).
  - rewrite bind_ret. apply IH.
  - unfold warn. rewrite bind_normal. cbn [snd]. apply IH.
Qed.

Lemma build_prelude_warns plan :
  build_prelude plan = (fst (build_prelude plan), Normal tt).
Proof.
  unfold build_prelude.
  destruct (Nat.eqb _ 0); unfold warn, ret; rewrite bind_normal; cbn [fst snd];
    rewrite forEach_indexed_warns; reflexivity.
Qed.

Lemma buildModel_split plan :
  buildModel plan =
  (fst (build_prelude plan) ++ fst (build_loop plan (steps_of plan) []),
   snd (build_loop plan (steps_of plan) [])).
Proof.
  transitivity (bind (build_prelude plan) (fun _ => build_loop plan (steps_of plan) [])).
  - unfold buildModel, build_prelude, build_loop. now rewrite bind_assoc.
  - rewrite build_prelude_warns at 1.
    apply (bind_normal _ tt (fun _ => build_loop plan (steps_of plan) [])).
Qed.

Lemma buildModel_loop plan w model :
  buildModel plan = (w, Normal model) ->
  exists w1, build_loop plan (steps_of plan) [] = (w1, Normal model).
Proof.
  rewrite buildModel_split. intros [= _ H].
  exists (fst (build_loop plan (steps_of plan) [])).
  rewrite <- H. now destruct (build_loop plan (steps_of plan) []).
Qed.

Lemma closed_nil : closed [].
Proof. intros a b H. destruct H. Qed.

Lemma proper_nil : proper [].
Proof. intros k H. destruct H. Qed.

Lemma buildModel_closed plan w model :
  buildModel plan = (w, Normal model) -> closed model /\ proper model.
Proof.
  intros H. apply buildModel_loop in H. destruct H as [w1 H].
  apply (foldM_invariant _ (fun m => closed m /\ proper m)) in H;
    [exact H | | split; [apply closed_nil | apply proper_nil]].
  intros s x w0 s' Hv [Hc Hp].
  destruct (visit_preserves _ _ _ _ _ Hv) as (C & P & _). auto.
Qed.

(** Every edge a step with an id declares in a mapping is in the model that
    [buildModel] returns, on both ends. *)
Lemma buildModel_records plan w model :
  buildModel plan = (w, Normal model) ->
  forall job a k,
    In job (steps_of plan) ->
    str_prop job "id" = Some a -> a <> "" ->
    (forall t, get job "next" <> JStr t) ->
    In k (for_in_keys (get job "next")) ->
    In a (parents model k) /\ edge model a k.
Proof.
  intros H job a k Hjob Hid Hne Hmap Hk.
  apply buildModel_loop in H. destruct H as [w1 H].
  revert a k Hid Hne Hmap Hk.
  apply (foldM_each (visit (jobIdx_of (steps_of plan))) proper
           (fun job m => forall a k,
                str_prop job "id" = Some a -> a <> "" ->
                (forall t, get job "next" <> JStr t) ->
                In k (for_in_keys (get job "next")) ->
                In a (parents m k) /\ edge m a k))
    with (l := steps_of plan) (s := []) (w := w1); auto using proper_nil.
  - intros s x w0 s' Hv Hp. split; [now apply (visit_preserves _ _ _ _ _ Hv)|].
    intros a k Hid Hne Hmap Hk. eapply visit_records; eauto.
  - intros s x w0 s' y Hv _ Hq a k Hid Hne Hmap Hk.
    destruct (visit_preserves _ _ _ _ _ Hv) as (_ & _ & E).
    destruct (Hq a k Hid Hne Hmap Hk).
    split; [eapply extends_parents | eapply extends_edge]; eauto.
Qed.

Lemma link_mirrored jobIdx job_id st k w st' :
  link jobIdx job_id st k = (w, Normal st') ->
  mirrored (fst st) -> proper (fst st) ->
  (forall a, snd st = Ref a ->
             job_id = Some a /\ truthy_str job_id = true /\ In a (map fst (fst st))) ->
  mirrored (fst st').
Proof.
  intros H Hm Hp Href.
  destruct (link_preserves _ _ _ _ _ _ H) as (_ & _ & Hext & _ & _).
  assert (Hold : forall x b, edge (fst st) x b -> In x (parents (fst st') b)).
  { intros x b He. eapply extends_parents; eauto. }
  destruct (snd st) as [a|n|] eqn:Hr.
  - destruct (Href a eq_refl) as (Hid & Ht & Ha).
    destruct (link_records _ _ _ _ _ _ _ H Hid Ht Hr Ha Hp) as [Hpar _].
    assert (Hnew : forall x b, edge (fst st') x b ->
                               edge (fst st) x b \/ (x = a /\ b = k)).
    { destruct (link_inv _ _ _ _ _ _ H)
        as (_ & _ & m1 & r1 & m2 & nn & Hw1 & He & Hrest).
      rewrite Hr in Hw1. apply write_inv in Hw1.
      destruct Hw1 as [_ [(a' & [= <-] & _ & ->)|(n & [=] & _)]].
      assert (Hm2 : m2 = fst (ensureModel (update a (add_down k) (fst st)) k))
        by now rewrite He.
      assert (Hdown : forall x b, In b (map fst (down (node_of m2 x))) ->
                                  edge (fst st) x b \/ (x = a /\ b = k)).
      { intros x b. subst m2. rewrite node_of_ensure, node_of_update, edge_iff.
        unfold node_of. destruct (obj_get (fst st) x) as [nx|]; [|cbn; tauto].
        destruct (String.eqb_spec a x) as [<-|_]; [|auto].
        cbn. intros Hin. apply In_assign_true_inv in Hin. destruct Hin; auto. }
      intros x b Hedge. apply Hdown. apply edge_iff in Hedge.
      destruct Hrest as [(_ & m3 & r3 & Hw3 & ->)|(_ & ->)]; cbn [fst] in *; [|exact Hedge].
      apply write_inv in Hw3.
      destruct Hw3 as [_ [(k' & _ & _ & ->)|(n & _ & _ & ->)]]; [|exact Hedge].
      rewrite node_of_update in Hedge. unfold node_of.
      destruct (obj_get m2 x) as [nx|]; [|destruct Hedge].
      now destruct (k' =? x)%string. }
    intros x b Hedge. destruct (Hnew _ _ Hedge) as [He|[-> ->]]; auto.
  - assert (Hsame : forall x b, edge (fst st') x b -> edge (fst st) x b).
    { destruct (link_inv _ _ _ _ _ _ H)
        as (_ & _ & m1 & r1 & m2 & nn & Hw1 & He & Hrest).
      rewrite Hr in Hw1. apply write_inv in Hw1.
      destruct Hw1 as [_ [(a' & [=] & _)|(n' & _ & _ & ->)]].
      assert (Hm2 : m2 = fst (ensureModel (fst st) k)) by now rewrite He.
      intros x b Hedge. apply edge_iff in Hedge. apply edge_iff.
      destruct Hrest as [(_ & m3 & r3 & Hw3 & ->)|(_ & ->)]; cbn [fst] in *.
      - apply write_inv in Hw3.
        destruct Hw3 as [_ [(k' & _ & _ & ->)|(n1 & _ & _ & ->)]].
        + rewrite node_of_update in Hedge.
          rewrite <- (node_of_ensure (fst st) k x), <- Hm2. unfold node_of.
          destruct (obj_get m2 x) as [nx|]; [|destruct Hedge].
          now destruct (k' =? x)%string.
        + now rewrite Hm2, node_of_ensure in Hedge.
      - now rewrite Hm2, node_of_ensure in Hedge. }
    intros x b Hedge. auto.
  - exfalso. destruct (link_inv _ _ _ _ _ _ H) as (_ & _ & m1 & r1 & _ & _ & Hw1 & _).
    rewrite Hr in Hw1. discriminate.
Qed.

Lemma visit_mirrored jobIdx model job w model' :
  visit jobIdx model job = (w, Normal model') ->
  mirrored model -> proper model -> mirrored model'.
Proof.
  intros H Hm Hp.
  destruct (entry_facts model job) as (_ & P0 & _ & N0 & Hentry).
  assert (M0 : mirrored (fst (entry model job))).
  { intros a b. unfold parents. rewrite edge_iff, !N0, <- edge_iff. apply Hm. }
  destruct (visit_inv _ _ _ _ _ H) as [(t & _ & _ & -> & _)|(_ & st' & Hf & ->)];
    [exact M0|].
  apply (foldM_invariant (link jobIdx (str_prop job "id"))
           (fun st => mirrored (fst st) /\ proper (fst st) /\
                      forall a, snd st = Ref a ->
                                str_prop job "id" = Some a /\
                                truthy_str (str_prop job "id") = true /\
                                In a (map fst (fst st)))) in Hf.
  - apply Hf.
  - intros s k w0 s' Hl (Ms & Ps & Rs).
    destruct (link_preserves _ _ _ _ _ _ Hl) as (_ & P1 & E1 & R1 & L1).
    split; [eapply link_mirrored; eauto|]. split; [auto|].
    intros a Ha. destruct (snd s) as [a0|n|] eqn:Hs.
    + rewrite (R1 a0 eq_refl) in Ha. injection Ha as <-.
      destruct (Rs a0 eq_refl) as (? & ? & ?).
      split; [assumption|]. split; [assumption|]. now apply (E1 a0).
    + destruct (L1 n eq_refl) as [n' Hn']. congruence.
    + exfalso. destruct (link_inv _ _ _ _ _ _ Hl) as (_ & _ & m1 & r1 & _ & _ & Hw1 & _).
      rewrite Hs in Hw1. discriminate.
  - split; [exact M0|]. split; [auto|].
    intros a Ha.
    destruct Hentry as [(_ & n & Hn)|(a' & Hid & Ht & [Hfor|[Href Hin]])];
      try congruence.
    rewrite Href in Ha. injection Ha as <-. auto.
Qed.

Lemma buildModel_mirrored plan w model :
  buildModel plan = (w, Normal model) -> mirrored model.
Proof.
  intros H. apply buildModel_loop in H. destruct H as [w1 H].
  apply (foldM_invariant _ (fun m => mirrored m /\ proper m)) in H.
  - apply H.
  - intros s x w0 s' Hv [Hm Hp]. split.
    + eapply visit_mirrored; eauto.
    + now apply (visit_preserves _ _ _ _ _ Hv).
  - split; [intros a b []| apply proper_nil].
Qed.

End BuildFacts.

(* ================================================================== *)
(** ** Cycle freedom *)
(* ================================================================== *)

Section CycleCheck.
Import JS Zod Outcome ValidatePlan Stages Graph Examples.

Lemma forEach_lift_cases {A} (c : A -> completion unit) l :
  (forEach (fun x => lift (c x)) l = ret tt /\ forall x, In x l -> c x = Normal tt) \/
  (exists pre x post e,
      l = pre ++ x :: post /\ (forall y, In y pre -> c y = Normal tt) /\
      c x = Throw e /\ forEach (fun x => lift (c x)) l = ([], Throw e)).
Proof.
  induction l as [|x r IH].
  - left. split; [reflexivity | intros x []].
  - rewrite forEach_cons. destruct (c x) as [[]|e] eqn:Ex.
    + change (lift (Normal tt)) with (@ret unit tt). rewrite bind_ret.
      destruct IH as [[H1 H2]|(pre & y & post & e & -> & Hpre & Hy & Hall)].
      * left. split; [exact H1|]. intros z [<-|Hz]; auto.
      * right. exists (x :: pre), y, post, e.
        split; [reflexivity|]. split; [|split; [exact Hy | exact Hall]].
        intros z [<-|Hz]; auto.
    + right. exists [], x, r, e.
      split; [reflexivity|]. split; [intros y []|]. split; [assumption | reflexivity].
Qed.

Lemma cyclic_has_node model x : cyclic model x -> In x (obj_keys model).
Proof.
  intros H.
  assert (Hout : forall u z, clos_trans string (edge model) u z -> exists k, edge model u k).
  { induction 1 as [u z He|u z1 z2 _ IH1 _ _]; eauto. }
  destruct (Hout _ _ H) as [k Hk].
  unfold edge, children in Hk. apply In_obj_keys.
  destruct (obj_get model x) eqn:E; [eapply obj_get_In; eauto | destruct Hk].
Qed.

Lemma after_model_cycle_throw stack plan model e :
  assertNoCircularReferences stack model = ([], Throw e) ->
  after_model stack plan model = ([], Throw e).
Proof. unfold after_model. now intros ->. Qed.

(** The cycle check lets a model through only if no id is on a cycle. *)
Lemma cycle_check_passes_acyclic stack model :
  snd (assertNoCircularReferences stack model) = Normal tt ->
  forall x, ~ cyclic model x.
Proof.
  unfold assertNoCircularReferences. intros H x Hx.
  destruct (forEach_lift_cases (fun id => search stack model id id Down) (obj_keys model))
    as [[_ Hall]|(pre & y & post & e & _ & _ & _ & Hthrow)].
  - apply (search_complete model x stack x (Hall x (cyclic_has_node _ _ Hx)) x Hx).
    reflexivity.
  - rewrite Hthrow in H. discriminate.
Qed.

Lemma last_step {A} (R : relation A) x z :
  clos_trans A R x z -> exists y, clos_refl_trans A R x y /\ R y z.
Proof.
  intros H. apply clos_trans_tn1 in H.
  destruct H as [z Hxz|y z Hyz Hxy].
  - exists x. split; [apply rt_refl | exact Hxz].
  - exists y. split; [|exact Hyz].
    apply clos_tn1_trans in Hxy. clear Hyz.
    induction Hxy; [now apply rt_step | eapply rt_trans; eauto].
Qed.

Lemma step_then_path {A} (R : relation A) x y z :
  R x y -> clos_refl_trans A R y z -> clos_trans A R x z.
Proof.
  intros Hxy Hyz. apply clos_rt_rtn1 in Hyz.
  induction Hyz as [|u z Huz _ IH]; [now apply t_step|].
  eapply t_trans; [exact IH | now apply t_step].
Qed.

Lemma single_parent model a a' x :
  mirrored model -> single_input model ->
  edge model a x -> edge model a' x -> a = a'.
Proof.
  intros Hm Hs Ha Ha'. apply Hm in Ha, Ha'.
  specialize (Hs x). unfold fan_in in Hs. apply Nat.ltb_ge in Hs.
  destruct (parents model x) as [|p [|q r]]; cbn in *; [tauto| |lia].
  destruct Ha as [<-|[]], Ha' as [<-|[]]. reflexivity.
Qed.

(** Under the single-input rule a cycle that an id reaches passes through
    that id. *)
Lemma single_input_through_origin model :
  mirrored model -> single_input model -> cycles_through_origin model.
Proof.
  intros Hm Hs t v Hreach. apply clos_rt_rtn1 in Hreach.
  assert (Hhead : forall u z, clos_trans string (edge_avoiding model t) u z -> z <> t).
  { induction 1 as [u z [_ Hne]|]; auto. }
  induction Hreach as [|p v Hpv _ IH]; intros Hloop.
  - now apply (Hhead _ _ Hloop).
  - destruct (last_step _ _ _ Hloop) as (c & Hvc & [Hcv Hne]).
    assert (p = c) by (eapply single_parent; eauto). subst c.
    apply IH. eapply step_then_path; [split; [exact Hpv | exact Hne] | exact Hvc].
Qed.

(** C1 (amended). For a plan that passes the schema and the start check and
    whose model is built, if some id is reachable from itself along [down]
    edges, then [validate] does not return, and a ValidationError it raises
    is 'Circular dependency: a <-> b' for an edge a -> b that lies on a
    cycle. It raises that error whenever no id reaches a cycle that avoids
    it, as is the case when no id has two upstream neighbours, and the call
    stack is deeper than the number of ids plus one. *)
Theorem cycle_is_reported :
  forall stack plan w model,
    fst (parse executionPlanSchema [] plan) = Valid ->
    assertStart plan = ret tt ->
    buildModel plan = (w, Normal model) ->
    (exists x, cyclic model x) ->
    (forall v, snd (validate stack plan) <> Normal v) /\
    (forall msg, snd (validate stack plan) = Throw (ValidationError msg) ->
       exists a b, msg = circular_message a b /\ edge model a b /\ reach model b a) /\
    (cycles_through_origin model -> S (List.length model) < stack ->
       exists a b, validate stack plan = (w, Throw (ValidationError (circular_message a b)))
                   /\ edge model a b /\ reach model b a) /\
    (single_input model -> cycles_through_origin model).
Proof.
  intros stack plan w model Hschema Hstart Hbuild [x0 Hcyc].
  rewrite (validate_after_build _ _ _ _ Hschema Hstart Hbuild). cbn [snd].
  destruct (buildModel_closed _ _ _ Hbuild) as [Hclosed _].
  pose proof (cycle_check_passes_acyclic stack model) as Hacyclic.
  unfold assertNoCircularReferences in Hacyclic.
  destruct (forEach_lift_cases (fun id => search stack model id id Down) (obj_keys model))
    as [[Hok _]|(pre & y & post & e & Hkeys & _ & Hy & Hthrow)].
  { exfalso. apply (Hacyclic ltac:(now rewrite Hok) x0 Hcyc). }
  fold (assertNoCircularReferences stack model) in Hthrow.
  rewrite (after_model_cycle_throw _ plan _ _ Hthrow). cbn [fst snd].
  assert (Hsound : forall msg, e = ValidationError msg ->
            exists a b, msg = circular_message a b /\ edge model a b /\ reach model b a).
  { intros msg ->. destruct (search_sound _ _ _ _ _ Hy) as (a & -> & Hr & He). eauto. }
  split; [discriminate|]. split; [|split].
  3:{ apply single_input_through_origin. eapply buildModel_mirrored; eauto. }
  - intros msg [= ->]. now apply Hsound.
  - intros Hthrough Hdeep.
    assert (Hin : In y (obj_keys model)).
    { rewrite Hkeys, in_app_iff. right; now left. }
    assert (Hset : settled (search stack model y y Down)).
    { apply search_settles; [exact Hclosed | |].
      - intros Hnone. apply In_obj_keys in Hin. apply obj_get_None in Hnone. contradiction.
      - intros l Hl. pose proof (walk_from_origin_short model y l (Hthrough y) Hl). lia. }
    rewrite Hy in Hset. destruct e as [msg| |]; cbn in Hset; try contradiction.
    destruct (Hsound msg eq_refl) as (a & b & -> & He & Hr).
    exists a, b. rewrite app_nil_r. auto.
Qed.

Lemma two_cycle_edges u z :
  edge model_two_cycle u z -> (u = "a" /\ z = "b") \/ (u = "b" /\ z = "a").
Proof.
  unfold edge, children. cbn [obj_get model_two_cycle].
  destruct (String.eqb_spec "a" u) as [<-|_].
  - intros [<-|[]]. auto.
  - destruct (String.eqb_spec "b" u) as [<-|_]; [|intros []].
    intros [<-|[]]. auto.
Qed.

Lemma two_cycle_through_origin : cycles_through_origin model_two_cycle.
Proof.
  intros t v Hreach Hloop.
  assert (Hhead : forall u z, clos_trans string (edge_avoiding model_two_cycle t) u z ->
            z <> t /\ exists z', edge model_two_cycle u z' /\ z' <> t).
  { induction 1 as [u z [He Hne]|u z1 z2 _ [_ IH1] _ [IH2 _]]; eauto. }
  destruct (Hhead _ _ Hloop) as (Hv & z' & He & Hz').
  assert (Hends : forall u z, clos_refl_trans string (edge model_two_cycle) u z ->
            u = z \/ u = "a" \/ u = "b").
  { induction 1 as [u z Huz|u|u z1 z2 _ IH1 _ IH2].
    - right. destruct (two_cycle_edges _ _ Huz) as [[-> _]|[-> _]]; auto.
    - now left.
    - destruct IH1 as [->|?]; auto. }
  destruct (Hends _ _ Hreach) as [->|Ht]; [now apply Hv|].
  destruct (two_cycle_edges _ _ He) as [[-> ->]|[-> ->]]; destruct Ht as [->| ->];
    congruence.
Qed.

Lemma cycle_is_reported_witness :
  exists a b, validate 4 plan_two_cycle =
              ([], Throw (ValidationError (circular_message a b))) /\
              edge model_two_cycle a b /\ reach model_two_cycle b a.
Proof.
  assert (Hcyc : exists x, cyclic model_two_cycle x).
  { exists "a". apply t_trans with "b"; apply t_step; cbv; auto. }
  destruct (cycle_is_reported 4 plan_two_cycle [] model_two_cycle
              ltac:(vm_compute; reflexivity) ltac:(vm_compute; reflexivity)
              ltac:(vm_compute; reflexivity) Hcyc) as (_ & _ & H & _).
  apply H; [exact two_cycle_through_origin | cbn; lia].
Defined.

(** C1, as stated, fails where an earlier check fires: the plan has the cycle
    a <-> b in its model, and [validate] reports the start id instead. *)
Lemma cycle_hidden_by_start_check :
  buildModel plan_cycle_bad_start = ([], Normal model_two_cycle) /\
  cyclic model_two_cycle "a" /\
  forall stack,
    validate stack plan_cycle_bad_start =
    ([], Throw (ValidationError "Could not find start job: z")).
Proof.
  split; [vm_compute; reflexivity|]. split.
  - apply t_trans with "b"; apply t_step; cbv; auto.
  - intros stack. reflexivity.
Qed.

End CycleCheck.

(* ================================================================== *)
(** ** The single-input rule *)
(* ================================================================== *)

Section SingleInput.
Import JS Zod Outcome ValidatePlan Stages Graph Examples.

Lemma forEach_find {A} (p : A -> bool) (e : A -> exn) l :
  forEach (fun x => if p x then throw (e x) else ret tt) l =
  match find p l with
  | Some y => throw (e y)
  | None => ret tt
  end.
Proof.
  induction l as [|x r IH]; [reflexivity|].
  rewrite forEach_cons. cbn [find]. destruct (p x); [reflexivity|].
  now rewrite bind_ret.
Qed.

Lemma assertSingletonDependencies_find model :
  assertSingletonDependencies model =
  match find (fan_in model) (obj_keys model) with
  | Some y => throw (ValidationError (multiple_message y))
  | None => ret tt
  end.
Proof.
  unfold assertSingletonDependencies.
  apply (forEach_find (fan_in model) (fun id => ValidationError (multiple_message id))).
Qed.

Lemma two_distinct_members {A} (l : list A) a b :
  In a l -> In b l -> a <> b -> 1 < List.length l.
Proof.
  destruct l as [|x [|y r]]; cbn; try tauto; [|lia].
  intros [<-|[]] [<-|[]]. congruence.
Qed.

Lemma parent_has_node model x a : In a (parents model x) -> In x (obj_keys model).
Proof.
  unfold parents, node_of. intros H. apply In_obj_keys.
  destruct (obj_get model x) eqn:E; [eapply obj_get_In; eauto | destruct H].
Qed.

(** C6 (amended). For a plan that passes the schema, the start check, the
    building of the model and the cycle check: if two steps with distinct,
    non-empty ids both name [x] in a mapping-form [next], then [validate]
    raises 'Multiple dependencies detected for: y', where [y] is the first
    id, in the enumeration order of the model, with more than one upstream
    neighbour. *)
Theorem multiple_dependencies_reported :
  forall stack plan w model x s1 s2 a1 a2 e1 e2,
    fst (parse executionPlanSchema [] plan) = Valid ->
    assertStart plan = ret tt ->
    buildModel plan = (w, Normal model) ->
    assertNoCircularReferences stack model = ret tt ->
    In s1 (steps_of plan) -> In s2 (steps_of plan) ->
    str_prop s1 "id" = Some a1 -> str_prop s2 "id" = Some a2 ->
    a1 <> "" -> a2 <> "" -> a1 <> a2 ->
    get s1 "next" = JObj e1 -> get s2 "next" = JObj e2 ->
    In x (obj_keys e1) -> In x (obj_keys e2) ->
    exists y,
      validate stack plan = (w, Throw (ValidationError (multiple_message y))) /\
      find (fan_in model) (obj_keys model) = Some y /\
      1 < List.length (parents model x).
Proof.
  intros stack plan w model x s1 s2 a1 a2 e1 e2 Hschema Hstart Hbuild Hcycle
         Hs1 Hs2 Hid1 Hid2 Hne1 Hne2 Hdiff Hn1 Hn2 Hx1 Hx2.
  assert (Hp1 : In a1 (parents model x)).
  { eapply (buildModel_records _ _ _ Hbuild s1); eauto.
    - intros t. rewrite Hn1. discriminate.
    - rewrite Hn1. exact Hx1. }
  assert (Hp2 : In a2 (parents model x)).
  { eapply (buildModel_records _ _ _ Hbuild s2); eauto.
    - intros t. rewrite Hn2. discriminate.
    - rewrite Hn2. exact Hx2. }
  assert (Hlen : 1 < List.length (parents model x))
    by exact (two_distinct_members _ a1 a2 Hp1 Hp2 Hdiff).
  assert (Hfan : fan_in model x = true) by (now apply Nat.ltb_lt).
  destruct (find (fan_in model) (obj_keys model)) as [y|] eqn:Hfind.
  2:{ exfalso. pose proof (find_none _ _ Hfind x (parent_has_node _ _ _ Hp1)). congruence. }
  exists y. split; [|split; [reflexivity | exact Hlen]].
  rewrite (validate_after_build _ _ _ _ Hschema Hstart Hbuild).
  unfold after_model. rewrite Hcycle, bind_ret, assertSingletonDependencies_find, Hfind.
  cbn. now rewrite app_nil_r.
Qed.

Lemma multiple_dependencies_reported_witness :
  exists y, validate 4 plan_fan_in =
            ([], Throw (ValidationError (multiple_message y))) /\
            find (fan_in model_fan_in) (obj_keys model_fan_in) = Some y /\
            1 < List.length (parents model_fan_in "z").
Proof.
  apply (multiple_dependencies_reported 4 plan_fan_in [] model_fan_in "z"
           (job "b" (to ["z"])) (job "c" (to ["z"])) "b" "c"
           [("z", JBool true)] [("z", JBool true)]);
    try (vm_compute; reflexivity); try discriminate.
  - cbn. auto.
  - cbn. auto.
  - cbv. auto.
  - cbv. auto.
Defined.

(** C6, as stated, fails where the cycle check fires first: [a] has the two
    upstream neighbours b and c, and [validate] reports the cycle a <-> b. *)
Lemma fan_in_hidden_by_cycle_check :
  buildModel plan_fan_in_on_cycle = ([], Normal model_fan_in_on_cycle) /\
  parents model_fan_in_on_cycle "a" = ["b"; "c"] /\
  forall stack,
    validate (S (S stack)) plan_fan_in_on_cycle =
    ([], Throw (ValidationError "Circular dependency: b <-> a")).
Proof.
  split; [vm_compute; reflexivity|]. split; [vm_compute; reflexivity|].
  intros stack. vm_compute. reflexivity.
Qed.

End SingleInput.

(* ================================================================== *)
(** ** The index of declared ids *)
(* ================================================================== *)

Section JobIndex.
Import JS Zod Outcome ValidatePlan Stages Graph Examples.

Lemma str_prop_truthy item k v : str_prop item k = Some v -> truthy item = true.
Proof.
  unfold str_prop, get. destruct item; try discriminate. reflexivity.
Qed.

Lemma jobIdx_undeclared steps t :
  (forall step, In step steps -> str_prop step "id" <> Some t) ->
  plain_names steps t ->
  jobIdx_has (jobIdx_of steps) t = false.
Proof.
  intros Hund [Hproto Hplain]. unfold jobIdx_of.
  assert (Hinv : forall acc,
             idx_proto acc = None -> obj_get (idx_own acc) t = None ->
             jobIdx_has (fold_left jobIdx_add steps acc) t = false).
  { induction steps as [|s r IH]; intros acc Hp Ho; cbn [fold_left].
    - unfold jobIdx_has. now rewrite Ho, Hp.
    - apply IH.
      + intros; apply Hund; now right.
      + intros; apply Hplain; now right.
      + unfold jobIdx_add. destruct (str_prop s "id") as [id|] eqn:Eid; [|exact Hp].
        destruct (negb (id =? "")%string); [|exact Hp].
        destruct (String.eqb_spec id "__proto__") as [->|_]; [|exact Hp].
        exfalso. apply (Hplain s); [now left | exact Eid].
      + unfold jobIdx_add. destruct (str_prop s "id") as [id|] eqn:Eid; [|exact Ho].
        destruct (negb (id =? "")%string); [|exact Ho].
        destruct (String.eqb_spec id "__proto__") as [->|_].
        * destruct s; exact Ho.
        * cbn [idx_own]. rewrite obj_get_set_other; [exact Ho|].
          intros ->. apply (Hund s); [now left | exact Eid]. }
  apply Hinv; reflexivity.
Qed.

Lemma jobIdx_declared steps t :
  declared steps t -> t <> "__proto__" ->
  jobIdx_has (jobIdx_of steps) t = true.
Proof.
  intros [Hne (s & Hin & Hid)] Hnp. unfold jobIdx_of.
  assert (Hkeep : forall l acc,
            (exists v, obj_get (idx_own acc) t = Some v /\ truthy v = true) ->
            exists v, obj_get (idx_own (fold_left jobIdx_add l acc)) t = Some v
                      /\ truthy v = true).
  { induction l as [|x r IH]; intros acc Hacc; [exact Hacc|].
    cbn [fold_left]. apply IH. unfold jobIdx_add.
    destruct (str_prop x "id") as [id|] eqn:Eid; [|exact Hacc].
    destruct (negb (id =? "")%string); [|exact Hacc].
    destruct (id =? "__proto__")%string; [destruct x; exact Hacc|].
    cbn [idx_own]. destruct (String.eqb_spec id t) as [->|Hd].
    - exists x. rewrite obj_get_set_same. split; [reflexivity|].
      eapply str_prop_truthy; eauto.
    - now rewrite obj_get_set_other. }
  assert (Hset : forall l acc, In s l ->
            exists v, obj_get (idx_own (fold_left jobIdx_add l acc)) t = Some v
                      /\ truthy v = true).
  { induction l as [|x r IH]; intros acc Hl; [destruct Hl|].
    destruct Hl as [<-|Hr]; cbn [fold_left].
    - apply Hkeep. unfold jobIdx_add. rewrite Hid.
      apply String.eqb_neq in Hne, Hnp. rewrite Hne, Hnp. cbn [negb idx_own].
      exists x. rewrite obj_get_set_same. split; [reflexivity|].
      eapply str_prop_truthy; eauto.
    - now apply IH. }
  destruct (Hset steps (mkIdx [] None) Hin) as (v & Hv & Htv).
  unfold jobIdx_has. now rewrite Hv.
Qed.

End JobIndex.

(* ================================================================== *)
(** ** The two forms of [next] *)
(* ================================================================== *)

Section NextForms.
Import JS Zod Outcome ValidatePlan Stages Graph Examples.

Lemma validate_build_throws stack plan e :
  fst (parse executionPlanSchema [] plan) = Valid ->
  assertStart plan = ret tt ->
  snd (build_loop plan (steps_of plan) []) = Throw e ->
  snd (validate stack plan) = Throw e.
Proof.
  intros Hs Hstart Hloop.
  rewrite (validate_schema_ok _ _ Hs), Hstart, bind_ret, buildModel_split, Hloop.
  reflexivity.
Qed.

Lemma build_loop_throws_at plan pre job post w model e :
  steps_of plan = pre ++ job :: post ->
  build_loop plan pre [] = (w, Normal model) ->
  visit (jobIdx_of (steps_of plan)) model job = ([], Throw e) ->
  snd (build_loop plan (steps_of plan) []) = Throw e.
Proof.
  unfold build_loop. intros Hsteps Hpre Hjob.
  rewrite Hsteps at 2. rewrite foldM_app, Hpre, bind_normal, foldM_cons, Hjob.
  reflexivity.
Qed.

(** C5 (amended). In a plan that passes the schema and the start check, take
    a step that the loop of [buildModel] reaches. If its [next] is a string
    [t], the step leaves the up and down sets of every node as they were
    and only the existence of [t] is checked: a declared [t] passes, and a [t]
    that no step declares makes [validate] raise 'Cannot find job: t' (for
    names that objects do not inherit). If its [next] is a mapping, a step
    with an id [a] gets the edge a -> k stored on both ends for every key
    [k], and a step without id leaves every node as it was. *)
Theorem next_forms :
  forall plan pre job post w model,
    fst (parse executionPlanSchema [] plan) = Valid ->
    assertStart plan = ret tt ->
    steps_of plan = pre ++ job :: post ->
    build_loop plan pre [] = (w, Normal model) ->
    (forall t, get job "next" = JStr t ->
       (forall w' model',
           visit (jobIdx_of (steps_of plan)) model job = (w', Normal model') ->
           forall x, node_of model' x = node_of model x) /\
       (declared (steps_of plan) t -> t <> "__proto__" ->
        exists model', visit (jobIdx_of (steps_of plan)) model job = ([], Normal model')) /\
       ((forall step, In step (steps_of plan) -> str_prop step "id" <> Some t) ->
        plain_names (steps_of plan) t ->
        forall stack,
          snd (validate stack plan) = Throw (ValidationError (cannot_find_message t)))) /\
    (forall edges w' model',
       get job "next" = JObj edges ->
       visit (jobIdx_of (steps_of plan)) model job = (w', Normal model') ->
       (forall a, str_prop job "id" = Some a -> a <> "" ->
                  forall k, In k (obj_keys edges) ->
                            edge model' a k /\ In a (parents model' k)) /\
       (truthy_str (str_prop job "id") = false ->
        forall x, node_of model' x = node_of model x)).
Proof.
  intros plan pre job post w model Hschema Hstart Hsteps Hpre.
  assert (Hproper : proper model).
  { unfold build_loop in Hpre.
    apply (foldM_invariant _ proper) in Hpre; [exact Hpre | | apply proper_nil].
    intros s x w0 s' Hv. apply (visit_preserves _ _ _ _ _ Hv). }
  split.
  - intros t Hnext.
    destruct (visit_string_next (jobIdx_of (steps_of plan)) model job t Hnext)
      as [Hvisit Hsame].
    split; [|split].
    + intros w' model'. rewrite Hvisit.
      destruct (jobIdx_has (jobIdx_of (steps_of plan)) t); [|discriminate].
      intros [= _ <-]. exact Hsame.
    + intros Hdecl Hnp. rewrite Hvisit, (jobIdx_declared _ _ Hdecl Hnp).
      eexists; reflexivity.
    + intros Hund Hplain stack.
      apply (validate_build_throws _ _ _ Hschema Hstart).
      apply (build_loop_throws_at _ _ _ _ _ _ _ Hsteps Hpre).
      rewrite Hvisit, (jobIdx_undeclared _ _ Hund Hplain). reflexivity.
  - intros edges w' model' Hnext Hvisit. split.
    + intros a Hid Hne k Hk.
      assert (Hmap : forall t, get job "next" <> JStr t)
        by (intros t; rewrite Hnext; discriminate).
      assert (Hin : In k (for_in_keys (get job "next")))
        by (rewrite Hnext; exact Hk).
      destruct (visit_records _ _ _ _ _ a Hvisit Hproper Hid Hne Hmap k Hin).
      split; assumption.
    + intros Hanon. eapply visit_anonymous; eauto.
Qed.

Lemma next_forms_witness :
  snd (validate 4 plan_unknown_next) =
  Throw (ValidationError (cannot_find_message "z")).
Proof.
  pose (job := JObj [("next", JStr "z"); ("expression", JStr ".")]).
  destruct (next_forms plan_unknown_next [] job [] [] []
              ltac:(vm_compute; reflexivity) ltac:(vm_compute; reflexivity)
              eq_refl eq_refl) as [Hstring _].
  destruct (Hstring "z" eq_refl) as (_ & _ & Hraise).
  apply Hraise.
  - intros step [<-|[]]. discriminate.
  - split; [reflexivity|]. intros step [<-|[]]. discriminate.
Defined.

(** C5, as stated, fails where an earlier check fires: the step names the
    undeclared id q in a string-form [next], and [validate] reports the
    start id instead. *)
Lemma unknown_next_hidden_by_start_check :
  (forall step, In step (steps_of plan_unknown_next_bad_start) ->
                str_prop step "id" <> Some "q") /\
  forall stack,
    validate stack plan_unknown_next_bad_start =
    ([], Throw (ValidationError "Could not find start job: z")).
Proof.
  split.
  - intros step [<-|[]]. discriminate.
  - intros stack. reflexivity.
Qed.

(** A string-form [next] that names an inherited method passes the
    existence check although no step declares it. *)
Lemma inherited_name_passes_existence_check :
  forall stack, snd (validate stack plan_next_toString) = Normal true.
Proof. intros stack. reflexivity. Qed.

End NextForms.

(* ================================================================== *)
(** ** The order of the checks *)
(* ================================================================== *)

Section CheckOrder.
Import JS Zod Outcome ValidatePlan Stages Graph Examples.

Lemma forEach_find_unless {A} (q : A -> bool) (e : A -> exn) l :
  forEach (fun x => if q x then ret tt else throw (e x)) l =
  match find (fun x => negb (q x)) l with
  | Some y => throw (e y)
  | None => ret tt
  end.
Proof.
  induction l as [|x r IH]; [reflexivity|].
  rewrite forEach_cons. cbn [find]. destruct (q x); [|reflexivity].
  now rewrite bind_ret.
Qed.

Lemma assertStepKeys_first_error plan :
  assertStepKeys plan =
  match first_step_error (steps_of plan) with
  | Some e => throw e
  | None => ret tt
  end.
Proof.
  unfold assertStepKeys.
  induction (steps_of plan) as [|step r IH]; [reflexivity|].
  rewrite forEach_cons. cbn [first_step_error]. unfold step_error.
  fold (adaptor_without_expression step).
  destruct (adaptor_without_expression step); [reflexivity|].
  rewrite bind_ret.
  rewrite (forEach_find_unless (fun key => existsb (String.eqb key) validKeys)
             (fun key => ValidationError
                           ("Invalid key '" ++ key ++ "' found in step with id '"
                            ++ display (str_prop step "id") ++ "'."))).
  fold invalid_key.
  change (fun x => negb (existsb (String.eqb x) validKeys)) with invalid_key.
  destruct (find invalid_key (for_in_keys step)); [reflexivity|].
  now rewrite bind_ret.
Qed.

Lemma outcome_of_cons (s : M unit) l (rest : M bool) :
  rest = outcome_of l ->
  bind s (fun _ => rest) = outcome_of (s :: l).
Proof.
  intros ->. unfold outcome_of. destruct s as [w [[]|e]]; cbn.
  - reflexivity.
  - now rewrite app_nil_r.
Qed.

Lemma after_model_outcome stack plan model :
  after_model stack plan model =
  outcome_of [ assertNoCircularReferences stack model;
               assertSingletonDependencies model;
               assertStepKeys plan;
               assertValidOptions (options_of plan);
               assertValidStepIds (steps_of plan);
               assertUnreferencedSteps model ].
Proof.
  unfold after_model. repeat apply outcome_of_cons. reflexivity.
Qed.

(** C4 (amended). After schema conformance the checks run in this order:
    start id; the building of the model, which raises on a [next] target
    that is not found; cycle freedom; single input; the step keys, where
    each step in turn is checked first for an adaptor without expression
    and then for its keys; the warnings on unrecognised options; duplicate
    ids; the warnings on unreferenced steps. The first error raised ends
    the validation, and the warnings before it have been emitted. *)
Theorem checks_run_in_order :
  forall stack plan,
    fst (parse executionPlanSchema [] plan) = Valid ->
    validate stack plan =
      (warnings_until_failure (stages stack plan),
       match first_failure (stages stack plan) with
       | Some e => Throw e
       | None => Normal true
       end) /\
    assertStepKeys plan =
      match first_step_error (steps_of plan) with
      | Some e => throw e
      | None => ret tt
      end.
Proof.
  intros stack plan Hschema. split; [|apply assertStepKeys_first_error].
  rewrite (validate_schema_ok _ _ Hschema).
  fold (outcome_of (stages stack plan)). unfold stages.
  destruct (assertStart plan) as [w0 [[]|e0]].
  2:{ unfold outcome_of. cbn. now rewrite app_nil_r. }
  rewrite bind_normal.
  destruct (buildModel plan) as [w1 [model|e1]] eqn:Hbuild; cbn [snd app].
  - rewrite bind_normal, after_model_outcome. unfold outcome_of.
    cbn [warnings_until_failure first_failure fst snd bind ret].
    now rewrite !app_nil_r.
  - unfold outcome_of. cbn. now rewrite !app_nil_r.
Qed.

Lemma checks_run_in_order_witness :
  validate 4 plan_adaptor_and_bad_key =
  ([], Throw (ValidationError
                "Step with adaptor 'abc' must have an expression. Step id: 'b'.")).
Proof.
  destruct (checks_run_in_order 4 plan_adaptor_and_bad_key
              ltac:(vm_compute; reflexivity)) as [H _].
  rewrite H. vm_compute. reflexivity.
Defined.

(** C4, as stated, fails on a step that violates checks 5 and 6 at once:
    the step has the unrecognised key foo and an adaptor without
    expression, and the error reported is that of check 6. *)
Lemma coupling_reported_before_whitelist :
  (let step := JObj [("id", JStr "b"); ("foo", JStr "x"); ("adaptor", JStr "abc")] in
   In "foo" (for_in_keys step) /\ invalid_key "foo" = true /\
   adaptor_without_expression step = true) /\
  forall stack,
    validate (S stack) plan_adaptor_and_bad_key =
    ([], Throw (ValidationError
                  "Step with adaptor 'abc' must have an expression. Step id: 'b'.")).
Proof.
  split.
  - cbv. auto.
  - intros stack. vm_compute. reflexivity.
Qed.

End CheckOrder.

(* ================================================================== *)
(** ** Schema conformance *)
(* ================================================================== *)

Section SchemaFacts.
Import JS Zod Outcome ValidatePlan Schema Examples.

Lemma parse_object shape p o :
  parse (ZObject shape) p (JObj o) = parse_fields shape p (JObj o).
Proof.
  cbn [parse]. induction shape as [|[k sk] r IH]; cbn [parse_fields]; [reflexivity|].
  now rewrite IH.
Qed.

Lemma parse_array item p items :
  parse (ZArray item) p (JArr items) = parse_items item p items 0.
Proof.
  cbn [parse]. generalize 0 as i.
  induction items as [|x r IH]; intros i; cbn [parse_items]; [reflexivity|].
  now rewrite IH.
Qed.

Lemma parse_record key value p o :
  parse (ZRecord key value) p (JObj o) =
  parse_entries key value p (JObj o) (obj_keys o).
Proof.
  cbn [parse]. induction (obj_keys o) as [|k r IH]; cbn [parse_entries]; [reflexivity|].
  now rewrite IH.
Qed.

Lemma parse_union options p v :
  parse (ZUnion options) p v = union_result p (map (fun o => parse o p v) options).
Proof.
  reflexivity.
Qed.

Lemma coherent_valid : coherent (Valid, []).
Proof. split; reflexivity. Qed.

Lemma coherent_type_error expected v p : coherent (type_error expected v p).
Proof. unfold coherent, type_error; cbn. split; discriminate. Qed.

Lemma coherent_issue st i : st <> Valid -> coherent (st, [i]).
Proof. unfold coherent; cbn. split; [contradiction | discriminate]. Qed.

Lemma coherent_merge a b : coherent a -> coherent b -> coherent (merge a b).
Proof.
  unfold coherent, merge. destruct a as [sa ia], b as [sb ib]; cbn.
  intros Ha Hb. split.
  - destruct sa, sb; cbn; try discriminate. intros _.
    rewrite (proj1 Ha eq_refl), (proj1 Hb eq_refl). reflexivity.
  - intros H. apply app_eq_nil in H. destruct H as [Hia Hib].
    rewrite (proj2 Ha Hia), (proj2 Hb Hib). reflexivity.
Qed.

Lemma coherent_union p rs : Forall coherent rs -> coherent (union_result p rs).
Proof.
  intros Hall. rewrite Forall_forall in Hall. unfold union_result.
  destruct (find (fun r => match fst r with Valid => true | _ => false end) rs)
    as [r|] eqn:E1.
  { apply find_some in E1. now apply Hall. }
  destruct (find (fun r => match fst r with Dirty => true | _ => false end) rs)
    as [r|] eqn:E2.
  { apply find_some in E2. now apply Hall. }
  now apply coherent_issue.
Qed.

(** The parser reports at least one issue whenever it rejects a value, and
    none when it accepts. *)
Lemma parse_coherent s : forall p v, coherent (parse s p v).
Proof.
  induction s using schema_induction; intros p v.
  - destruct v; try apply coherent_type_error. cbn [parse].
    destruct min as [[n msg]|]; [|apply coherent_valid].
    destruct (Nat.ltb _ n); [now apply coherent_issue | apply coherent_valid].
  - destruct v; try apply coherent_type_error. cbn [parse].
    destruct (PrimFloat.eqb f f); [|apply coherent_type_error].
    destruct min as [[b msg]|]; [|apply coherent_valid].
    destruct (PrimFloat.ltb f b); [now apply coherent_issue | apply coherent_valid].
  - destruct v; try apply coherent_type_error. apply coherent_valid.
  - apply coherent_valid.
  - destruct v; cbn [parse]; try apply IHs. apply coherent_valid.
  - destruct v; try apply coherent_type_error.
    rewrite parse_array. generalize 0 as i.
    induction items as [|x r IHr]; intros i; cbn [parse_items];
      [apply coherent_valid | apply coherent_merge; auto].
  - destruct v; try apply coherent_type_error.
    rewrite parse_object.
    induction H as [|[k sk] r Hk _ IHr]; cbn [parse_fields];
      [apply coherent_valid | apply coherent_merge; [apply Hk | apply IHr]].
  - destruct v; try apply coherent_type_error.
    rewrite parse_record.
    induction (obj_keys props) as [|k r IHr]; cbn [parse_entries];
      [apply coherent_valid | repeat apply coherent_merge; auto].
  - rewrite parse_union. apply coherent_union.
    induction H as [|o r Ho _ IHr]; cbn [map]; constructor; auto.
Qed.

Lemma schema_valid_iff plan :
  fst (parse executionPlanSchema [] plan) = Valid <-> schema_issues plan = [].
Proof. apply parse_coherent. Qed.

Lemma get_obj_set k v o k' :
  get (JObj (obj_set k v o)) k' = if (k =? k')%string then v else get (JObj o) k'.
Proof.
  unfold get. destruct (String.eqb_spec k k') as [<-|Hne].
  - now rewrite obj_get_set_same.
  - now rewrite obj_get_set_other.
Qed.

Lemma parse_entries_any p v ks :
  parse_entries (ZString None) ZAny p v ks = (Valid, []).
Proof.
  induction ks as [|k r IH]; cbn [parse_entries]; [reflexivity|].
  rewrite IH. reflexivity.
Qed.

Lemma parse_next_mapping p edges : parse nextSchema p (JObj edges) = (Valid, []).
Proof.
  unfold nextSchema.
  change (parse (ZUnion [ZString None; ZRecord (ZString None) ZAny]) p (JObj edges)
          = (Valid, [])).
  rewrite parse_union. cbn [map].
  rewrite parse_record, parse_entries_any. reflexivity.
Qed.

Lemma parse_step_edge_values f p step :
  parse stepSchema p (step_with_edge_values f step) = parse stepSchema p step.
Proof.
  destruct step as [| | | | | |props]; try reflexivity.
  unfold step_with_edge_values.
  destruct (obj_get props "next") as [[| | | | | |edges]|] eqn:En; try reflexivity.
  assert (Hnext : get (JObj props) "next" = JObj edges) by (unfold get; now rewrite En).
  unfold stepSchema. rewrite !parse_object. cbn [parse_fields].
  rewrite !get_obj_set. cbn [String.eqb Ascii.eqb Bool.eqb].
  now rewrite Hnext, !parse_next_mapping.
Qed.

Lemma parse_items_edge_values f p items i :
  parse_items stepSchema p (map (step_with_edge_values f) items) i =
  parse_items stepSchema p items i.
Proof.
  revert i. induction items as [|x r IH]; intros i; cbn [map parse_items]; [reflexivity|].
  now rewrite parse_step_edge_values, IH.
Qed.

(** C10. A mapping-form [next] satisfies the schema whatever values its
    edges carry, and replacing the value of every edge of every step of a
    plan, by any function of the target and the old value, leaves the
    outcome of the schema check as it was: no schema error is ever due to
    an edge value. *)
Theorem next_edge_values_unconstrained :
  (forall p edges, parse nextSchema p (JObj edges) = (Valid, [])) /\
  (forall f p step,
      parse stepSchema p (step_with_edge_values f step) = parse stepSchema p step) /\
  (forall f plan,
      parse executionPlanSchema [] (plan_with_edge_values f plan) =
      parse executionPlanSchema [] plan).
Proof.
  split; [exact parse_next_mapping|]. split; [exact parse_step_edge_values|].
  intros f plan. destruct plan as [| | | | | |pp]; try reflexivity.
  unfold plan_with_edge_values.
  destruct (obj_get pp "workflow") as [[| | | | | |wp]|] eqn:Ew; try reflexivity.
  destruct (obj_get wp "steps") as [[| | | | |items|]|] eqn:Es; try reflexivity.
  assert (Hw : get (JObj pp) "workflow" = JObj wp) by (unfold get; now rewrite Ew).
  assert (Hs : get (JObj wp) "steps" = JArr items) by (unfold get; now rewrite Es).
  unfold executionPlanSchema. rewrite !parse_object. cbn [parse_fields].
  rewrite !get_obj_set. cbn [String.eqb Ascii.eqb Bool.eqb].
  rewrite Hw, !parse_object. cbn [parse_fields].
  rewrite get_obj_set. cbn [String.eqb Ascii.eqb Bool.eqb].
  now rewrite Hs, !parse_array, parse_items_edge_values.
Qed.

Lemma parse_items_issues p items i :
  snd (parse_items stepSchema p items i) =
  flat_map (fun ix => snd (parse stepSchema (p ++ [PIndex (fst ix)]) (snd ix)))
           (combine (seq i (List.length items)) items).
Proof.
  revert i. induction items as [|x r IH]; intros i; [reflexivity|].
  cbn [parse_items List.length seq combine flat_map fst snd merge]. now rewrite IH.
Qed.

Lemma schema_error_message issues :
  formattedErrorsToString (formatZodErrors issues) =
  join "
" (map issue_line issues).
Proof.
  unfold formattedErrorsToString, formatZodErrors. now rewrite map_map.
Qed.

(** C7. The schema check comes first and reports everything at once: when
    the schema finds a violation, [validate] raises, before any warning and
    whatever the other checks would say, one ValidationError whose message
    has one line '<path>: <message>' per violation; for a plan with an
    options object and a steps array these are the violations of the
    options followed by those of every step, in order. *)
Theorem schema_violations_reported_together :
  forall stack plan,
    schema_issues plan <> [] ->
    validate stack plan =
      ([], Throw (ValidationError (join "
" (map issue_line (schema_issues plan))))) /\
    (forall wp items,
        get plan "workflow" = JObj wp -> get (JObj wp) "steps" = JArr items ->
        schema_issues plan =
          snd (parse optionsSchema [PKey "options"] (get plan "options")) ++
          step_issues items).
Proof.
  intros stack plan Hissues. split.
  - unfold validate. fold (schema_issues plan).
    pose proof (schema_valid_iff plan) as Hiff. unfold schema_issues in *.
    destruct (parse executionPlanSchema [] plan) as [st issues]; cbn [fst snd] in *.
    rewrite schema_error_message.
    destruct st; [exfalso; apply Hissues, Hiff; reflexivity | reflexivity | reflexivity].
  - intros wp items Hw Hs. unfold schema_issues, step_issues.
    destruct plan as [| | | | | |pp]; try discriminate.
    unfold executionPlanSchema. rewrite parse_object. cbn [parse_fields].
    rewrite Hw, parse_object. cbn [parse_fields]. rewrite Hs, parse_array.
    cbn [merge fst snd]. rewrite !app_nil_r, parse_items_issues. reflexivity.
Qed.

Lemma schema_violations_reported_together_witness :
  validate 4 plan_invalid_step =
  ([], Throw (ValidationError
                "workflow.steps.0.name: Name must be at least 3 characters long
workflow.steps.0.adaptor: Adaptor must be at least 3 characters long
workflow.steps.0.expression: Expected string, received number")).
Proof.
  destruct (schema_violations_reported_together 4 plan_invalid_step
              ltac:(vm_compute; discriminate)) as [H _].
  rewrite H. vm_compute. reflexivity.
Defined.

End SchemaFacts.

(* ================================================================== *)
(** ** When the cycle check passes *)
(* ================================================================== *)

Section AcyclicModels.
Import JS Zod Outcome ValidatePlan Stages Graph Acceptance.

Lemma avoiding_cycle_is_cycle model t v :
  clos_trans string (edge_avoiding model t) v v -> cyclic model v.
Proof.
  unfold cyclic. generalize v at 2 4 as u.
  induction 1 as [a b [H _]|a b c _ IH1 _ IH2];
    [now apply t_step | eapply t_trans; eauto].
Qed.

Lemma walk_acyclic_short model t x l :
  acyclic model -> walk model t x l -> List.length l <= S (List.length model).
Proof.
  intros Hacyclic Hwalk.
  assert (Hnd : NoDup l).
  { assert (Hdec : ListDec.decidable_eq string).
    { intros a b. destruct (string_dec a b); [now left | now right]. }
    destruct (ListDec.NoDup_decidable Hdec l) as [H|H]; [exact H|].
    apply (ListDec.not_NoDup Hdec) in H.
    destruct H as (a & l1 & l2 & l3 & ->).
    exfalso. apply (Hacyclic a), (avoiding_cycle_is_cycle model t).
    apply walk_tail in Hwalk.
    eapply walk_reaches; [exact Hwalk|].
    rewrite in_app_iff; right; now left. }
  destruct l as [|y0 r]; [cbn; lia|].
  assert (Hne : y0 :: r <> []) by discriminate.
  rewrite (app_removelast_last y0 Hne) in Hnd |- *.
  apply NoDup_app_remove_r in Hnd.
  rewrite length_app; cbn [List.length].
  assert (List.length (removelast (y0 :: r)) <= List.length (map fst model)).
  { apply NoDup_incl_length; [exact Hnd|].
    intros y Hy. eapply walk_inner_nodes; eauto. }
  rewrite length_map in H. lia.
Qed.

Lemma acyclic_search_returns model stack y :
  closed model -> acyclic model -> In y (obj_keys model) ->
  S (List.length model) < stack ->
  search stack model y y Down = Normal tt.
Proof.
  intros Hclosed Hacyclic Hin Hdeep.
  assert (Hset : settled (search stack model y y Down)).
  { apply search_settles; [exact Hclosed | |].
    - intros Hnone. apply In_obj_keys in Hin. apply obj_get_None in Hnone. contradiction.
    - intros l Hl. pose proof (walk_acyclic_short model y y l Hacyclic Hl). lia. }
  destruct (search stack model y y Down) as [[]|e] eqn:Es; [reflexivity|].
  destruct e as [msg| |]; cbn in Hset; try contradiction.
  exfalso. destruct (search_sound _ _ _ _ _ Es) as (a & _ & Hreach & Hedge).
  apply (Hacyclic y). unfold cyclic.
  apply clos_rt_t with a; [exact Hreach | now apply t_step].
Qed.

Lemma acyclic_check_passes model stack :
  closed model -> acyclic model -> S (List.length model) < stack ->
  assertNoCircularReferences stack model = ret tt.
Proof.
  intros Hclosed Hacyclic Hdeep. unfold assertNoCircularReferences.
  destruct (forEach_lift_cases (fun id => search stack model id id Down) (obj_keys model))
    as [[Hok _]|(pre & y & post & e & Hkeys & _ & Hy & _)]; [exact Hok|].
  exfalso.
  assert (Hin : In y (obj_keys model)).
  { rewrite Hkeys, in_app_iff. right; now left. }
  rewrite (acyclic_search_returns model stack y Hclosed Hacyclic Hin Hdeep) in Hy.
  discriminate.
Qed.

(** For a model that [buildModel] returns and a call stack deeper than the
    number of ids plus one, the cycle check passes exactly when no id is
    reachable from itself along [down] edges. *)
Theorem cycle_check_passes_iff_acyclic :
  forall plan w model stack,
    buildModel plan = (w, Normal model) ->
    S (List.length model) < stack ->
    (assertNoCircularReferences stack model = ret tt <-> acyclic model).
Proof.
  intros plan w model stack Hbuild Hdeep.
  destruct (buildModel_closed _ _ _ Hbuild) as [Hclosed _].
  split.
  - intros Hok x. apply (cycle_check_passes_acyclic stack model). now rewrite Hok.
  - intros Hacyclic. now apply acyclic_check_passes.
Qed.

Lemma cycle_check_passes_iff_acyclic_witness :
  assertNoCircularReferences 6 Examples.model_fan_in = ret tt <->
  acyclic Examples.model_fan_in.
Proof.
  apply (cycle_check_passes_iff_acyclic Examples.plan_fan_in [] Examples.model_fan_in 6).
  - vm_compute. reflexivity.
  - cbn. lia.
Defined.

End AcyclicModels.

(* ================================================================== *)
(** ** Duplicate ids *)
(* ================================================================== *)

Section DuplicateIds.
Import JS Zod Outcome ValidatePlan Stages Graph Acceptance.

Lemma same_id_eq a b : same_id a b = true <-> a = b.
Proof.
  destruct a as [x|], b as [y|]; cbn; try (split; congruence).
  rewrite String.eqb_eq. split; congruence.
Qed.

Lemma seen_id_iff id ids : existsb (same_id id) ids = true <-> In id ids.
Proof.
  rewrite existsb_exists. split.
  - intros (x & Hin & Heq). apply same_id_eq in Heq. now subst.
  - intros Hin. exists id. split; [exact Hin | now apply same_id_eq].
Qed.

(** The loop of [assertValidStepIds], started with the set [seen]. *)
Lemma duplicate_scan steps :
  forall seen,
    NoDup seen ->
    let scan :=
      foldM (fun (ids : list (option string)) step =>
               let id := str_prop step "id" in
               if existsb (same_id id) ids then
                 throw (ValidationError ("Duplicate step ID detected: " ++ display id))
               else ret (ids ++ [id]))
            steps seen in
    (NoDup (seen ++ ids_of steps) /\ scan = ret (seen ++ ids_of steps)) \/
    (exists pre id post,
        ids_of steps = pre ++ id :: post /\ NoDup (seen ++ pre) /\ In id (seen ++ pre) /\
        scan = throw (ValidationError (duplicate_message id))).
Proof.
  induction steps as [|step r IH]; intros seen Hnd; cbn zeta.
  - left. cbn [ids_of map foldM]. rewrite app_nil_r. auto.
  - rewrite foldM_cons. cbn [ids_of map]. fold (ids_of r).
    destruct (existsb (same_id (str_prop step "id")) seen) eqn:Eseen.
    + right. apply seen_id_iff in Eseen.
      exists [], (str_prop step "id"), (ids_of r).
      rewrite app_nil_r. auto.
    + assert (Hfresh : ~ In (str_prop step "id") seen).
      { intros Hin. apply seen_id_iff in Hin. congruence. }
      assert (Hnd' : NoDup (seen ++ [str_prop step "id"])).
      { apply NoDup_app; [exact Hnd | repeat constructor; intros [] |].
        intros x Hx [<-|[]]. contradiction. }
      rewrite bind_ret.
      destruct (IH _ Hnd') as [[Hall Hscan]|(pre & id & post & Hids & Hpre & Hin & Hscan)].
      * left. rewrite <- app_assoc in Hall, Hscan. auto.
      * right. exists (str_prop step "id" :: pre), id, post.
        rewrite <- !app_assoc in *. cbn [app] in *. rewrite Hids. auto.
Qed.

Lemma duplicate_check_cases steps :
  (NoDup (ids_of steps) /\ assertValidStepIds steps = ret tt) \/
  (exists pre id post,
      ids_of steps = pre ++ id :: post /\ NoDup pre /\ In id pre /\
      assertValidStepIds steps = throw (ValidationError (duplicate_message id))).
Proof.
  unfold assertValidStepIds.
  destruct (duplicate_scan steps [] (NoDup_nil _))
    as [[Hall Hscan]|(pre & id & post & Hids & Hpre & Hin & Hscan)];
    cbn [app] in *; rewrite Hscan.
  - left. split; [exact Hall | reflexivity].
  - right. exists pre, id, post. auto.
Qed.

Lemma repeated_not_NoDup {A} (pre post : list A) x :
  In x pre -> ~ NoDup (pre ++ x :: post).
Proof.
  intros Hin Hnd. apply NoDup_remove_2 in Hnd. apply Hnd.
  rewrite in_app_iff. now left.
Qed.

(** The duplicate check passes exactly when the values of [step.id],
    [undefined] included, are pairwise distinct; otherwise it raises
    'Duplicate step ID detected: <id>' for the first id, in plan order,
    that an earlier step already has. It never warns. *)
Theorem duplicate_check_characterised :
  forall steps,
    (assertValidStepIds steps = ret tt <-> NoDup (ids_of steps)) /\
    (~ NoDup (ids_of steps) ->
     exists pre id post,
       ids_of steps = pre ++ id :: post /\ NoDup pre /\ In id pre /\
       assertValidStepIds steps = throw (ValidationError (duplicate_message id))).
Proof.
  intros steps.
  destruct (duplicate_check_cases steps)
    as [[Hall Hok]|(pre & id & post & Hids & Hpre & Hin & Hthrow)].
  - split; [split; auto | intros H; contradiction].
  - assert (Hdup : ~ NoDup (ids_of steps))
      by (rewrite Hids; now apply repeated_not_NoDup).
    split.
    + split; [rewrite Hthrow; discriminate | intros H; contradiction].
    + intros _. exists pre, id, post. auto.
Qed.

Lemma duplicate_check_characterised_witness :
  exists pre id post,
    ids_of (steps_of Examples.plan_two_anonymous) = pre ++ id :: post /\
    NoDup pre /\ In id pre /\
    assertValidStepIds (steps_of Examples.plan_two_anonymous) =
    throw (ValidationError (duplicate_message id)).
Proof.
  apply (duplicate_check_characterised (steps_of Examples.plan_two_anonymous)).
  cbn. intros H. inversion H as [|x l Hx _]. apply Hx. now left.
Defined.

End DuplicateIds.

(* ================================================================== *)
(** ** The model is the plan's graph *)
(* ================================================================== *)

Section ModelIsPlanGraph.
Import JS Zod Outcome ValidatePlan Stages Graph ModelShape.

Lemma foldM_invariant_in {S A} (f : S -> A -> M S) (P : S -> Prop) l :
  (forall s x w s', In x l -> f s x = (w, Normal s') -> P s -> P s') ->
  forall s w s', foldM f l s = (w, Normal s') -> P s -> P s'.
Proof.
  induction l as [|x r IH]; intros Hstep s w s'.
  - intros [= <- <-]. auto.
  - rewrite foldM_cons. intros H Hs.
    apply bind_normal_inv in H. destruct H as (w1 & s1 & w2 & H1 & H2 & _).
    eapply IH; [| exact H2 |].
    + intros; eapply Hstep; eauto. now right.
    + eapply Hstep; eauto. now left.
Qed.

Lemma mapping_targets_iff job b :
  In b (mapping_targets job) <->
  (forall t, get job "next" <> JStr t) /\ In b (for_in_keys (get job "next")).
Proof.
  unfold mapping_targets. destruct (get job "next"); cbn;
    try (split; [intros H; split; [discriminate | exact H] | tauto]).
  split; [tauto | intros [H _]; now apply (H s)].
Qed.

(** What one round of the inner loop can add. *)
Lemma link_adds jobIdx job_id st k w st' :
  link jobIdx job_id st k = (w, Normal st') ->
  jobIdx_has jobIdx k = true /\
  (forall x b, edge (fst st') x b -> edge (fst st) x b \/ (snd st = Ref x /\ b = k)) /\
  (forall x b, In x (parents (fst st') b) ->
               In x (parents (fst st) b) \/
               (job_id = Some x /\ truthy_str job_id = true /\ b = k)) /\
  (forall x, In x (map fst (fst st')) ->
             In x (map fst (fst st)) \/ (x = k /\ is_object_prototype_key k = false)).
Proof.
  intros H. destruct (link_inv _ _ _ _ _ _ H)
    as (_ & Hhas & m1 & r1 & m2 & nn & Hw1 & He & Hrest).
  split; [exact Hhas|].
  destruct st as [m r]; cbn [fst snd] in *.
  apply write_inv in Hw1. destruct Hw1 as [_ Hw1].
  assert (Hm2 : m2 = fst (ensureModel m1 k)) by now rewrite He.
  (* after [node.down[k] = true] *)
  assert (D1 : forall x b, In b (map fst (down (node_of m1 x))) ->
                           edge m x b \/ (r = Ref x /\ b = k)).
  { intros x b. destruct Hw1 as [(a & -> & _ & ->)|(n & _ & _ & ->)].
    - rewrite node_of_update, edge_iff. unfold node_of.
      destruct (obj_get m x) as [nx|]; [|cbn; tauto].
      destruct (String.eqb_spec a x) as [<-|_]; [|auto].
      cbn. intros Hin. apply In_assign_true_inv in Hin. destruct Hin; auto.
    - rewrite edge_iff. auto. }
  assert (U1 : forall x, up (node_of m1 x) = up (node_of m x)).
  { intros x. destruct Hw1 as [(a & _ & _ & ->)|(n & _ & _ & ->)]; [|reflexivity].
    rewrite node_of_update. unfold node_of.
    destruct (obj_get m x) as [nx|]; [|reflexivity].
    now destruct (a =? x)%string. }
  assert (K1 : map fst m1 = map fst m).
  { destruct Hw1 as [(a & _ & _ & ->)|(n & _ & _ & ->)]; [apply keys_update | reflexivity]. }
  (* after [ensureModel(k)] *)
  assert (K2 : forall x, In x (map fst m2) ->
                         In x (map fst m) \/ (x = k /\ is_object_prototype_key k = false)).
  { intros x. rewrite Hm2, keys_ensure, K1. tauto. }
  assert (N2 : forall x, node_of m2 x = node_of m1 x).
  { intros x. rewrite Hm2. apply node_of_ensure. }
  destruct Hrest as [(Ht & m3 & r3 & Hw3 & ->)|(Hf & ->)]; cbn [fst].
  - apply write_inv in Hw3.
    destruct Hw3 as [_ [(k' & Hnn & _ & ->)|(n & Hnn & _ & ->)]].
    + assert (k' = k).
      { destruct (ensure_ref _ _ _ _ He) as [[Hr _]|[Hr _]]; congruence. }
      subst k'.
      split; [|split].
      * intros x b Hedge. apply D1. rewrite <- N2. apply edge_iff in Hedge.
        rewrite node_of_update in Hedge. unfold node_of.
        destruct (obj_get m2 x) as [nx|]; [|destruct Hedge].
        now destruct (k =? x)%string.
      * intros x b Hin. apply parents_iff in Hin. rewrite node_of_update in Hin.
        rewrite parents_iff, <- U1, <- N2. unfold node_of.
        destruct (obj_get m2 b) as [nb|]; [|destruct Hin].
        destruct (String.eqb_spec k b) as [<-|_]; [|auto].
        cbn in Hin. apply In_assign_true_inv in Hin. destruct Hin as [->|Hin]; [|auto].
        right. destruct job_id as [a|]; [|discriminate]. auto.
      * intros x. rewrite keys_update. apply K2.
    + destruct (ensure_ref _ _ _ _ He) as [[Hr _]|[Hr _]]; congruence.
  - split; [|split].
    + intros x b Hedge. apply D1. rewrite <- N2. now apply edge_iff.
    + intros x b Hin. left. rewrite parents_iff, <- U1, <- N2. now apply parents_iff.
    + exact K2.
Qed.

Lemma truthy_str_some x : truthy_str (Some x) = true <-> x <> "".
Proof.
  cbn. destruct (String.eqb_spec x ""); cbn; split; congruence.
Qed.

(** What one round of the outer loop can add. *)
Lemma visit_adds jobIdx model job w model' :
  visit jobIdx model job = (w, Normal model') ->
  (forall x b, edge model' x b ->
     edge model x b \/
     (str_prop job "id" = Some x /\ x <> "" /\ In b (mapping_targets job))) /\
  (forall x b, In x (parents model' b) ->
     In x (parents model b) \/
     (str_prop job "id" = Some x /\ x <> "" /\ In b (mapping_targets job))) /\
  (forall x, In x (map fst model') ->
     In x (map fst model) \/
     (str_prop job "id" = Some x /\ x <> "" /\ is_object_prototype_key x = false) \/
     (In x (mapping_targets job) /\ jobIdx_has jobIdx x = true /\
      is_object_prototype_key x = false)).
Proof.
  intros H.
  destruct (entry_facts model job) as (_ & _ & _ & N0 & Hentry).
  assert (E0 : forall x b, edge (fst (entry model job)) x b -> edge model x b).
  { intros x b. now rewrite !edge_iff, N0. }
  assert (P0 : forall x b, In x (parents (fst (entry model job)) b) ->
                           In x (parents model b)).
  { intros x b. now rewrite !parents_iff, N0. }
  assert (K0 : forall x, In x (map fst (fst (entry model job))) ->
             In x (map fst model) \/
             (str_prop job "id" = Some x /\ x <> "" /\ is_object_prototype_key x = false)).
  { intros x. unfold entry.
    destruct (truthy_str (str_prop job "id")) eqn:Et; cbn [fst]; [|auto].
    destruct (str_prop job "id") as [a|] eqn:Eid; [|discriminate].
    cbn [display]. rewrite keys_ensure. intros [Hin|[-> Hp]]; [auto|].
    right. split; [reflexivity|]. split; [now apply truthy_str_some | exact Hp]. }
  destruct (visit_inv _ _ _ _ _ H) as [(t & _ & _ & -> & _)|(Hmap & st' & Hf & ->)].
  { split; [|split]; intros; [left; auto | left; auto |].
    destruct (K0 _ H0) as [?|?]; auto. }
  apply (foldM_invariant_in (link jobIdx (str_prop job "id"))
           (fun st =>
              (forall a, snd st = Ref a ->
                         str_prop job "id" = Some a /\ a <> "") /\
              (forall x b, edge (fst st) x b ->
                 edge model x b \/
                 (str_prop job "id" = Some x /\ x <> "" /\ In b (mapping_targets job))) /\
              (forall x b, In x (parents (fst st) b) ->
                 In x (parents model b) \/
                 (str_prop job "id" = Some x /\ x <> "" /\ In b (mapping_targets job))) /\
              (forall x, In x (map fst (fst st)) ->
                 In x (map fst model) \/
                 (str_prop job "id" = Some x /\ x <> "" /\
                  is_object_prototype_key x = false) \/
                 (In x (mapping_targets job) /\ jobIdx_has jobIdx x = true /\
                  is_object_prototype_key x = false)))) in Hf.
  - destruct Hf as (_ & He & Hp & Hk). auto.
  - intros s k w0 s' Hk Hl (Rs & Es & Ps & Ks).
    assert (Hkt : In k (mapping_targets job)) by (apply mapping_targets_iff; auto).
    destruct (link_adds _ _ _ _ _ _ Hl) as (Hhas & Ea & Pa & Ka).
    destruct (link_preserves _ _ _ _ _ _ Hl) as (_ & _ & _ & R1 & L1).
    split; [|split; [|split]].
    + intros a Ha. destruct (snd s) as [a0|n|] eqn:Hs.
      * rewrite (R1 a0 eq_refl) in Ha. injection Ha as <-. now apply Rs.
      * destruct (L1 n eq_refl) as [n' Hn']. congruence.
      * exfalso. destruct (link_inv _ _ _ _ _ _ Hl) as (_ & _ & m1 & r1 & _ & _ & Hw1 & _).
        rewrite Hs in Hw1. discriminate.
    + intros x b Hedge. destruct (Ea _ _ Hedge) as [Hold|[Href ->]]; [auto|].
      right. destruct (Rs _ Href). auto.
    + intros x b Hin. destruct (Pa _ _ Hin) as [Hold|(Hid & Ht & ->)]; [auto|].
      right. rewrite Hid in Ht. apply truthy_str_some in Ht. auto.
    + intros x Hin. destruct (Ka _ Hin) as [Hold|[-> Hp]]; [auto|].
      right; right. auto.
  - split; [|split; [|split]].
    + intros a Ha.
      destruct Hentry as [(_ & n & Hn)|(a' & Hid & Ht & [Hfor|[Href _]])]; try congruence.
      rewrite Href in Ha. injection Ha as <-. split; [exact Hid|].
      rewrite Hid in Ht. now apply truthy_str_some.
    + intros x b Hedge. left. auto.
    + intros x b Hin. left. auto.
    + intros x Hin. destruct (K0 _ Hin); auto.
Qed.

Lemma build_loop_adds plan w model :
  build_loop plan (steps_of plan) [] = (w, Normal model) ->
  (forall x b, edge model x b -> declares_edge (steps_of plan) x b) /\
  (forall x b, In x (parents model b) -> declares_edge (steps_of plan) x b) /\
  (forall x, In x (map fst model) ->
     is_object_prototype_key x = false /\
     ((x <> "" /\ exists job, In job (steps_of plan) /\ str_prop job "id" = Some x) \/
      jobIdx_has (jobIdx_of (steps_of plan)) x = true)).
Proof.
  unfold build_loop. intros H.
  apply (foldM_invariant_in (visit (jobIdx_of (steps_of plan)))
           (fun m =>
              (forall x b, edge m x b -> declares_edge (steps_of plan) x b) /\
              (forall x b, In x (parents m b) -> declares_edge (steps_of plan) x b) /\
              (forall x, In x (map fst m) ->
                 is_object_prototype_key x = false /\
                 ((x <> "" /\ exists job, In job (steps_of plan) /\
                                          str_prop job "id" = Some x) \/
                  jobIdx_has (jobIdx_of (steps_of plan)) x = true)))) in H.
  - exact H.
  - intros s job w0 s' Hjob Hv (Es & Ps & Ks).
    destruct (visit_adds _ _ _ _ _ Hv) as (Ea & Pa & Ka).
    split; [|split].
    + intros x b Hedge. destruct (Ea _ _ Hedge) as [Hold|(Hid & Hne & Hb)]; [auto|].
      exists job. auto.
    + intros x b Hin. destruct (Pa _ _ Hin) as [Hold|(Hid & Hne & Hb)]; [auto|].
      exists job. auto.
    + intros x Hin.
      destruct (Ka _ Hin) as [Hold|[(Hid & Hne & Hp)|(Hx & Hhas & Hp)]]; [auto| |].
      * split; [exact Hp|]. left. split; [exact Hne|]. exists job. auto.
      * split; [exact Hp|]. now right.
  - split; [|split].
    + intros x b [].
    + intros x b [].
    + intros x [].
Qed.

(** In the model that [buildModel] returns, there is a [down] edge from [a]
    to [b] exactly when some step with the non-empty id [a] names [b] in a
    mapping-form [next], and [a] is among the upstream neighbours of [b]
    exactly then too: the two directions always agree. *)
Theorem model_edges_are_the_declared_edges :
  forall plan w model,
    buildModel plan = (w, Normal model) ->
    forall a b,
      (edge model a b <-> declares_edge (steps_of plan) a b) /\
      (In a (parents model b) <-> declares_edge (steps_of plan) a b).
Proof.
  intros plan w model Hbuild a b.
  destruct (buildModel_loop _ _ _ Hbuild) as [w1 Hloop].
  destruct (build_loop_adds _ _ _ Hloop) as (He & Hp & _).
  assert (Hrec : declares_edge (steps_of plan) a b ->
                 In a (parents model b) /\ edge model a b).
  { intros (job & Hjob & Hid & Hne & Hb). apply mapping_targets_iff in Hb.
    destruct Hb as [Hmap Hb].
    exact (buildModel_records _ _ _ Hbuild job a b Hjob Hid Hne Hmap Hb). }
  split; split; auto; intros H; now apply Hrec.
Qed.

Lemma model_edges_are_the_declared_edges_witness :
  edge Examples.model_fan_in "b" "z" /\ In "c" (parents Examples.model_fan_in "z").
Proof.
  destruct (model_edges_are_the_declared_edges Examples.plan_fan_in []
              Examples.model_fan_in ltac:(vm_compute; reflexivity) "b" "z") as [Hedge _].
  destruct (model_edges_are_the_declared_edges Examples.plan_fan_in []
              Examples.model_fan_in ltac:(vm_compute; reflexivity) "c" "z") as [_ Hpar].
  split.
  - apply Hedge. exists (Examples.job "b" (Examples.to ["z"])).
    split; [cbn; auto|]. split; [reflexivity|]. split; [discriminate | cbv; auto].
  - apply Hpar. exists (Examples.job "c" (Examples.to ["z"])).
    split; [cbn; auto|]. split; [reflexivity|]. split; [discriminate | cbv; auto].
Defined.

Lemma jobIdx_found_is_declared steps t :
  no_proto_id steps -> is_object_prototype_key t = false ->
  jobIdx_has (jobIdx_of steps) t = true -> declared steps t.
Proof.
  intros Hplain Hproto. unfold jobIdx_of.
  assert (Hinv : forall l acc,
             incl l steps ->
             idx_proto acc = None ->
             (forall v, obj_get (idx_own acc) t = Some v -> declared steps t) ->
             idx_proto (fold_left jobIdx_add l acc) = None /\
             (forall v, obj_get (idx_own (fold_left jobIdx_add l acc)) t = Some v ->
                        declared steps t)).
  { induction l as [|step r IH]; intros acc Hincl Hp Ho; cbn [fold_left]; [auto|].
    assert (Hstep : In step steps) by (apply Hincl; now left).
    apply IH; [intros x Hx; apply Hincl; now right | |];
      unfold jobIdx_add; destruct (str_prop step "id") as [id|] eqn:Eid; auto;
      destruct (String.eqb_spec id "") as [->|Hne]; cbn [negb]; auto;
      destruct (String.eqb_spec id "__proto__") as [->|Hnp];
      try (exfalso; apply (Hplain step Hstep); exact Eid); cbn [idx_own idx_proto]; auto.
    intros v. destruct (String.eqb_spec id t) as [->|Hd].
    - intros _. split; [exact Hne|]. exists step. auto.
    - rewrite obj_get_set_other by exact Hd. apply Ho. }
  destruct (Hinv steps (mkIdx [] None) (incl_refl _) eq_refl) as [Hp Ho];
    [discriminate|].
  unfold jobIdx_has. destruct (obj_get _ t) as [v|] eqn:Ev.
  - intros _. eapply Ho; eauto.
  - rewrite Hp, Hproto. discriminate.
Qed.

Lemma visit_adds_own_node jobIdx model job w model' a :
  visit jobIdx model job = (w, Normal model') ->
  str_prop job "id" = Some a -> a <> "" -> is_object_prototype_key a = false ->
  In a (map fst model').
Proof.
  intros H Hid Hne Hp.
  assert (H0 : In a (map fst (fst (entry model job)))).
  { unfold entry. rewrite Hid. apply truthy_str_some in Hne. rewrite Hne.
    cbn [display]. apply keys_ensure. now right. }
  destruct (visit_inv _ _ _ _ _ H) as [(t & _ & _ & -> & _)|(_ & st' & Hf & ->)];
    [exact H0|].
  destruct (links_preserve _ _ _ _ _ _ Hf) as (_ & _ & E). now apply (E a).
Qed.

(** In a plan without a step named [__proto__], the ids of the model that
    [buildModel] returns are exactly the non-empty ids the steps declare,
    apart from names that objects inherit: every declared step has a node,
    with or without edges, and no node stands for an id that no step
    declares. *)
Theorem model_ids_are_the_declared_ids :
  forall plan w model,
    buildModel plan = (w, Normal model) ->
    no_proto_id (steps_of plan) ->
    forall x,
      In x (obj_keys model) <->
      (declared (steps_of plan) x /\ is_object_prototype_key x = false).
Proof.
  intros plan w model Hbuild Hplain x.
  destruct (buildModel_loop _ _ _ Hbuild) as [w1 Hloop].
  rewrite In_obj_keys. split.
  - intros Hin. destruct (build_loop_adds _ _ _ Hloop) as (_ & _ & Hk).
    destruct (Hk x Hin) as [Hp [[Hne Hdecl]|Hhas]].
    + split; [split|]; assumption.
    + split; [now apply jobIdx_found_is_declared | exact Hp].
  - intros [[Hne (job & Hjob & Hid)] Hp]. revert x Hid Hne Hp.
    unfold build_loop in Hloop.
    apply (foldM_each (visit (jobIdx_of (steps_of plan))) (fun _ => True)
             (fun job m => forall x, str_prop job "id" = Some x -> x <> "" ->
                                     is_object_prototype_key x = false ->
                                     In x (map fst m)))
      with (l := steps_of plan) (s := []) (w := w1); auto.
    + intros s0 job0 w0 s' Hv _. split; [exact I|].
      intros x Hid Hne Hp. eapply visit_adds_own_node; eauto.
    + intros s0 job0 w0 s' y Hv _ Hq x Hid Hne Hp.
      destruct (visit_preserves _ _ _ _ _ Hv) as (_ & _ & E).
      apply (E x). now apply Hq.
Qed.

Lemma model_ids_are_the_declared_ids_witness :
  In "z" (obj_keys Examples.model_fan_in) <->
  (declared (steps_of Examples.plan_fan_in) "z" /\ is_object_prototype_key "z" = false).
Proof.
  apply (model_ids_are_the_declared_ids Examples.plan_fan_in [] Examples.model_fan_in).
  - vm_compute. reflexivity.
  - intros step Hin. cbn in Hin.
    destruct Hin as [<-|[<-|[<-|[<-|[]]]]]; discriminate.
Defined.

End ModelIsPlanGraph.

(* ================================================================== *)
(** ** What validate accepts *)
(* ================================================================== *)

Section AcceptedPlans.
Import JS Zod Outcome ValidatePlan Stages Graph Schema Acceptance.

Lemma assertStart_cases plan :
  (start_found plan /\ assertStart plan = ret tt) \/
  (exists start,
      str_prop (options_of plan) "start" = Some start /\
      (forall step, In step (steps_of plan) -> str_prop step "id" <> Some start) /\
      assertStart plan = throw (ValidationError (start_message start))).
Proof.
  unfold assertStart, start_found.
  destruct (str_prop (options_of plan) "start") as [start|]; [|left; split; [discriminate | reflexivity]].
  destruct (existsb _ (steps_of plan)) eqn:E.
  - left. split; [|reflexivity]. intros s [= <-].
    apply existsb_exists in E. destruct E as (step & Hin & Hid).
    exists step. split; [exact Hin|].
    destruct (str_prop step "id") as [id|]; [|discriminate].
    apply String.eqb_eq in Hid. now subst.
  - right. exists start. split; [reflexivity|]. split; [|reflexivity].
    intros step Hin Hid.
    assert (Hfalse : existsb (fun step => match str_prop step "id" with
                                          | Some id => (id =? start)%string
                                          | None => false
                                          end) (steps_of plan) = true).
    { apply existsb_exists. exists step. split; [exact Hin|].
      rewrite Hid. apply String.eqb_refl. }
    congruence.
Qed.

Lemma forEach_never_throws {A} (f : A -> M unit) l :
  (forall x, snd (f x) = Normal tt) -> snd (forEach f l) = Normal tt.
Proof.
  intros Hf. induction l as [|x r IH]; [reflexivity|].
  rewrite forEach_cons. specialize (Hf x).
  destruct (f x) as [w c]; cbn [snd] in Hf; subst c.
  rewrite bind_normal. exact IH.
Qed.

Lemma assertValidOptions_warns options :
  snd (assertValidOptions options) = Normal tt.
Proof.
  apply forEach_never_throws. intros key.
  now destruct (existsb (String.eqb key) validOptionsKeys).
Qed.

Lemma assertUnreferencedSteps_warns model :
  snd (assertUnreferencedSteps model) = Normal tt.
Proof.
  apply forEach_never_throws. intros id.
  now destruct (negb _ && _).
Qed.

Lemma single_input_find model :
  find (fan_in model) (obj_keys model) = None <-> single_input model.
Proof.
  split.
  - intros Hnone x. destruct (fan_in model x) eqn:E; [|reflexivity].
    assert (Hin : In x (obj_keys model)).
    { unfold fan_in in E. apply Nat.ltb_lt in E.
      destruct (parents model x) as [|a r] eqn:Ep; [cbn in E; lia|].
      apply (parent_has_node model x a). rewrite Ep. now left. }
    pose proof (find_none _ _ Hnone x Hin). congruence.
  - intros Hs. destruct (find (fan_in model) (obj_keys model)) as [y|] eqn:E; [|reflexivity].
    apply find_some in E. destruct E as [_ E]. rewrite Hs in E. discriminate.
Qed.

Lemma snd_normal (m : M unit) : snd m = Normal tt -> m = (fst m, Normal tt).
Proof. destruct m as [w c]; cbn; now intros ->. Qed.

Lemma bind_returns {A B} (m : M A) (k : A -> M B) b :
  snd (bind m k) = Normal b ->
  exists a, snd m = Normal a /\ snd (k a) = Normal b.
Proof.
  destruct m as [w [a|e]]; cbn; [|discriminate].
  destruct (k a) as [w' c] eqn:E. cbn. intros ->. exists a. now rewrite E.
Qed.

Lemma after_model_accepts stack plan model :
  snd (after_model stack plan model) = Normal true <->
  snd (assertNoCircularReferences stack model) = Normal tt /\
  single_input model /\
  first_step_error (steps_of plan) = None /\
  NoDup (ids_of (steps_of plan)).
Proof.
  unfold after_model. split.
  - intros H.
    apply bind_returns in H. destruct H as ([] & Hcycle & H).
    apply bind_returns in H. destruct H as ([] & Hsingle & H).
    apply bind_returns in H. destruct H as ([] & Hkeys & H).
    apply bind_returns in H. destruct H as ([] & _ & H).
    apply bind_returns in H. destruct H as ([] & Hids & _).
    split; [exact Hcycle|]. split; [|split].
    + apply single_input_find. rewrite assertSingletonDependencies_find in Hsingle.
      destruct (find (fan_in model) (obj_keys model)); [discriminate | reflexivity].
    + rewrite assertStepKeys_first_error in Hkeys.
      destruct (first_step_error (steps_of plan)); [discriminate | reflexivity].
    + destruct (duplicate_check_cases (steps_of plan))
        as [[Hall _]|(pre & id & post & _ & _ & _ & Hthrow)]; [exact Hall|].
      rewrite Hthrow in Hids. discriminate.
  - intros (Hcycle & Hsingle & Hkeys & Hids).
    rewrite (snd_normal _ Hcycle), bind_normal.
    rewrite assertSingletonDependencies_find.
    apply single_input_find in Hsingle. rewrite Hsingle, bind_ret.
    rewrite assertStepKeys_first_error, Hkeys, bind_ret.
    rewrite (snd_normal _ (assertValidOptions_warns (options_of plan))), bind_normal.
    destruct (duplicate_check_cases (steps_of plan))
      as [[_ Hok]|(pre & id & post & Heq & _ & Hin & _)].
    2:{ exfalso. rewrite Heq in Hids. now apply (repeated_not_NoDup pre post id). }
    rewrite Hok, bind_ret.
    rewrite (snd_normal _ (assertUnreferencedSteps_warns model)), bind_normal.
    reflexivity.
Qed.

(** [validate] returns [true] only for a plan that the schema accepts, whose
    start id is found, whose model is free of cycles and obeys the
    single-input rule, whose steps have no adaptor without expression and no
    unrecognised key, and whose id values are pairwise distinct; and it
    returns [true] for every such plan when the call stack is deeper than
    the number of ids plus one. *)
Theorem validate_accepts_exactly :
  forall stack plan w model,
    buildModel plan = (w, Normal model) ->
    (snd (validate stack plan) = Normal true ->
     schema_issues plan = [] /\ start_found plan /\ acyclic model /\
     single_input model /\ first_step_error (steps_of plan) = None /\
     NoDup (ids_of (steps_of plan))) /\
    (schema_issues plan = [] -> start_found plan -> acyclic model ->
     single_input model -> first_step_error (steps_of plan) = None ->
     NoDup (ids_of (steps_of plan)) -> S (List.length model) < stack ->
     snd (validate stack plan) = Normal true).
Proof.
  intros stack plan w model Hbuild.
  destruct (buildModel_closed _ _ _ Hbuild) as [Hclosed _].
  split.
  - intros Hret.
    assert (Hschema : fst (parse executionPlanSchema [] plan) = Valid).
    { unfold validate in Hret.
      destruct (parse executionPlanSchema [] plan) as [[| |] issues];
        [reflexivity | discriminate | discriminate]. }
    rewrite (validate_schema_ok _ _ Hschema) in Hret.
    destruct (assertStart_cases plan) as [[Hfound Hstart]|(start & _ & _ & Hstart)];
      rewrite Hstart in Hret; [|discriminate].
    rewrite bind_ret, Hbuild, bind_normal in Hret. cbn [snd] in Hret.
    apply after_model_accepts in Hret. destruct Hret as (Hcycle & Hs & Hk & Hi).
    split; [now apply schema_valid_iff|]. split; [exact Hfound|].
    split; [|auto]. intros x. now apply (cycle_check_passes_acyclic stack model).
  - intros Hschema Hfound Hacyclic Hs Hk Hi Hdeep.
    apply schema_valid_iff in Hschema.
    rewrite (validate_schema_ok _ _ Hschema).
    destruct (assertStart_cases plan) as [[_ Hstart]|(start & Hopt & Hnone & _)].
    2:{ exfalso. destruct (Hfound _ Hopt) as (step & Hin & Hid). now apply (Hnone step). }
    rewrite Hstart, bind_ret, Hbuild, bind_normal. cbn [snd].
    apply after_model_accepts. split; [|auto].
    now rewrite (acyclic_check_passes model stack Hclosed Hacyclic Hdeep).
Qed.

End AcceptedPlans.

Section AcceptedPlansWitness.
Import JS Zod Outcome ValidatePlan Stages Graph Schema Acceptance Inputs.

Lemma validate_accepts_exactly_witness :
  snd (validate 6 plan_chain) = Normal true /\
  acyclic model_chain /\ single_input model_chain.
Proof.
  destruct (validate_accepts_exactly 6 plan_chain [] model_chain
              ltac:(vm_compute; reflexivity)) as [Hto Hfrom].
  destruct (Hto ltac:(vm_compute; reflexivity)) as (H1 & H2 & H3 & H4 & H5 & H6).
  split; [|split; assumption].
  apply Hfrom; try assumption. cbn. lia.
Defined.

(** A plan whose steps array is empty has an empty model, so no search is
    made: when the schema accepts it, [validate] either raises the start
    error, if [options.start] is a string, or warns that the steps array is
    empty, warns about each unrecognised option, and returns [true], on any
    call stack. *)
Theorem empty_plan_is_accepted_with_a_warning :
  forall stack plan,
    schema_issues plan = [] ->
    steps_of plan = [] ->
    (forall start, str_prop (options_of plan) "start" = Some start ->
       validate stack plan = ([], Throw (ValidationError (start_message start)))) /\
    (str_prop (options_of plan) "start" = None ->
       validate stack plan =
       (empty_steps_warning :: fst (assertValidOptions (options_of plan)), Normal true)).
Proof.
  intros stack plan Hschema Hsteps.
  apply schema_valid_iff in Hschema.
  rewrite (validate_schema_ok _ _ Hschema).
  unfold assertStart, buildModel, after_model, assertValidStepIds.
  rewrite Hsteps. cbn [List.length Nat.eqb forEach_indexed foldM existsb].
  split.
  - intros start ->. reflexivity.
  - intros ->. rewrite !bind_ret.
    change (assertNoCircularReferences stack []) with (@ret unit tt).
    change (assertSingletonDependencies []) with (@ret unit tt).
    change (assertUnreferencedSteps []) with (@ret unit tt).
    unfold assertStepKeys.
    rewrite Hsteps.
    rewrite (snd_normal _ (assertValidOptions_warns (options_of plan))).
    unfold warn, ret. cbn. now rewrite !app_nil_r.
Qed.

Lemma empty_plan_is_accepted_with_a_warning_witness :
  validate 0 plan_empty =
  ([empty_steps_warning; "Warning: Unrecognized option 'unrecognizedOption'"],
   Normal true).
Proof.
  destruct (empty_plan_is_accepted_with_a_warning 0 plan_empty
              ltac:(vm_compute; reflexivity) ltac:(vm_compute; reflexivity)) as [_ H].
  rewrite H; [|vm_compute; reflexivity]. vm_compute. reflexivity.
Defined.

Lemma assertNoCircularReferences_deeper stack model :
  snd (assertNoCircularReferences stack model) <> Throw RangeError ->
  assertNoCircularReferences (S stack) model = assertNoCircularReferences stack model.
Proof.
  unfold assertNoCircularReferences.
  induction (obj_keys model) as [|x r IH]; [reflexivity|].
  rewrite !forEach_cons.
  destruct (search stack model x x Down) as [[]|e] eqn:Es.
  - rewrite (search_deeper _ _ _ _ _ Es) by discriminate.
    change (lift (Normal tt)) with (@ret unit tt). rewrite !bind_ret. exact IH.
  - cbn [lift bind snd]. intros Hne.
    rewrite (search_deeper _ _ _ _ _ Es) by congruence. reflexivity.
Qed.

(** The outcome of [validate] does not depend on how much call stack is
    left, as long as the search does not run out of it: whatever it returns
    or raises, other than the engine's RangeError, on one stack it returns
    or raises, with the same warnings, on every deeper one. *)
Theorem deeper_stack_same_outcome :
  forall stack stack' plan,
    stack <= stack' ->
    snd (validate stack plan) <> Throw RangeError ->
    validate stack' plan = validate stack plan.
Proof.
  intros stack stack' plan Hle Hne.
  induction Hle as [|n Hle IH]; [reflexivity|]. rewrite <- IH.
  assert (Hn : snd (validate n plan) <> Throw RangeError) by now rewrite IH.
  clear IH Hne. unfold validate in *.
  destruct (parse executionPlanSchema [] plan) as [[| |] issues]; try reflexivity.
  destruct (assertStart plan) as [w0 [[]|e0]]; [|reflexivity].
  rewrite !bind_normal in *. cbn [snd] in Hn.
  destruct (buildModel plan) as [w1 [model|e1]]; [|reflexivity].
  rewrite !bind_normal in *. cbn [snd] in Hn.
  rewrite assertNoCircularReferences_deeper; [reflexivity|].
  intros Hover. apply Hn.
  destruct (assertNoCircularReferences n model) as [w2 c]; cbn [snd] in Hover.
  now subst c.
Qed.

Lemma deeper_stack_same_outcome_witness :
  validate 50 Examples.plan_two_cycle = validate 2 Examples.plan_two_cycle.
Proof.
  apply deeper_stack_same_outcome; [lia | vm_compute; discriminate].
Defined.

End AcceptedPlansWitness.

(* ================================================================== *)
(** ** The warnings about unreferenced steps *)
(* ================================================================== *)

Section UnreferencedSteps.
Import JS Zod Outcome ValidatePlan Stages Graph Schema Acceptance ModelShape Warnings Inputs.

Lemma forEach_warn_filter {A} (c : A -> bool) (m : A -> string) l :
  forEach (fun x => if c x then warn (m x) else ret tt) l =
  (map m (filter c l), Normal tt).
Proof.
  induction l as [|x r IH]; [reflexivity|].
  rewrite forEach_cons, IH. cbn [filter].
  destruct (c x); reflexivity.
Qed.

Lemma forEach_ext_in {A} (f g : A -> M unit) l :
  (forall x, In x l -> f x = g x) -> forEach f l = forEach g l.
Proof.
  induction l as [|x r IH]; intros H; [reflexivity|].
  rewrite !forEach_cons, (H x) by now left.
  rewrite IH; [reflexivity|]. intros y Hy. apply H. now right.
Qed.

Lemma built_edges_agree plan w model :
  buildModel plan = (w, Normal model) ->
  forall a b, In a (parents model b) -> edge model a b.
Proof.
  intros Hbuild a b Hin.
  destruct (buildModel_loop _ _ _ Hbuild) as [w1 Hloop].
  destruct (build_loop_adds _ _ _ Hloop) as (_ & Hp & _).
  destruct (Hp _ _ Hin) as (job & Hjob & Hid & Hne & Hb).
  apply mapping_targets_iff in Hb. destruct Hb as [Hmap Hb].
  exact (proj2 (buildModel_records _ _ _ Hbuild job a b Hjob Hid Hne Hmap Hb)).
Qed.

Lemma edge_has_node model a b : edge model a b -> In a (obj_keys model).
Proof.
  unfold edge, children. intros H. apply In_obj_keys.
  destruct (obj_get model a) eqn:E; [eapply obj_get_In; eauto | destruct H].
Qed.

Lemma referenced_iff model id :
  In id (referencedSteps model) <->
  exists n, In n (obj_keys model) /\ (In id (parents model n) \/ edge model n id).
Proof.
  unfold referencedSteps. rewrite in_flat_map.
  split; intros (n & Hn & H); exists n; (split; [exact Hn|]);
    rewrite in_app_iff in *; unfold edge, parents in *;
    rewrite children_node_of in *; exact H.
Qed.

Lemma unreferenced_is_isolated plan w model id :
  buildModel plan = (w, Normal model) ->
  negb (existsb (String.eqb id) (referencedSteps model))
  && Nat.eqb (List.length (obj_keys (down (node_of model id)))) 0 = isolated model id.
Proof.
  intros Hbuild.
  pose proof (buildModel_mirrored _ _ _ Hbuild) as Hmir.
  pose proof (built_edges_agree _ _ _ Hbuild) as Hagree.
  unfold isolated. rewrite <- children_node_of.
  destruct (children model id) as [|c cs] eqn:Ec; cbn [List.length Nat.eqb];
    [|now rewrite andb_false_r].
  rewrite andb_true_r.
  destruct (parents model id) as [|p ps] eqn:Ep.
  - destruct (existsb _ _) eqn:Ex; [|reflexivity].
    apply existsb_exists in Ex. destruct Ex as (y & Hy & Heq).
    apply String.eqb_eq in Heq. subst y.
    apply referenced_iff in Hy. destruct Hy as (n & _ & [Hup|Hdown]).
    + apply Hagree in Hup. unfold edge in Hup. rewrite Ec in Hup. destruct Hup.
    + apply Hmir in Hdown. rewrite Ep in Hdown. destruct Hdown.
  - assert (Hp : In p (parents model id)) by (rewrite Ep; now left).
    apply Hagree in Hp.
    assert (Hin : In id (referencedSteps model)).
    { apply referenced_iff. exists p. split; [eapply edge_has_node; eauto | now right]. }
    assert (Ex : existsb (String.eqb id) (referencedSteps model) = true).
    { apply existsb_exists. exists id. split; [exact Hin | apply String.eqb_refl]. }
    now rewrite Ex.
Qed.

(** On the model that [buildModel] returns, [assertUnreferencedSteps] never
    raises, and it warns, in the model's order, about exactly the steps that
    have no edge at all, neither in nor out. A step that nothing points to
    but that has a successor, such as the first step of a chain, is not
    warned about. *)
Theorem unreferenced_warnings_name_the_isolated_steps :
  forall plan w model,
    buildModel plan = (w, Normal model) ->
    assertUnreferencedSteps model =
    (map unreferenced_message (filter (isolated model) (obj_keys model)), Normal tt).
Proof.
  intros plan w model Hbuild.
  rewrite <- forEach_warn_filter. unfold assertUnreferencedSteps.
  apply forEach_ext_in. intros id _.
  now rewrite (unreferenced_is_isolated _ _ _ id Hbuild).
Qed.

Lemma unreferenced_warnings_name_the_isolated_steps_witness :
  assertUnreferencedSteps model_chain = ([unreferenced_message "d"], Normal tt).
Proof.
  rewrite (unreferenced_warnings_name_the_isolated_steps plan_chain [] model_chain
             ltac:(vm_compute; reflexivity)).
  vm_compute. reflexivity.
Defined.

End UnreferencedSteps.

(* ================================================================== *)
(** ** Adaptor specifiers *)
(* ================================================================== *)

Section Specifiers.
Import EngineCompile.

Lemma lastIndexOf_absent c s i :
  occurs c s = false -> lastIndexOf_from i s c = (-1)%Z.
Proof.
  revert i. induction s as [|a r IH]; intros i H; [reflexivity|].
  cbn [occurs] in H. apply orb_false_iff in H. destruct H as [Ha Hr].
  cbn [lastIndexOf_from]. rewrite (IH _ Hr), Ha. reflexivity.
Qed.

Lemma lastIndexOf_last c pre post i :
  occurs c post = false -> (0 <= i)%Z ->
  lastIndexOf_from i (pre ++ String c post) c = (i + Z.of_nat (String.length pre))%Z.
Proof.
  intros Hpost. revert i. induction pre as [|a r IH]; intros i Hi.
  - cbn [append String.length lastIndexOf_from].
    rewrite (lastIndexOf_absent _ _ _ Hpost), Ascii.eqb_refl. cbn. lia.
  - cbn [append String.length lastIndexOf_from]. rewrite IH by lia.
    destruct (0 <=? i + 1 + Z.of_nat (String.length r))%Z eqn:E; [lia|].
    apply Z.leb_gt in E. lia.
Qed.

Lemma substring_prefix pre s :
  String.substring 0 (String.length pre) (pre ++ s) = pre.
Proof.
  induction pre as [|a r IH]; cbn; [now destruct s | now rewrite IH].
Qed.

(** [stripVersionSpecifier] undoes the appending of a version: for a
    non-empty name and a version without [@] it maps [name@version] back to
    [name]. The name may hold [@] itself, as a scoped package name does. *)
Theorem strip_removes_the_version :
  forall name version,
    name <> ""%string ->
    occurs "@" version = false ->
    stripVersionSpecifier (name ++ String "@" version) = name.
Proof.
  intros name version Hname Hversion.
  unfold stripVersionSpecifier, lastIndexOf.
  rewrite (lastIndexOf_last _ _ _ _ Hversion) by lia.
  destruct name as [|a r]; [contradiction|].
  replace (0 <? 0 + Z.of_nat (String.length (String a r)))%Z with true
    by (symmetry; apply Z.ltb_lt; cbn [String.length]; lia).
  rewrite Z.add_0_l, Nat2Z.id. apply substring_prefix.
Qed.

Lemma strip_removes_the_version_witness :
  stripVersionSpecifier "@openfn/language-common@1.2.3" = "@openfn/language-common"%string.
Proof.
  apply (strip_removes_the_version "@openfn/language-common" "1.2.3");
    [discriminate | reflexivity].
Defined.

(** A specifier with no [@] after its first character has no version to
    strip and is returned as it is: a plain name, a scoped name without a
    version, and the empty string. *)
Theorem strip_keeps_an_unversioned_specifier :
  forall specifier,
    occurs "@" (rest specifier) = false ->
    stripVersionSpecifier specifier = specifier.
Proof.
  intros [|a r] H; [reflexivity|]. cbn [rest] in H.
  unfold stripVersionSpecifier, lastIndexOf. cbn [lastIndexOf_from].
  rewrite (lastIndexOf_absent _ _ _ H).
  now destruct (Ascii.eqb a "@").
Qed.

Lemma strip_keeps_an_unversioned_specifier_witness :
  stripVersionSpecifier "@openfn/language-common" = "@openfn/language-common"%string.
Proof.
  apply strip_keeps_an_unversioned_specifier. reflexivity.
Defined.

End Specifiers.

(* ================================================================== *)
(** ** Attempts to plans *)
(* ================================================================== *)

Section ConversionFacts.
Import JS ConvertAttempt Conversion Attempts.

Lemma obj_set_twice {V} (o : jsobj V) k v v' :
  obj_set k v' (obj_set k v o) = obj_set k v' o.
Proof.
  induction o as [|[k0 v0] r IH]; cbn.
  - now rewrite String.eqb_refl.
  - destruct (k0 =? k)%string eqn:E; cbn; rewrite E; [reflexivity | now rewrite IH].
Qed.

Lemma or_trigger_nonempty x : or_trigger x <> ""%string.
Proof.
  destruct x as [s|]; cbn; [|discriminate].
  destruct (s =? "")%string eqn:E; [discriminate | now apply String.eqb_neq].
Qed.

Lemma assign_proto {V} (v : V) o : assign "__proto__" v o = o.
Proof. reflexivity. Qed.

Lemma assign_other {V} k (v : V) o :
  k <> "__proto__"%string -> assign k v o = obj_set k v o.
Proof. intros H. unfold assign. apply String.eqb_neq in H. now rewrite H. Qed.

Lemma assign_no_proto {V} k (v : V) o :
  obj_get o "__proto__" = None -> obj_get (assign k v o) "__proto__" = None.
Proof.
  intros H. unfold assign. destruct (k =? "__proto__")%string eqn:E; [exact H|].
  apply String.eqb_neq in E. now rewrite obj_get_set_other.
Qed.

Lemma set_next_assign id fields next nodes :
  obj_get nodes "__proto__" = None ->
  set_next id next (assign id (JObj fields) nodes) =
  assign id (JObj (obj_set "next" next fields)) nodes.
Proof.
  intros Hp. unfold assign, set_next.
  destruct (id =? "__proto__")%string eqn:E.
  - apply String.eqb_eq in E. subst id. now rewrite Hp.
  - now rewrite obj_get_set_same, obj_set_twice.
Qed.

Lemma convert_trigger_assign E nodes t :
  obj_get nodes "__proto__" = None ->
  convert_trigger E nodes t = assign (or_trigger (trigger_id t)) (trigger_node E t) nodes.
Proof.
  intros Hp. unfold convert_trigger, trigger_node.
  destruct (filter _ E) as [|e ces]; [reflexivity|].
  now rewrite set_next_assign.
Qed.

Lemma convert_job_assign E nodes j :
  obj_get nodes "__proto__" = None ->
  convert_job E nodes j = assign (or_trigger (job_id j)) (job_node E j) nodes.
Proof.
  intros Hp. unfold convert_job, job_node.
  destruct (obj_keys _) as [|k ks]; [reflexivity|].
  now rewrite set_next_assign.
Qed.

Section Folds.
Context {A V : Type} (key : A -> string) (val : A -> V).

Lemma assign_all_cons i r o :
  assign_all key val (i :: r) o = assign_all key val r (assign (key i) (val i) o).
Proof. reflexivity. Qed.

Lemma assign_all_app l r o :
  assign_all key val (l ++ r) o = assign_all key val r (assign_all key val l o).
Proof. unfold assign_all. now rewrite fold_left_app. Qed.

Lemma assign_all_no_proto l o :
  obj_get o "__proto__" = None -> obj_get (assign_all key val l o) "__proto__" = None.
Proof.
  revert o. induction l as [|i r IH]; intros o H; [exact H|].
  rewrite assign_all_cons. apply IH. now apply assign_no_proto.
Qed.

Lemma assign_all_get_other l o x :
  (forall i, In i l -> key i <> x) ->
  obj_get (assign_all key val l o) x = obj_get o x.
Proof.
  revert o. induction l as [|i r IH]; intros o H; [reflexivity|].
  rewrite assign_all_cons, IH by (intros; apply H; now right).
  unfold assign. destruct (key i =? "__proto__")%string; [reflexivity|].
  apply obj_get_set_other. apply H. now left.
Qed.

Lemma assign_all_get_last pre i post o :
  key i <> "__proto__"%string ->
  (forall i', In i' post -> key i' <> key i) ->
  obj_get (assign_all key val (pre ++ i :: post) o) (key i) = Some (val i).
Proof.
  intros Hk Hpost. rewrite assign_all_app, assign_all_cons.
  rewrite assign_all_get_other by exact Hpost.
  rewrite assign_other by exact Hk. apply obj_get_set_same.
Qed.

Lemma assign_all_keys l o x :
  In x (map fst (assign_all key val l o)) <->
  In x (map fst o) \/ (x <> "__proto__"%string /\ In x (map key l)).
Proof.
  revert o. induction l as [|i r IH]; intros o.
  - cbn. tauto.
  - rewrite assign_all_cons, IH. cbn [map In].
    unfold assign. destruct (key i =? "__proto__")%string eqn:E.
    + apply String.eqb_eq in E. split; [tauto|].
      intros [H|[Hx [H|H]]]; [tauto | congruence | tauto].
    + apply String.eqb_neq in E. rewrite In_keys_obj_set.
      split; [intros [[->|H]|H]; tauto | intros [H|[Hx [H|H]]]; [tauto | subst; tauto | tauto]].
Qed.

Lemma assign_all_NoDup l o :
  NoDup (map fst o) -> NoDup (map fst (assign_all key val l o)).
Proof.
  revert o. induction l as [|i r IH]; intros o H; [exact H|].
  rewrite assign_all_cons. apply IH.
  unfold assign. destruct (key i =? "__proto__")%string; [exact H|].
  rewrite keys_obj_set. unfold obj_has.
  destruct (obj_get o (key i)) eqn:E; [exact H|].
  apply obj_get_None in E.
  apply NoDup_app; [exact H | repeat constructor; intros [] |].
  intros x Hx [<-|[]]. contradiction.
Qed.

Lemma assign_all_values (P : string -> V -> Prop) l o :
  (forall k v, obj_get o k = Some v -> P k v) ->
  (forall i, In i l -> P (key i) (val i)) ->
  forall k v, obj_get (assign_all key val l o) k = Some v -> P k v.
Proof.
  revert o. induction l as [|i r IH]; intros o Ho Hl; [exact Ho|].
  rewrite assign_all_cons. apply IH; [|intros; apply Hl; now right].
  intros k v. unfold assign. destruct (key i =? "__proto__")%string; [apply Ho|].
  destruct (String.eqb (key i) k) eqn:E.
  - apply String.eqb_eq in E. subst k. rewrite obj_get_set_same.
    intros [= <-]. apply Hl. now left.
  - apply String.eqb_neq in E. rewrite obj_get_set_other by exact E. apply Ho.
Qed.

Lemma last_with_key l x :
  In x (map key l) ->
  exists pre i post, l = pre ++ i :: post /\ key i = x /\
                     forall i', In i' post -> key i' <> x.
Proof.
  induction l as [|i r IH]; [intros []|].
  intros Hin.
  destruct (in_dec string_dec x (map key r)) as [Hr|Hr].
  - destruct (IH Hr) as (pre & i0 & post & -> & Hk & Hpost).
    exists (i :: pre), i0, post. auto.
  - destruct Hin as [Hk|Hin]; [|contradiction].
    exists [], i, r. split; [reflexivity|]. split; [exact Hk|].
    intros i' Hi' Heq. apply Hr. rewrite <- Heq. now apply in_map.
Qed.

End Folds.

Lemma fold_convert_trigger E l nodes :
  obj_get nodes "__proto__" = None ->
  fold_left (convert_trigger E) l nodes =
  assign_all (fun t => or_trigger (trigger_id t)) (trigger_node E) l nodes.
Proof.
  revert nodes. induction l as [|t r IH]; intros nodes Hp; [reflexivity|].
  cbn [fold_left]. rewrite convert_trigger_assign, assign_all_cons by exact Hp.
  apply IH. now apply assign_no_proto.
Qed.

Lemma fold_convert_job E l nodes :
  obj_get nodes "__proto__" = None ->
  fold_left (convert_job E) l nodes =
  assign_all (fun j => or_trigger (job_id j)) (job_node E) l nodes.
Proof.
  revert nodes. induction l as [|j r IH]; intros nodes Hp; [reflexivity|].
  cbn [fold_left]. rewrite convert_job_assign, assign_all_cons by exact Hp.
  apply IH. now apply assign_no_proto.
Qed.

Lemma convert_nodes_eq a :
  convert_nodes a =
  assign_all (fun j => or_trigger (job_id j)) (job_node (list_of (edges a)))
             (list_of (jobs a))
             (assign_all (fun t => or_trigger (trigger_id t))
                         (trigger_node (list_of (edges a)))
                         (list_of (triggers a)) []).
Proof.
  unfold convert_nodes.
  fold (list_of (edges a)).
  set (E := list_of (edges a)).
  assert (Ht : match triggers a with
               | Some (t :: ts) => fold_left (convert_trigger E) (t :: ts) []
               | _ => []
               end = assign_all (fun t => or_trigger (trigger_id t)) (trigger_node E)
                                (list_of (triggers a)) []).
  { destruct (triggers a) as [[|t ts]|]; try reflexivity.
    now apply fold_convert_trigger. }
  rewrite Ht.
  destruct (jobs a) as [[|j js]|]; try reflexivity.
  apply fold_convert_job. now apply assign_all_no_proto.
Qed.

(** What every node of [nodes] looks like. *)
Lemma trigger_node_id E t :
  str_prop (trigger_node E t) "id" = Some (or_trigger (trigger_id t)).
Proof. unfold trigger_node. now destruct (filter _ E). Qed.

Lemma job_node_id E j :
  str_prop (job_node E j) "id" = Some (or_trigger (job_id j)).
Proof. unfold job_node. now destruct (obj_keys _). Qed.

Lemma convert_nodes_ids a k v :
  obj_get (convert_nodes a) k = Some v -> str_prop v "id" = Some k /\ k <> ""%string.
Proof.
  rewrite convert_nodes_eq.
  apply (assign_all_values _ _ (fun k v => str_prop v "id" = Some k /\ k <> ""%string)).
  - apply (assign_all_values _ _ (fun k v => str_prop v "id" = Some k /\ k <> ""%string)).
    + intros k0 v0 [=].
    + intros t _. split; [apply trigger_node_id | apply or_trigger_nonempty].
  - intros j _. split; [apply job_node_id | apply or_trigger_nonempty].
Qed.

Lemma convert_nodes_NoDup a : NoDup (obj_keys (convert_nodes a)).
Proof.
  unfold obj_keys.
  apply (Permutation_NoDup (Permutation_sym (key_order_perm _))).
  rewrite convert_nodes_eq. apply assign_all_NoDup, assign_all_NoDup. constructor.
Qed.

Lemma In_obj_values {V} (o : jsobj V) v :
  In v (obj_values o) <-> exists k, obj_get o k = Some v.
Proof.
  unfold obj_values. rewrite in_flat_map. split.
  - intros (k & _ & H). exists k. destruct (obj_get o k); [|destruct H].
    destruct H as [->|[]]. reflexivity.
  - intros (k & H). exists k. split.
    + apply In_obj_keys. eapply obj_get_In; eauto.
    + rewrite H. now left.
Qed.

Lemma ids_of_values (o : jsobj jsval) ks :
  (forall k, In k ks -> exists v, obj_get o k = Some v /\ str_prop v "id" = Some k) ->
  map (fun n => str_prop n "id")
      (flat_map (fun k => match obj_get o k with Some v => [v] | None => [] end) ks) =
  map Some ks.
Proof.
  induction ks as [|k r IH]; intros H; [reflexivity|].
  cbn [flat_map map]. destruct (H k (or_introl eq_refl)) as (v & -> & Hid).
  cbn [app map]. rewrite Hid, IH; [reflexivity|].
  intros k' Hk'. apply H. now right.
Qed.

Lemma NoDup_map_Some {A} (l : list A) : NoDup l -> NoDup (map Some l).
Proof.
  induction 1 as [|x l Hx _ IH]; cbn; constructor; [|exact IH].
  rewrite in_map_iff. intros (y & [= ->] & Hy). contradiction.
Qed.

Lemma node_ids_are_the_keys a :
  node_ids (convert_attempt a) = map Some (obj_keys (convert_nodes a)).
Proof.
  unfold node_ids, convert_attempt, obj_values. cbn [plan].
  apply ids_of_values. intros k Hk.
  apply In_obj_keys, In_obj_get in Hk. destruct Hk as [v Hv].
  exists v. split; [exact Hv|]. now apply (convert_nodes_ids a).
Qed.

(** The nodes of a converted plan have pairwise distinct ids, each a
    non-empty string, whatever ids the triggers and jobs of the attempt
    repeat or leave out. *)
Theorem converted_ids_are_distinct :
  forall attempt,
    NoDup (node_ids (convert_attempt attempt)) /\
    forall n, In n (plan (convert_attempt attempt)) ->
              exists x, str_prop n "id" = Some x /\ x <> ""%string.
Proof.
  intros a. split.
  - rewrite node_ids_are_the_keys.
    apply NoDup_map_Some, convert_nodes_NoDup.
  - intros n Hn. cbn [convert_attempt plan] in Hn.
    apply In_obj_values in Hn. destruct Hn as [k Hk].
    exists k. now apply (convert_nodes_ids a).
Qed.

Lemma node_in_plan a x v :
  obj_get (convert_nodes a) x = Some v ->
  In v (plan (convert_attempt a)) /\ str_prop v "id" = Some x.
Proof.
  intros H. split.
  - cbn [convert_attempt plan]. apply In_obj_values. eauto.
  - now apply (convert_nodes_ids a).
Qed.

(** The plan has a node with the id [x] exactly when a trigger or a job of
    the attempt is filed under [x], its own id or [trigger] when it has
    none, and [x] is not [__proto__]. *)
Theorem converted_ids_are_the_attempt_ids :
  forall attempt x,
    (exists n, In n (plan (convert_attempt attempt)) /\ str_prop n "id" = Some x) <->
    (x <> "__proto__"%string /\ (In x (trigger_ids attempt) \/ In x (job_ids attempt))).
Proof.
  intros a x.
  assert (Hkeys : In x (map fst (convert_nodes a)) <->
                  (x <> "__proto__"%string /\ (In x (trigger_ids a) \/ In x (job_ids a)))).
  { rewrite convert_nodes_eq, !assign_all_keys. unfold trigger_ids, job_ids.
    cbn [map In]. tauto. }
  rewrite <- Hkeys. split.
  - intros (n & Hn & Hid). cbn [convert_attempt plan] in Hn.
    apply In_obj_values in Hn. destruct Hn as [k Hk].
    destruct (convert_nodes_ids a _ _ Hk) as [Hid' _].
    rewrite Hid in Hid'. injection Hid' as <-. eapply obj_get_In; eauto.
  - intros Hin. apply In_obj_get in Hin. destruct Hin as [v Hv].
    exists v. now apply node_in_plan.
Qed.

Lemma job_next_keys E x t :
  In t (map fst (fold_left job_next (filter (fun e => is_id (source_job_id e) x) E) [])) <->
  exists e, In e E /\ leaves_job x e /\ target_job_id e = t.
Proof.
  change (fold_left job_next ?l []) with (assign_all target_job_id edge_value l []).
  rewrite assign_all_keys. cbn [map In]. rewrite in_map_iff. split.
  - intros [[]|(Ht & e & He & Hin)]. apply filter_In in Hin. destruct Hin as [Hin Hsrc].
    exists e. split; [exact Hin|]. split; [|exact He]. split; [|congruence].
    unfold is_id in Hsrc. destruct (source_job_id e) as [s|]; [|discriminate].
    apply String.eqb_eq in Hsrc. now subst.
  - intros (e & Hin & [Hsrc Ht] & He). right. split; [congruence|].
    exists e. split; [exact He|]. apply filter_In. split; [exact Hin|].
    unfold is_id. rewrite Hsrc. apply String.eqb_refl.
Qed.

Lemma is_id_iff x id : is_id x id = true <-> x = Some id.
Proof.
  unfold is_id. destruct x as [s|]; [|split; discriminate].
  rewrite String.eqb_eq. split; congruence.
Qed.

Lemma last_job_node a pre j post :
  jobs a = Some (pre ++ j :: post) ->
  or_trigger (job_id j) <> "__proto__"%string ->
  (forall j', In j' post -> or_trigger (job_id j') <> or_trigger (job_id j)) ->
  obj_get (convert_nodes a) (or_trigger (job_id j)) = Some (job_node (list_of (edges a)) j).
Proof.
  intros Hjobs Hx Hpost. rewrite convert_nodes_eq, Hjobs. cbn [list_of].
  now apply (assign_all_get_last (fun j => or_trigger (job_id j))).
Qed.

(** The last job filed under an id decides the node with that id: the node
    carries that job's credential, body and adaptor as [configuration],
    [expression] and [adaptor], whatever earlier jobs or triggers were filed
    under the same id, and it has a [next] exactly when some edge leaves
    the job for a target other than [__proto__]. *)
Theorem last_job_decides_the_node :
  forall attempt pre j post,
    jobs attempt = Some (pre ++ j :: post) ->
    or_trigger (job_id j) <> "__proto__"%string ->
    (forall j', In j' post -> or_trigger (job_id j') <> or_trigger (job_id j)) ->
    exists n,
      In n (plan (convert_attempt attempt)) /\
      str_prop n "id" = Some (or_trigger (job_id j)) /\
      get n "configuration" = credential j /\
      get n "expression" = of_string (body j) /\
      get n "adaptor" = of_string (adaptor j) /\
      (get n "next" = JUndefined <->
       forall e, In e (list_of (edges attempt)) -> ~ leaves_job (or_trigger (job_id j)) e).
Proof.
  intros a pre j post Hjobs Hx Hpost.
  pose proof (last_job_node a pre j post Hjobs Hx Hpost) as Hnode.
  exists (job_node (list_of (edges a)) j).
  destruct (node_in_plan _ _ _ Hnode) as [Hin Hid].
  split; [exact Hin|]. split; [exact Hid|].
  pose proof (job_next_keys (list_of (edges a)) (or_trigger (job_id j))) as Hkeys.
  unfold job_node in *.
  set (next := fold_left job_next _ []) in *.
  destruct (obj_keys next) as [|k ks] eqn:Ek.
  - repeat (split; [reflexivity|]). split; [|reflexivity].
    intros _ e He Hleaves.
    assert (Hk : In (target_job_id e) (obj_keys next)).
    { apply In_obj_keys, Hkeys. eauto. }
    rewrite Ek in Hk. destruct Hk.
  - repeat (split; [reflexivity|]). split; [discriminate|].
    intros Hnone. exfalso.
    assert (Hk : In k (obj_keys next)) by (rewrite Ek; now left).
    apply In_obj_keys, Hkeys in Hk. destruct Hk as (e & He & Hleaves & _).
    exact (Hnone e He Hleaves).
Qed.

Lemma last_job_decides_the_node_witness :
  exists n,
    In n (plan (convert_attempt attempt_anonymous_job)) /\
    str_prop n "id" = Some "trigger"%string /\
    get n "configuration" = JUndefined /\
    get n "expression" = JStr "fn()" /\
    get n "adaptor" = JUndefined /\
    (get n "next" = JUndefined <->
     forall e, In e (list_of (edges attempt_anonymous_job)) -> ~ leaves_job "trigger" e).
Proof.
  apply (last_job_decides_the_node attempt_anonymous_job []
           (mkJob None JUndefined (Some "fn()"%string) None) []).
  - reflexivity.
  - discriminate.
  - intros j' [].
Defined.

(** An edge that leaves a job becomes an entry of the job's [next], under
    the id of its target: [true], or the object holding the condition as
    [expression] when the edge has a non-empty one. Of several edges from
    the job to one target the last decides. *)
Theorem job_edge_becomes_next_entry :
  forall attempt pre j post before e after,
    jobs attempt = Some (pre ++ j :: post) ->
    or_trigger (job_id j) <> "__proto__"%string ->
    (forall j', In j' post -> or_trigger (job_id j') <> or_trigger (job_id j)) ->
    edges attempt = Some (before ++ e :: after) ->
    leaves_job (or_trigger (job_id j)) e ->
    (forall e', In e' after -> source_job_id e' = source_job_id e ->
                target_job_id e' <> target_job_id e) ->
    exists n,
      In n (plan (convert_attempt attempt)) /\
      str_prop n "id" = Some (or_trigger (job_id j)) /\
      get (get n "next") (target_job_id e) = edge_value e.
Proof.
  intros a pre j post before e after Hjobs Hx Hpost Hedges [Hsrc Ht] Hafter.
  pose proof (last_job_node a pre j post Hjobs Hx Hpost) as Hnode.
  exists (job_node (list_of (edges a)) j).
  destruct (node_in_plan _ _ _ Hnode) as [Hin Hid].
  split; [exact Hin|]. split; [exact Hid|].
  rewrite Hedges. cbn [list_of]. unfold job_node.
  set (x := or_trigger (job_id j)) in *.
  set (next := fold_left job_next _ []).
  assert (Hget : obj_get next (target_job_id e) = Some (edge_value e)).
  { subst next. rewrite filter_app. cbn [filter].
    replace (is_id (source_job_id e) x) with true
      by (symmetry; now apply is_id_iff).
    change (fold_left job_next ?l []) with (assign_all target_job_id edge_value l []).
    apply (assign_all_get_last target_job_id edge_value); [exact Ht|].
    intros e' He'. apply filter_In in He'. destruct He' as [He' Hsrc'].
    apply is_id_iff in Hsrc'. apply Hafter; [exact He' | congruence]. }
  destruct (obj_keys next) as [|k ks] eqn:Ek.
  - exfalso. assert (Hk : In (target_job_id e) (obj_keys next)).
    { apply In_obj_keys. eapply obj_get_In; eauto. }
    rewrite Ek in Hk. destruct Hk.
  - cbn. now rewrite Hget.
Qed.

Lemma job_edge_becomes_next_entry_witness :
  exists n,
    In n (plan (convert_attempt attempt_two_jobs)) /\
    str_prop n "id" = Some "a"%string /\
    get (get n "next") "b" = JObj [("expression", JStr "!state.error")].
Proof.
  apply (job_edge_becomes_next_entry attempt_two_jobs []
           (mkJob (Some "a"%string) (JStr "secret") (Some "fn(a)"%string)
                  (Some "common@1.0.0"%string))
           [mkJob (Some "b"%string) JUndefined (Some "fn(b)"%string) None]
           [mkEdge (Some "trigger"%string) None "a" (Some "state.ok"%string)]
           (mkEdge None (Some "a"%string) "b" (Some "!state.error"%string))
           [mkEdge None (Some "a"%string) "c" (Some "state.c"%string)]).
  - reflexivity.
  - discriminate.
  - intros j' [<-|[]]. discriminate.
  - reflexivity.
  - split; [reflexivity | discriminate].
  - intros e' [<-|[]] _. discriminate.
Defined.

Lemma trigger_node_same E t t' :
  or_trigger (trigger_id t) = or_trigger (trigger_id t') ->
  trigger_node E t = trigger_node E t'.
Proof. unfold trigger_node. now intros ->. Qed.

Lemma trigger_next_all_true ces o t v :
  (forall k w, obj_get o k = Some w -> w = JBool true) ->
  obj_get (fold_left trigger_next ces o) t = Some v -> v = JBool true.
Proof.
  intros Ho.
  change (fold_left trigger_next ces o)
    with (assign_all target_job_id (fun _ : Edge => JBool true) ces o).
  apply (assign_all_values target_job_id (fun _ => JBool true)
                           (fun _ w => w = JBool true)); [exact Ho | reflexivity].
Qed.

(** A trigger whose id no job shares gives a node that holds its id and
    nothing of a job. The node has a [next] exactly when some edge leaves
    the trigger, and every entry of that [next] is [true]: the condition of
    an edge that leaves a trigger is dropped. *)
Theorem trigger_edges_lose_their_condition :
  forall attempt t,
    In t (list_of (triggers attempt)) ->
    or_trigger (trigger_id t) <> "__proto__"%string ->
    ~ In (or_trigger (trigger_id t)) (job_ids attempt) ->
    exists n,
      In n (plan (convert_attempt attempt)) /\
      str_prop n "id" = Some (or_trigger (trigger_id t)) /\
      get n "expression" = JUndefined /\
      (get n "next" = JUndefined <->
       forall e, In e (list_of (edges attempt)) ->
                 source_trigger_id e <> Some (or_trigger (trigger_id t))) /\
      (forall e, In e (list_of (edges attempt)) ->
                 leaves_trigger (or_trigger (trigger_id t)) e ->
                 get (get n "next") (target_job_id e) = JBool true).
Proof.
  intros a t Ht Hx Hjobs.
  set (x := or_trigger (trigger_id t)) in *.
  set (E := list_of (edges a)).
  assert (Hnode : obj_get (convert_nodes a) x = Some (trigger_node E t)).
  { rewrite convert_nodes_eq. fold E.
    rewrite assign_all_get_other.
    2:{ intros j Hj Heq. apply Hjobs. unfold job_ids. rewrite <- Heq.
        now apply (in_map (fun j => or_trigger (job_id j))). }
    destruct (last_with_key (fun t => or_trigger (trigger_id t))
                            (list_of (triggers a)) x) as (pre & t0 & post & Hl & Hk & Hpost).
    { now apply (in_map (fun t => or_trigger (trigger_id t))). }
    rewrite Hl, (trigger_node_same E t t0) by (symmetry; exact Hk).
    rewrite <- Hk.
    apply (assign_all_get_last (fun t => or_trigger (trigger_id t))).
    - now rewrite Hk.
    - intros i' Hi'. rewrite Hk. now apply Hpost. }
  exists (trigger_node E t).
  destruct (node_in_plan _ _ _ Hnode) as [Hin Hid].
  split; [exact Hin|]. split; [exact Hid|].
  unfold trigger_node. fold x.
  destruct (filter (fun e => is_id (source_trigger_id e) x) E) as [|c ces] eqn:Ef.
  - split; [reflexivity|]. split; [split; [|reflexivity]|].
    + intros _ e He Hsrc.
      assert (Hc : In e (filter (fun e => is_id (source_trigger_id e) x) E)).
      { apply filter_In. split; [exact He | now apply is_id_iff]. }
      rewrite Ef in Hc. destruct Hc.
    + intros e He [Hsrc _].
      assert (Hc : In e (filter (fun e => is_id (source_trigger_id e) x) E)).
      { apply filter_In. split; [exact He | now apply is_id_iff]. }
      rewrite Ef in Hc. destruct Hc.
  - split; [reflexivity|]. split; [split; [discriminate|]|].
    + intros Hnone. exfalso.
      assert (Hc : In c (filter (fun e => is_id (source_trigger_id e) x) E))
        by (rewrite Ef; now left).
      apply filter_In in Hc. destruct Hc as [Hc Hsrc].
      apply is_id_iff in Hsrc. exact (Hnone c Hc Hsrc).
    + intros e He [Hsrc Htarget]. cbn [get obj_get String.eqb Ascii.eqb Bool.eqb].
      cbn.
      assert (Hc : In e (c :: ces)).
      { rewrite <- Ef. apply filter_In. split; [exact He | now apply is_id_iff]. }
      assert (Hkey : In (target_job_id e) (map fst (fold_left trigger_next (c :: ces) []))).
      { change (fold_left trigger_next ?l [])
          with (assign_all target_job_id (fun _ : Edge => JBool true) l []).
        apply assign_all_keys. right. split; [exact Htarget|].
        now apply in_map. }
      apply In_obj_get in Hkey. destruct Hkey as [v Hv].
      cbn [fold_left] in Hv. rewrite Hv.
      eapply trigger_next_all_true; [|exact Hv].
      intros k w. unfold trigger_next, assign.
      destruct (target_job_id c =? "__proto__")%string; [intros [=]|].
      cbn. destruct (target_job_id c =? k)%string; [now intros [= <-] | intros [=]].
Qed.

Lemma trigger_edges_lose_their_condition_witness :
  exists n,
    In n (plan (convert_attempt attempt_two_jobs)) /\
    str_prop n "id" = Some "trigger"%string /\
    get (get n "next") "a" = JBool true.
Proof.
  destruct (trigger_edges_lose_their_condition attempt_two_jobs (mkTrigger None))
    as (n & Hin & Hid & _ & _ & Hnext).
  - now left.
  - discriminate.
  - cbn. intros [H|[H|[]]]; discriminate.
  - exists n. split; [exact Hin|]. split; [exact Hid|].
    apply (Hnext (mkEdge (Some "trigger"%string) None "a" (Some "state.ok"%string))).
    + now left.
    + split; [reflexivity | discriminate].
Defined.

End ConversionFacts.
